(** * Adaptive typing-practice engine: word selection and performance analysis

    A shallow embedding of the typing-game core of the server
    ([getProblemLetterScores], [calculateAdaptiveDifficulty],
    [chooseNextWordWithDifficulty], [analyzeResultsLocally],
    [getEncouragementMessage]) together with the properties its
    specification states about it.

    JavaScript numbers are IEEE-754 binary64 values.  They are modelled as
    rationals, every arithmetic result being rounded to 53 significant bits
    (round to nearest, ties to even) by [Binary64.fl].  The exponent range is
    left unbounded: the quantities of this program are ratios and sums of
    array lengths and millisecond counts, far from overflow and underflow. *)

From Stdlib Require Import ZArith QArith Qround Qpower Qreduction Lqa Lia.
From Stdlib Require Import List Bool Ascii String DecimalString.
From Stdlib Require Import Sorting.Sorted Sorting.Permutation.
From Stdlib Require Import Uint63 PrimFloat FloatOps SpecFloat.
Import ListNotations.

(** ** Binary64 arithmetic *)

Module Binary64.

Local Open Scope Q_scope.

Definition pow2 (k : Z) : Q := 2 ^ k.

(** Nearest integer, ties to the even one. *)
Definition rne (s : Q) : Z :=
  let q := Qfloor s in
  match Qcompare (s - inject_Z q) (1 # 2) with
  | Lt => q
  | Gt => (q + 1)%Z
  | Eq => if Z.even q then q else (q + 1)%Z
  end.

(** [floor_log2 x] is the exponent [e] with [2^e <= x < 2^(e+1)], for [0 < x]. *)
Definition floor_log2 (x : Q) : Z :=
  let d := (Z.log2 (Qnum x) - Z.log2 (Zpos (Qden x)))%Z in
  if Qle_bool (pow2 d) x then d else (d - 1)%Z.

(** Rounding of a positive rational to a 53-bit significand. *)
Definition fl_pos (x : Q) : Q :=
  let e := floor_log2 x in
  inject_Z (rne (x * pow2 (52 - e))) * pow2 (e - 52).

(** Rounding to the nearest binary64 number. *)
Definition fl (x : Q) : Q :=
  let y := Qred x in
  match Qnum y with
  | Z0 => 0
  | Zpos _ => Qred (fl_pos y)
  | Zneg _ => Qred (- fl_pos (- y))
  end.

End Binary64.

(** ** JavaScript values used by the typing engine *)

Module Js.

Import Binary64.

(** A JavaScript number. *)
Definition number := Q.

Definition of_Z (z : Z) : number := fl (inject_Z z).
Definition of_nat (n : nat) : number := of_Z (Z.of_nat n).

Definition add (a b : number) : number := fl (a + b)%Q.
Definition mul (a b : number) : number := fl (a * b)%Q.
Definition div (a b : number) : number := fl (a / b)%Q.

Definition leb (a b : number) : bool := Qle_bool a b.
Definition ltb (a b : number) : bool := negb (Qle_bool b a).

(** [Math.floor] and [Math.round] (ties go up). *)
Definition Math_floor (x : number) : Z := Qfloor x.
Definition Math_round (x : number) : Z := Qfloor (x + (1 # 2))%Q.

(** [x.toFixed(1)]: the nearest multiple of one tenth, the larger one on a
    tie, printed with one decimal (numbers below [10^21] in magnitude). *)
Definition toFixed1 (x : number) : string :=
  let neg := ltb x 0%Q in
  let a := if neg then (- x)%Q else x in
  let n := Z.to_N (Qfloor (a * 10 + (1 # 2))%Q) in
  ((if neg then "-" else "") ++
   NilZero.string_of_uint (N.to_uint (n / 10)) ++ "." ++
   NilZero.string_of_uint (N.to_uint (n mod 10)))%string.

(** [Math.random()] yields a binary64 number of the interval [0, 1); the
    largest of them is [1 - 2^-53]. *)
Definition is_random (r : number) : Prop :=
  (0 <= r /\ r <= 1 - pow2 (-53))%Q.

(** Strings are taken as ASCII text: on it the characters are the UTF-16
    code units of the JavaScript string, and [toLowerCase] and
    [toUpperCase] convert the letters A to Z and a to z and nothing else.
    Beyond ASCII the conversions of JavaScript are Unicode-wide; what is
    stated about the case of a string is stated for ASCII text. *)
Definition lower_char (c : ascii) : ascii :=
  let n := nat_of_ascii c in
  if ((65 <=? n) && (n <=? 90))%nat then ascii_of_nat (n + 32) else c.

Definition upper_char (c : ascii) : ascii :=
  let n := nat_of_ascii c in
  if ((97 <=? n) && (n <=? 122))%nat then ascii_of_nat (n - 32) else c.

Fixpoint toLowerCase (s : string) : string :=
  match s with
  | EmptyString => EmptyString
  | String c s' => String (lower_char c) (toLowerCase s')
  end.

Fixpoint toUpperCase (s : string) : string :=
  match s with
  | EmptyString => EmptyString
  | String c s' => String (upper_char c) (toUpperCase s')
  end.

(** [s[i]]: [None] stands for [undefined], which [|| ''] turns into the
    empty (falsy) string. *)
Definition char_at (s : string) (i : nat) : option ascii := String.get i s.

Definition same_char (t u : option ascii) : bool :=
  match t, u with
  | Some a, Some b => Ascii.eqb a b
  | None, None => true
  | _, _ => false
  end.

(** [w.includes(letter)] for a one-character [letter]. *)
Fixpoint includes (w : string) (letter : ascii) : bool :=
  match w with
  | EmptyString => false
  | String c w' => Ascii.eqb c letter || includes w' letter
  end.

Definition char_string (c : ascii) : string := String c EmptyString.

(** [arr.join(sep)]. *)
Definition join (sep : string) (arr : list string) : string := String.concat sep arr.

(** [arr.slice(-n)] and [arr.slice(0, n)]. *)
Definition slice_last {A} (n : nat) (arr : list A) : list A :=
  skipn (List.length arr - n) arr.
Definition slice_first {A} (n : nat) (arr : list A) : list A := firstn n arr.

(** [arr.indexOf(v)], as a position when [v] occurs. *)
Fixpoint indexOf (arr : list string) (v : string) : option nat :=
  match arr with
  | [] => None
  | x :: arr' =>
      if String.eqb x v then Some O
      else match indexOf arr' v with Some i => Some (S i) | None => None end
  end.

(** [arr.sort((a, b) => key(b) - key(a))]: the sort is stable, so that equal
    keys keep their order. *)
Fixpoint insert_desc {A} (key : A -> Z) (x : A) (l : list A) : list A :=
  match l with
  | [] => [x]
  | y :: l' => if (key y <? key x)%Z then x :: l else y :: insert_desc key x l'
  end.

Definition sort_desc {A} (key : A -> Z) (l : list A) : list A :=
  fold_left (fun acc x => insert_desc key x acc) l [].

(** *** Objects keyed by one-character strings

    An object keeps its properties in insertion order, except that the keys
    that are array indices (here the digits) are listed first, in ascending
    order. *)

Definition object (V : Type) := list (ascii * V).

Fixpoint get {V} (o : object V) (k : ascii) : option V :=
  match o with
  | [] => None
  | (k', v) :: o' => if Ascii.eqb k' k then Some v else get o' k
  end.

Fixpoint set {V} (o : object V) (k : ascii) (v : V) : object V :=
  match o with
  | [] => [(k, v)]
  | (k', v') :: o' =>
      if Ascii.eqb k' k then (k, v) :: o' else (k', v') :: set o' k v
  end.

Definition is_index_key (k : ascii) : bool :=
  let n := nat_of_ascii k in ((48 <=? n) && (n <=? 57))%nat.

Definition has_key {V} (o : object V) (k : ascii) : bool :=
  match get o k with Some _ => true | None => false end.

Definition digits : list ascii :=
  ["0"; "1"; "2"; "3"; "4"; "5"; "6"; "7"; "8"; "9"]%char.

Definition keys {V} (o : object V) : list ascii :=
  filter (has_key o) digits ++
  filter (fun k => negb (is_index_key k)) (map fst o).

(** [Object.entries(o)]. *)
Definition entries {V} (o : object V) : list (ascii * V) :=
  flat_map (fun k => match get o k with Some v => [(k, v)] | None => [] end)
           (keys o).

(** [o[k] || 0] for a numeric property.  The counts of the engine are sums
    of ones and twos, one for a character of the input at most: they are kept
    as integers, which binary64 numbers represent exactly. *)
Definition get_or_0 (o : object Z) (k : ascii) : Z :=
  match get o k with Some v => v | None => 0%Z end.

(** What a function call does: it returns, or throws a [TypeError]. *)
Inductive error := TypeError.

Inductive outcome (A : Type) :=
| Returned (a : A)
| Thrown (e : error).
Arguments Returned {A} a.
Arguments Thrown {A} e.

End Js.

(** ** The typing engine *)

Import Js.

(** One typed-word event of a typing history.  A missing [word] or [input]
    is the empty string (what [item.word || ''] makes of it); a missing
    [timeSpent] or [hesitations] is [None]. *)
Record Attempt := {
  word : string;
  input : string;
  correct : bool;
  timeSpent : option Z;
  hesitations : option Z
}.

Inductive Tier := easy | medium | hard.

(** *** Word bank *)

Definition TYPING_WORDS (difficulty : Tier) : list string :=
  match difficulty with
  | easy =>
      ["cat"; "dog"; "sun"; "bed"; "leg"; "pie"; "bee"; "sea"; "tea"; "pea";
       "lip"; "lid"; "bib"; "did"; "dad"; "bad"; "pad"; "lad";
       "bat"; "pat"; "tap"; "nap"; "pan"; "man"; "fan"; "van"; "jam"; "yam";
       "sip"; "lip"; "tip"; "dip"; "pip"; "rip"; "zip"; "mop"; "pop"]
  | medium =>
      ["bell"; "dell"; "pill"; "bill"; "peel"; "deep"; "beep"; "peep"; "pipe"; "pale";
       "bale"; "bail"; "pail"; "leap"; "deal";
       "was"; "saw"; "no"; "on"; "top"; "pot"; "ten"; "net";
       "thin"; "chin"; "ship"; "shop"; "cash"; "dash"; "wish"; "fish";
       "mild"; "wild"; "kind"; "mind"; "bend"; "lend"; "send"; "tend"]
  | hard =>
      ["pedal"; "piped"; "biped"; "belle"; "bleed"; "bled"; "idle"; "bide"; "pile"; "piled";
       "deli"; "bead"; "lied"; "bile";
       "dared"; "bread"; "brand"; "grand"; "blend"; "trend"; "flipped"; "dripped";
       "thick"; "think"; "thank"; "chunk"; "shrimp"; "crash"; "flash"; "splash";
       "below"; "elbow"; "window"; "yellow"; "mirror"; "pillow"; "shadow"; "follow"]
  end%string.

(** [a.filter((v, i, a) => a.indexOf(v) === i)]. *)
Definition dedupe (a : list string) : list string :=
  map snd
    (filter (fun iv => match indexOf a (snd iv) with
                       | Some j => Nat.eqb j (fst iv)
                       | None => false
                       end)
            (combine (seq 0 (List.length a)) a)).

Definition ALL_TYPING_WORDS : list string :=
  Eval vm_compute in
    dedupe (TYPING_WORDS easy ++ TYPING_WORDS medium ++ TYPING_WORDS hard).

(** [arr[Math.floor(Math.random() * arr.length)]], [r] being the value drawn
    by [Math.random()]; [None] is [undefined]. *)
Definition pickRandom {A} (r : number) (arr : list A) : option A :=
  nth_error arr (Z.to_nat (Math_floor (mul r (of_nat (List.length arr))))).

(** *** Problem letters *)

(** The inner loop of [getProblemLetterScores] over the positions of one
    attempt. *)
Definition scoreAttempt (weight : Z) (target typed : string)
    (letterScores : object Z) : object Z :=
  let maxLen := Nat.max (String.length target) (String.length typed) in
  fold_left
    (fun scores i =>
       let t := char_at target i in
       let u := char_at typed i in
       match t with
       | Some c =>
           if same_char t u then scores
           else set scores c (get_or_0 scores c + weight)%Z
       | None => scores
       end)
    (seq 0 maxLen) letterScores.

Definition getProblemLetterScores (typingHistory : list Attempt) : object Z :=
  let recentWeight := 2%Z in
  let historyLength := Z.of_nat (List.length typingHistory) in
  fold_left
    (fun letterScores ii =>
       let index := Z.of_nat (fst ii) in
       let item := snd ii in
       let target := toLowerCase (word item) in
       let typed := toLowerCase (input item) in
       if correct item then letterScores
       else
         let weight := if (historyLength - 3 <=? index)%Z then recentWeight else 1%Z in
         scoreAttempt weight target typed letterScores)
    (combine (seq 0 (List.length typingHistory)) typingHistory) [].

(** *** Adaptive difficulty *)

(** [r.timeSpent || dflt]: a missing or zero value gives the default. *)
Definition timeSpent_or (dflt : Z) (r : Attempt) : number :=
  match timeSpent r with
  | Some z => if (z =? 0)%Z then of_Z dflt else of_Z z
  | None => of_Z dflt
  end.

Definition hesitations_or_0 (r : Attempt) : number :=
  match hesitations r with
  | Some z => of_Z z
  | None => of_Z 0
  end.

(** [arr.reduce((sum, r) => sum + f(r), 0)]. *)
Definition sum_by (f : Attempt -> number) (arr : list Attempt) : number :=
  fold_left (fun sum r => add sum (f r)) arr 0%Q.

Definition windowAccuracy (last5 : list Attempt) : number :=
  div (of_nat (List.length (filter correct last5))) (of_nat (List.length last5)).
Definition windowAvgTime (last5 : list Attempt) : number :=
  div (sum_by (timeSpent_or 5000) last5) (of_nat (List.length last5)).
Definition windowAvgHesitations (last5 : list Attempt) : number :=
  div (sum_by hesitations_or_0 last5) (of_nat (List.length last5)).

(** The literals of the thresholds, as binary64 numbers. *)
Definition lit_0_8 : number := Eval vm_compute in Binary64.fl (4 # 5).
Definition lit_0_5 : number := 1 # 2.
Definition lit_2_5 : number := 5 # 2.

Definition calculateAdaptiveDifficulty (typingHistory : list Attempt) : Tier :=
  if (List.length typingHistory <? 3)%nat then medium
  else
    let last5 := slice_last 5 typingHistory in
    let accuracy := windowAccuracy last5 in
    let avgTime := windowAvgTime last5 in
    let avgHesitations := windowAvgHesitations last5 in
    if leb lit_0_8 accuracy && ltb avgTime 5000 && ltb avgHesitations 2 then hard
    else if ltb accuracy lit_0_5 || ltb 3 avgHesitations || ltb 8000 avgTime then easy
    else medium.

(** *** Word selection *)

Definition used_set (usedWords : option (list string)) : list string :=
  map toLowerCase (match usedWords with Some l => l | None => [] end).

Definition has (used : list string) (w : string) : bool :=
  existsb (String.eqb w) used.

(** The candidates after the first fallback: the words of the tier that are
    not used, or else the words of the whole bank that are not used. *)
Definition candidatePool (used : list string) (difficulty : Tier) : list string :=
  let candidates := filter (fun w => negb (has used w)) (TYPING_WORDS difficulty) in
  match candidates with
  | [] => filter (fun w => negb (has used w)) ALL_TYPING_WORDS
  | _ => candidates
  end.

Definition focusLetters (scores : object Z) : list ascii :=
  sort_desc (get_or_0 scores) (keys scores).

(** The loop over the top problem letters: the subset of the first letter
    that some candidate contains. *)
Fixpoint firstSubset (letters : list ascii) (candidates : list string)
  : option (list string) :=
  match letters with
  | [] => None
  | letter :: rest =>
      match filter (fun w => includes w letter) candidates with
      | [] => firstSubset rest candidates
      | subset => Some subset
      end
  end.

(** [usedWords] and [requestedDifficulty] may be missing ([None]).  The
    line that the function writes to the console is left out. *)
Definition chooseNextWordWithDifficulty (r : number)
    (typingHistory : list Attempt) (usedWords : option (list string))
    (requestedDifficulty : option Tier) : option string :=
  let used := used_set usedWords in
  let scores := getProblemLetterScores typingHistory in
  let difficulty :=
    match requestedDifficulty with
    | Some d => d
    | None => calculateAdaptiveDifficulty typingHistory
    end in
  let candidates := candidatePool used difficulty in
  match candidates with
  | [] => pickRandom r ALL_TYPING_WORDS
  | _ =>
      match firstSubset (slice_first 3 (focusLetters scores)) candidates with
      | Some subset => pickRandom r subset
      | None => pickRandom r candidates
      end
  end.

(** *** Performance analysis *)

Inductive Severity := mild | moderate | severe.

Inductive EmotionalState := excelling | confident | challenged | struggling | frustrated.

Record ConfusionPattern := {
  confuses : ascii;
  with_ : ascii;
  frequency : Z
}.

Record PerformanceMetrics := {
  avgTimeSpent : Z;
  totalHesitations : number;
  avgHesitations : string;
  isImproving : bool;
  recentAccuracy : Z
}.

Record AnalysisResult := {
  problematicLetters : list ascii;
  confusionPatterns : list ConfusionPattern;
  strengths : list ascii;
  overallAccuracy : Z;
  recommendations : list string;
  severity : Severity;
  emotionalState : EmotionalState;
  performanceMetrics : PerformanceMetrics;
  encouragement : option string
}.

(** The three objects that the loop over the attempts fills. *)
Record LetterCounts := {
  letterErrorCounts : object Z;
  letterOkCounts : object Z;
  confusionMap : object (object Z)
}.

Definition noCounts : LetterCounts :=
  {| letterErrorCounts := []; letterOkCounts := []; confusionMap := [] |}.

(** The body of the loop at one position, [t] being the target character. *)
Definition countPosition (t : ascii) (u : option ascii) (c : LetterCounts)
  : LetterCounts :=
  if same_char (Some t) u then
    {| letterErrorCounts := letterErrorCounts c;
       letterOkCounts := set (letterOkCounts c) t (get_or_0 (letterOkCounts c) t + 1)%Z;
       confusionMap := confusionMap c |}
  else
    {| letterErrorCounts :=
         set (letterErrorCounts c) t (get_or_0 (letterErrorCounts c) t + 1)%Z;
       letterOkCounts := letterOkCounts c;
       confusionMap :=
         match u with
         | Some uc =>
             let inner := match get (confusionMap c) t with
                          | Some o => o
                          | None => []
                          end in
             set (confusionMap c) t (set inner uc (get_or_0 inner uc + 1)%Z)
         | None => confusionMap c
         end |}.

Definition countAttempt (c : LetterCounts) (item : Attempt) : LetterCounts :=
  let target := toLowerCase (word item) in
  let typed := toLowerCase (input item) in
  let maxLen := Nat.max (String.length target) (String.length typed) in
  fold_left
    (fun c i =>
       match char_at target i with
       | Some t => countPosition t (char_at typed i) c
       | None => c
       end)
    (seq 0 maxLen) c.

Definition countLetters (all : list Attempt) : LetterCounts :=
  fold_left countAttempt all noCounts.

(** The confusion patterns of one target letter: its two most frequent
    mistaken letters. *)
Definition patternsOf (cm : object (object Z)) (target : ascii)
  : list ConfusionPattern :=
  match get cm target with
  | None => []
  | Some inner =>
      let mistakenAs := slice_first 2 (sort_desc snd (entries inner)) in
      flat_map
        (fun e =>
           let withLetter := fst e in
           if Ascii.eqb withLetter target then []
           else [{| confuses := withLetter; with_ := target;
                    frequency := get_or_0 inner withLetter |}])
        mistakenAs
  end.

Definition messages (state : EmotionalState) : list string :=
  match state with
  | excelling =>
      ["🌟 Outstanding work! You're a typing superstar!";
       "🚀 Incredible progress! Keep up the amazing effort!";
       "🏆 You're mastering these letters beautifully!"]
  | confident =>
      ["💪 Great job! You're doing really well!";
       "⭐ Nice progress! Keep practicing!";
       "🎯 You're on the right track!"]
  | challenged =>
      ["🌈 You're learning and improving every day!";
       "💝 Keep going! Every practice helps!";
       "🌱 You're making steady progress!"]
  | struggling =>
      ["💙 Learning takes time - you're doing great!";
       "🌟 Every attempt makes you stronger!";
       "🤗 It's okay to find this challenging - keep trying!"]
  | frustrated =>
      ["💝 Take a break if needed - you're doing your best!";
       "🌈 Remember, progress isn't always linear!";
       "🫂 You're working hard, and that's what matters!"]
  end%string.

Definition getEncouragementMessage (r : number) (state : EmotionalState)
    (accuracy : Z) : option string :=
  let stateMessages := messages state in
  nth_error stateMessages
    (Z.to_nat (Math_floor (mul r (of_nat (List.length stateMessages))))).

(** The quantities that [analyzeResultsLocally] derives from the attempts.
    Its local values [overallAccuracy], [avgTimeSpent], [totalHesitations]
    and [avgHesitations] are [accuracyPercent], [meanTimeSpent],
    [sumHesitations] and [meanHesitations] here, the names themselves being
    those of the fields of the result. *)
Definition correctWords (all : list Attempt) : nat :=
  List.length (filter correct all).

Definition accuracyPercent (all : list Attempt) : Z :=
  if (0 <? List.length all)%nat
  then Math_round (mul (div (of_nat (correctWords all)) (of_nat (List.length all))) 100)
  else 0%Z.

Definition meanTimeSpent (all : list Attempt) : number :=
  if (0 <? List.length all)%nat
  then div (sum_by (timeSpent_or 0) all) (of_nat (List.length all))
  else 0%Q.

Definition sumHesitations (all : list Attempt) : number :=
  sum_by hesitations_or_0 all.

Definition meanHesitations (all : list Attempt) : number :=
  if (0 <? List.length all)%nat
  then div (sumHesitations all) (of_nat (List.length all))
  else 0%Q.

(** Severity and emotional state as the accuracy alone gives them. *)
Definition severityOf (accuracy : Z) : Severity :=
  if (accuracy <? 60)%Z then severe
  else if (accuracy <? 80)%Z then moderate
  else mild.

Definition baseEmotionalState (accuracy : Z) : EmotionalState :=
  if (accuracy <? 60)%Z then struggling
  else if (accuracy <? 80)%Z then challenged
  else if (90 <=? accuracy)%Z then excelling
  else confident.

Definition emotionalStateOf (accuracy : Z) (avgHes avgTime : number)
  : EmotionalState :=
  if ltb lit_2_5 avgHes || ltb 7000 avgTime then frustrated
  else baseEmotionalState accuracy.

Definition when (b : bool) (msgs : list string) : list string :=
  if b then msgs else [].

Definition recommendationsOf (problematic : list ascii)
    (patterns : list ConfusionPattern) (accuracy : Z)
    (avgHes avgTime : number) : list string :=
  List.concat
    [ when (0 <? List.length problematic)%nat
        [("🎯 Focus practice on these letters: " ++
          toUpperCase (join ", " (map char_string (slice_first 5 problematic))))%string];
      when (0 <? List.length patterns)%nat
        [("🔄 Work on distinguishing: " ++
          toUpperCase
            (join ", "
               (map (fun p => char_string (confuses p) ++ "/" ++ char_string (with_ p))
                    (slice_first 3 patterns))))%string];
      when (ltb 2 avgHes)
        ["⏸️ Use visual letter cards to reduce hesitation";
         "💝 Practice in shorter, more frequent sessions"]%string;
      (if (90 <=? accuracy)%Z
       then ["🌟 Excellent progress! Ready for more challenging words"]
       else when (accuracy <? 70)%Z
              ["🌱 Start with simpler 3-letter words for confidence";
               "👁️ Use multisensory techniques (trace letters while saying them)"])%string;
      (if ltb 7000 avgTime
       then ["🐢 Take time to sound out each letter - no rush!"]
       else when (ltb avgTime 3000)
              ["⚡ Great speed! Focus on accuracy next"])%string ].

Definition recentAccuracyOf (all : list Attempt) : number :=
  let last5 := slice_last 5 all in
  if (0 <? List.length last5)%nat
  then mul (div (of_nat (List.length (filter correct last5)))
                (of_nat (List.length last5))) 100
  else 0%Q.

Definition analyzeResultsLocally (r : number) (all : list Attempt) : AnalysisResult :=
  let accuracy := accuracyPercent all in
  let counts := countLetters all in
  let avgTime := meanTimeSpent all in
  let avgHes := meanHesitations all in
  let problematic :=
    sort_desc (get_or_0 (letterErrorCounts counts)) (keys (letterErrorCounts counts)) in
  let strong :=
    sort_desc (get_or_0 (letterOkCounts counts))
      (filter (fun l => (get_or_0 (letterErrorCounts counts) l <=?
                         get_or_0 (letterOkCounts counts) l)%Z)
              (keys (letterOkCounts counts))) in
  let patterns :=
    flat_map (patternsOf (confusionMap counts)) (keys (confusionMap counts)) in
  let state := emotionalStateOf accuracy avgHes avgTime in
  let recent := recentAccuracyOf all in
  {| problematicLetters := problematic;
     confusionPatterns := patterns;
     strengths := strong;
     overallAccuracy := accuracy;
     recommendations := recommendationsOf problematic patterns accuracy avgHes avgTime;
     severity := severityOf accuracy;
     emotionalState := state;
     performanceMetrics :=
       {| avgTimeSpent := Math_round avgTime;
          totalHesitations := sumHesitations all;
          avgHesitations := toFixed1 avgHes;
          isImproving := ltb (inject_Z accuracy) recent;
          recentAccuracy := Math_round recent |};
     encouragement := getEncouragementMessage r state accuracy |}.

(** *** Values of a request body

    The histories that reach the engine come from the JSON body of a
    request: any JSON value, or nothing.  A value is taken as far as the
    code looks at it: its truth value, its [length] and, for an array, its
    entries.  A string is given by its length, an object that is not an
    array by its [length] property.  An entry of an array is [null], on
    which reading a field throws, or it is read field by field like an
    attempt (a number, a string or a boolean has none of the fields and
    reads as the attempt without fields; the fields have the types that the
    game sends). *)
Inductive entry :=
| NullEntry
| Given (a : Attempt).

(** The [length] property of an object: absent, a number, or a value of
    another type, which [<] converts to a number ([None] when the
    conversion gives [NaN]) and which [===] never finds equal to [0]. *)
Inductive property :=
| Absent
| NumberValue (x : number)
| OtherValue (toNumber : option number).

Inductive history :=
| Undefined
| Null
| Boolean (b : bool)
| Number (x : number)
| Text (units : nat)
| Array (items : list entry)
| Object (lengthProperty : property).

(** The truth value of a value: [undefined], [null], [false], [0] and the
    empty string are falsy. *)
Definition truthy (v : history) : bool :=
  match v with
  | Undefined | Null => false
  | Boolean b => b
  | Number x => negb (Qeq_bool x 0)
  | Text units => negb (units =? 0)%nat
  | Array _ | Object _ => true
  end.

(** [v.length]: a [TypeError] on [undefined] and [null]. *)
Definition lengthOf (v : history) : outcome property :=
  match v with
  | Undefined | Null => Thrown TypeError
  | Boolean _ | Number _ => Returned Absent
  | Text units => Returned (NumberValue (of_nat units))
  | Array items => Returned (NumberValue (of_nat (List.length items)))
  | Object p => Returned p
  end.

(** [p < bound] and [p === 0]. *)
Definition below (p : property) (bound : number) : bool :=
  match p with
  | NumberValue x | OtherValue (Some x) => ltb x bound
  | Absent | OtherValue None => false
  end.


(** The entries of an array as attempts, when none of them is [null]. *)
Fixpoint attemptsOf (items : list entry) : option (list Attempt) :=
  match items with
  | [] => Some []
  | NullEntry :: _ => None
  | Given a :: rest =>
      match attemptsOf rest with
      | Some l => Some (a :: l)
      | None => None
      end
  end.

(** A callback that reads a field of every entry ([r => r.correct],
    [item => item.word]) throws a [TypeError] at a [null] entry. *)
Definition readEntries (items : list entry) : outcome (list Attempt) :=
  match attemptsOf items with
  | Some l => Returned l
  | None => Thrown TypeError
  end.

Definition andThen {A B} (o : outcome A) (f : A -> outcome B) : outcome B :=
  match o with
  | Returned a => f a
  | Thrown e => Thrown e
  end.


(** [calculateAdaptiveDifficulty(typingHistory)] on any value: the length
    is read and compared with 3 first; then [typingHistory.slice(-5)],
    which only an array and a string have, and [last5.filter], which only
    an array has and which reads the entries of the window.  On a window
    [calculateAdaptiveDifficulty] is the rest of the function: the window
    has three to five attempts and is its own window. *)
Definition estimateDifficulty (typingHistory : history) : outcome Tier :=
  andThen (lengthOf typingHistory) (fun len =>
    if below len 3 then Returned medium
    else
      match typingHistory with
      | Array items =>
          andThen (readEntries (slice_last 5 items)) (fun last5 =>
            Returned (calculateAdaptiveDifficulty last5))
      | _ => Thrown TypeError
      end).

(** ** The typing endpoints

    The handlers of the typing routes that touch no stored document, as
    functions of the request body.  A handler answers with a JSON body, or
    with an error status; whatever is thrown inside its [try] block is
    answered with status 500. *)

Inductive response (A : Type) :=
| Success (body : A)
| Failure (status : nat) (error : string).
Arguments Success {A} body.
Arguments Failure {A} status error.

(** [!field] for a field of the body that holds a string when it is present. *)
Definition missing (field : option string) : bool :=
  match field with
  | None => true
  | Some EmptyString => true
  | Some _ => false
  end.

Module InitialWord.
Record body := {
  word : option string;
  isInitial : bool;
  difficulty : Tier;
  message : string
}.
End InitialWord.

(** [POST /api/typing/generate-initial-word]. *)
Definition generateInitialWord (r : number) (sessionId username therapistCode : option string)
  : response InitialWord.body :=
  if missing sessionId || missing username || missing therapistCode
  then Failure 400 "Missing required fields"
  else Success {| InitialWord.word := pickRandom r (TYPING_WORDS medium);
                  InitialWord.isInitial := true;
                  InitialWord.difficulty := medium;
                  InitialWord.message := "Welcome! Let's start your typing adventure!" |}.

(** The body of a request for the next word.  The identifiers and the
    difficulty are strings when they are present, as the game sends them. *)
Module NextWord.
Record request := {
  sessionId : option string;
  username : option string;
  therapistCode : option string;
  typingHistory : history;
  difficultyLevel : option string
}.
Record body := {
  word : option string;
  isAdaptive : bool;
  difficulty : Tier;
  recentAccuracy : Z;
  aiInsight : string
}.
End NextWord.

Definition insightEasier : string := "Selected easier word to build confidence".
Definition insightChallenging : string := "Selected challenging word to advance skills".
Definition insightBalanced : string := "Selected balanced word for steady progress".

(** The accuracy of the last three attempts, in percent, not rounded. *)
Definition lastThreeAccuracy (typingHistory : list Attempt) : number :=
  let recentResults := slice_last 3 typingHistory in
  if (0 <? List.length recentResults)%nat
  then mul (div (of_nat (List.length (filter correct recentResults)))
                (of_nat (List.length recentResults))) 100
  else 0%Q.

Definition aiInsightOf (recentAccuracy : number) : string :=
  if ltb recentAccuracy 60 then insightEasier
  else if ltb 85 recentAccuracy then insightChallenging
  else insightBalanced.

(** The names of the tiers, the keys of [TYPING_WORDS]. *)
Definition tierName (d : Tier) : string :=
  match d with
  | easy => "easy"
  | medium => "medium"
  | hard => "hard"
  end.

Definition tierNamed (name : string) : option Tier :=
  if String.eqb name "easy" then Some easy
  else if String.eqb name "medium" then Some medium
  else if String.eqb name "hard" then Some hard
  else None.

(** The difficulty of the request when it has one: the empty string is
    falsy, like a missing one. *)
Definition requestedLevel (difficultyLevel : option string) : option string :=
  match difficultyLevel with
  | Some EmptyString => None
  | other => other
  end.

(** The [try] block of [POST /api/typing/generate-next-word].  The
    difficulty is the one of the request or the estimate;
    [typingHistory.map] is not a function unless the history is an array,
    and its callback reads every entry; in the selector
    [TYPING_WORDS[difficulty]] is [undefined] unless the difficulty names a
    tier, and [undefined.filter] throws. *)
Definition nextWordBody (r : number) (req : NextWord.request) : outcome NextWord.body :=
  andThen
    (match requestedLevel (NextWord.difficultyLevel req) with
     | Some name => Returned name
     | None =>
         andThen (estimateDifficulty (NextWord.typingHistory req)) (fun d =>
           Returned (tierName d))
     end)
    (fun adaptiveDifficulty =>
  andThen
    (match NextWord.typingHistory req with
     | Array items => readEntries items
     | _ => Thrown TypeError
     end)
    (fun typingHistory =>
  andThen
    (match tierNamed adaptiveDifficulty with
     | Some d => Returned d
     | None => Thrown TypeError
     end)
    (fun d =>
       let usedWords := map (fun item => toLowerCase (word item)) typingHistory in
       let chosen :=
         chooseNextWordWithDifficulty r typingHistory (Some usedWords) (Some d) in
       let recentAccuracy := lastThreeAccuracy typingHistory in
       Returned {| NextWord.word := chosen;
                   NextWord.isAdaptive := true;
                   NextWord.difficulty := d;
                   NextWord.recentAccuracy := Math_round recentAccuracy;
                   NextWord.aiInsight := aiInsightOf recentAccuracy |}))).

(** [POST /api/typing/generate-next-word]. *)
Definition generateNextWord (r : number) (req : NextWord.request)
  : response NextWord.body :=
  if missing (NextWord.sessionId req) || missing (NextWord.username req) ||
     missing (NextWord.therapistCode req) ||
     negb (truthy (NextWord.typingHistory req))
  then Failure 400 "Missing required fields"
  else
    match nextWordBody r req with
    | Returned body => Success body
    | Thrown _ => Failure 500 "Failed to generate word"
    end.

Module Feedback.
Record body := {
  currentAccuracy : Z;
  emotionalState : EmotionalState;
  encouragement : option string;
  needsSupport : bool;
  suggestedDifficulty : Tier
}.
End Feedback.




(** ** The estimate of the typing game

    The game computes a difficulty of its own before it asks for the next
    word, from entries whose time and hesitations are always numbers. *)
Record Entry := {
  entryWord : string;
  entryInput : string;
  entryCorrect : bool;
  entryTimeSpent : Z;
  entryHesitations : Z
}.

(** The entry as the server reads it from the request. *)
Definition attemptOfEntry (e : Entry) : Attempt :=
  {| word := entryWord e; input := entryInput e; correct := entryCorrect e;
     timeSpent := Some (entryTimeSpent e); hesitations := Some (entryHesitations e) |}.

Definition sumEntries (f : Entry -> number) (arr : list Entry) : number :=
  fold_left (fun sum r => add sum (f r)) arr 0%Q.

Definition calculateDifficulty (recentResults : list Entry) : Tier :=
  if (List.length recentResults <? 3)%nat then medium
  else
    let last5 := slice_last 5 recentResults in
    let accuracy :=
      div (of_nat (List.length (filter entryCorrect last5))) (of_nat (List.length last5)) in
    let avgTime :=
      div (sumEntries (fun r => of_Z (entryTimeSpent r)) last5) (of_nat (List.length last5)) in
    let avgHesitations :=
      div (sumEntries (fun r => of_Z (entryHesitations r)) last5)
          (of_nat (List.length last5)) in
    if leb lit_0_8 accuracy && ltb avgTime 5000 && ltb avgHesitations 2 then hard
    else if ltb accuracy lit_0_5 || ltb 3 avgHesitations then easy
    else medium.

(** The tier that a request for the next word is served at: the tier that
    its difficulty names, or the estimate when it names none; nothing when
    the difficulty is not the name of a tier. *)
Definition servedDifficulty (req : NextWord.request) (items : list Attempt)
  : option Tier :=
  match requestedLevel (NextWord.difficultyLevel req) with
  | Some name => tierNamed name
  | None => Some (calculateAdaptiveDifficulty items)
  end.

(** Five correct entries of nine seconds each. *)
Definition slowCorrectEntries : list Entry :=
  repeat {| entryWord := "cat"; entryInput := "cat"; entryCorrect := true;
            entryTimeSpent := 9000; entryHesitations := 0 |} 5.

(** The two recommendations that answer hesitation and slowness. *)
Definition adviceVisualCards : string :=
  "⏸️ Use visual letter cards to reduce hesitation".

Definition adviceNoRush : string :=
  "🐢 Take time to sound out each letter - no rush!".

(** ** The dominant emotion of a puzzle

    The server keeps the emotions predicted during a puzzle in one buffer,
    [currentPuzzleEmotions], and [GET /api/emotion] answers with the most
    frequent one and empties the buffer.  The handler counts the emotions in
    an object, so an emotion is taken by the property key it becomes, a
    string.  The keys that name a property of [Object.prototype] (such as
    [constructor]) are left out of the domain of the model: for them
    [counts[e] || 0] is not a number. *)

Module Dict.

(** An object with string keys, its properties in insertion order. *)
Definition t (V : Type) := list (string * V).

Fixpoint get {V} (o : t V) (k : string) : option V :=
  match o with
  | [] => None
  | (k', v) :: o' => if String.eqb k' k then Some v else get o' k
  end.

Fixpoint set {V} (o : t V) (k : string) (v : V) : t V :=
  match o with
  | [] => [(k, v)]
  | (k', v') :: o' =>
      if String.eqb k' k then (k, v) :: o' else (k', v') :: set o' k v
  end.

Definition get_or_0 (o : t Z) (k : string) : Z :=
  match get o k with Some v => v | None => 0%Z end.

Definition digit_value (c : ascii) : option N :=
  let n := N_of_ascii c in
  if ((48 <=? n) && (n <=? 57))%N then Some (n - 48)%N else None.

Fixpoint decimal (s : string) (acc : N) : option N :=
  match s with
  | EmptyString => Some acc
  | String c s' =>
      match digit_value c with
      | Some d => decimal s' (10 * acc + d)%N
      | None => None
      end
  end.

(** The array index that a key denotes: a canonical decimal numeral below
    [2^32 - 1]. *)
Definition array_index (k : string) : option N :=
  match k with
  | EmptyString => None
  | String "0" EmptyString => Some 0%N
  | String "0" _ => None
  | _ =>
      match decimal k 0 with
      | Some n => if (n <=? 4294967294)%N then Some n else None
      | None => None
      end
  end.

Definition is_array_index (k : string) : bool :=
  match array_index k with Some _ => true | None => false end.

Definition index_rank {V} (e : string * V) : Z :=
  match array_index (fst e) with Some n => (- Z.of_N n)%Z | None => 0%Z end.

(** [Object.entries(o)]: the array indices in ascending order, then the
    other keys in insertion order. *)
Definition entries {V} (o : t V) : list (string * V) :=
  sort_desc index_rank (filter (fun e => is_array_index (fst e)) o) ++
  filter (fun e => negb (is_array_index (fst e))) o.

End Dict.

Definition inheritedKeys : list string :=
  ["constructor"; "__proto__"; "hasOwnProperty"; "isPrototypeOf";
   "propertyIsEnumerable"; "toLocaleString"; "toString"; "valueOf";
   "__defineGetter__"; "__defineSetter__"; "__lookupGetter__";
   "__lookupSetter__"]%string.

Definition plainKey (e : string) : Prop := ~ In e inheritedKeys.

(** The loop [counts[e] = (counts[e] || 0) + 1]. *)
Definition countEmotion (counts : Dict.t Z) (e : string) : Dict.t Z :=
  Dict.set counts e (Dict.get_or_0 counts e + 1)%Z.

Definition emotionCounts (currentPuzzleEmotions : list string) : Dict.t Z :=
  fold_left countEmotion currentPuzzleEmotions [].

(** [GET /api/emotion]: the answer and the buffer that the handler leaves.
    [sorted[0][0]] on an empty array is a [TypeError], which is answered
    with status 500 before the buffer is emptied. *)
Definition apiEmotion (currentPuzzleEmotions : list string)
  : response string * list string :=
  match currentPuzzleEmotions with
  | [] => (Failure 404 "No emotions recorded for this puzzle yet", [])
  | _ =>
      let sorted := sort_desc snd (Dict.entries (emotionCounts currentPuzzleEmotions)) in
      match sorted with
      | (dominantEmotion, _) :: _ => (Success dominantEmotion, [])
      | [] => (Failure 500 "", currentPuzzleEmotions)
      end
  end.

(** How often an emotion occurs in the buffer. *)
Definition occurrences (e : string) (buffer : list string) : Z :=
  Z.of_nat (count_occ string_dec buffer e).

(** ** The instruction of the robot

    The robot of the sidebar says an instruction that depends on the path of
    the page. *)

(** [s.includes(pat)] and [s.startsWith(pat)]. *)
Definition includesText (s pat : string) : bool :=
  match String.index 0 pat s with Some _ => true | None => false end.

Definition startsWith (s pat : string) : bool := String.prefix pat s.

Definition instructionReading : string :=
  "Read the story out loud and record your voice when you're ready".
Definition instructionTyping : string :=
  "Type the words you see on screen as quickly and accurately as you can".
Definition instructionPuzzle : string :=
  "Match the picture pieces to complete the puzzle and learn new words".
Definition instructionPhonetics : string :=
  "Listen to the sounds and click on the correct letter that makes that sound".
Definition instructionDefault : string := "Hi, I'm Lexi".

Definition getInstructionForRoute (pathname : string) : string :=
  if includesText pathname "/reading-exercise" || startsWith pathname "/reading-exercise"
  then instructionReading
  else if String.eqb pathname "/typing-game" || includesText pathname "/typing-game" ||
          startsWith pathname "/typing-game"
  then instructionTyping
  else if includesText pathname "/game/" || startsWith pathname "/game/"
  then instructionPuzzle
  else if includesText pathname "/phonetics-game" || startsWith pathname "/phonetics-game"
  then instructionPhonetics
  else instructionDefault.

(** The instruction as the fragments that occur in the path give it. *)
Definition instructionByFragments (pathname : string) : string :=
  if includesText pathname "/reading-exercise" then instructionReading
  else if includesText pathname "/typing-game" then instructionTyping
  else if includesText pathname "/game/" then instructionPuzzle
  else if includesText pathname "/phonetics-game" then instructionPhonetics
  else instructionDefault.

(** ** The words of a story

    The reading exercise splits the text of a story into words and runs of
    white space, and numbers the words.  A text is taken as its sequence of
    UTF-16 code units, the characters that [\s] and [trim] look at. *)

Module Reading.

Definition text := list N.

(** The code units that [\s] matches and that [trim] removes. *)
Definition isWhiteSpace (c : N) : bool :=
  ((9 <=? c) && (c <=? 13) || (c =? 32) || (c =? 160) || (c =? 5760) ||
   (8192 <=? c) && (c <=? 8202) || (c =? 8232) || (c =? 8233) || (c =? 8239) ||
   (c =? 8287) || (c =? 12288) || (c =? 65279))%N.

Inductive mode := InWord | InSpace.

(** [text.split(/(\s+)/)]: the pieces between the runs of white space and
    the runs themselves, alternating, a piece first and a piece last.  [acc]
    holds the current piece or run, reversed. *)
Fixpoint splitFrom (m : mode) (acc : text) (rest : text) : list text :=
  match rest with
  | [] =>
      match m with
      | InWord => [rev acc]
      | InSpace => [rev acc; []]
      end
  | c :: rest' =>
      match m, isWhiteSpace c with
      | InWord, false => splitFrom InWord (c :: acc) rest'
      | InWord, true => rev acc :: splitFrom InSpace [c] rest'
      | InSpace, true => splitFrom InSpace (c :: acc) rest'
      | InSpace, false => rev acc :: splitFrom InWord [c] rest'
      end
  end.

Definition split (t : text) : list text := splitFrom InWord [] t.

Fixpoint trimStart (t : text) : text :=
  match t with
  | [] => []
  | c :: t' => if isWhiteSpace c then trimStart t' else t
  end.

Definition trim (t : text) : text := rev (trimStart (rev (trimStart t))).

Record item := {
  word : text;
  isSpace : bool;
  index : Z
}.

(** The loop over the tokens, [wordIndex] being the number of the next
    word. *)
Fixpoint numberTokens (tokens : list text) (wordIndex : Z) : list item :=
  match tokens with
  | [] => []
  | token :: tokens' =>
      if (List.length (trim token) =? 0)%nat
      then {| word := token; isSpace := true; index := (-1)%Z |}
             :: numberTokens tokens' wordIndex
      else {| word := token; isSpace := false; index := wordIndex |}
             :: numberTokens tokens' (wordIndex + 1)%Z
  end.

Definition splitIntoWords (t : text) : list item := numberTokens (split t) 0%Z.

(** The items that are words. *)
Definition wordsOf (items : list item) : list item :=
  filter (fun i => negb (isSpace i)) items.

(** A token is a run of white space (possibly empty) or a non-empty piece
    without white space. *)
Definition spaceRun (t : text) : Prop := Forall (fun c => isWhiteSpace c = true) t.

Definition plainPiece (t : text) : Prop :=
  t <> [] /\ Forall (fun c => isWhiteSpace c = false) t.

End Reading.

(** ** The statements of the specification

    [roundedPercent c t] is the specification's
    [round(100 * correctCount / total)]: the integer nearest to the exact
    percentage, the upper one at a tie, and 0 when [t] is 0. *)
Definition roundedPercent (c t : nat) : Z :=
  if (0 <? t)%nat
  then Qfloor (100 * inject_Z (Z.of_nat c) / inject_Z (Z.of_nat t) + (1 # 2))%Q
  else 0%Z.

(** The percentage is exactly halfway between two integers. *)
Definition halfwayPercent (c t : nat) : Prop :=
  exists k : Z, (200 * Z.of_nat c = (2 * k + 1) * Z.of_nat t)%Z.

(** Histories used as examples: [n] attempts on the word cat. *)
Definition attemptOn (w typed : string) (ok : bool) (ms hes : Z) : Attempt :=
  {| word := w; input := typed; correct := ok;
     timeSpent := Some ms; hesitations := Some hes |}.

Definition history_23_of_40 : list Attempt :=
  repeat (attemptOn "cat" "cat" true 2000 0) 23 ++
  repeat (attemptOn "cat" "bat" false 2000 0) 17.


(** The two conditions of the difficulty estimator on a window. *)
Definition hardCondition (last5 : list Attempt) : Prop :=
  (lit_0_8 <= windowAccuracy last5 /\
   windowAvgTime last5 < 5000 /\
   windowAvgHesitations last5 < 2)%Q.

Definition easyCondition (last5 : list Attempt) : Prop :=
  (windowAccuracy last5 < lit_0_5 \/
   3 < windowAvgHesitations last5 \/
   8000 < windowAvgTime last5)%Q.

(** The same window in whole numbers.  [timeTotal] is the plain sum of the
    times that the attempts carry, [timelessCount] the number of attempts
    without a time (none, or zero), [hesitationTotal] the sum of the
    hesitations that the attempts carry. *)
Definition recordedTime (a : Attempt) : Z :=
  match timeSpent a with Some t => t | None => 0%Z end.

Definition lacksTime (a : Attempt) : bool :=
  match timeSpent a with Some t => (t =? 0)%Z | None => true end.

Definition recordedHesitations (a : Attempt) : Z :=
  match hesitations a with Some h => h | None => 0%Z end.

Definition timeTotal (w : list Attempt) : Z :=
  fold_right Z.add 0%Z (map recordedTime w).

Definition timelessCount (w : list Attempt) : Z :=
  Z.of_nat (List.length (filter lacksTime w)).

Definition hesitationTotal (w : list Attempt) : Z :=
  fold_right Z.add 0%Z (map recordedHesitations w).

Definition correctCount (w : list Attempt) : Z :=
  Z.of_nat (List.length (filter correct w)).

Definition windowSize (w : list Attempt) : Z := Z.of_nat (List.length w).

(** Times in milliseconds and hesitation counts: whole numbers from 0 to
    [2^40]. *)
Definition plausible (a : Attempt) : Prop :=
  (0 <= recordedTime a <= 2 ^ 40 /\ 0 <= recordedHesitations a <= 2 ^ 40)%Z.

(** The time that the estimator counts: every attempt without a time adds
    5000 to the plain sum. *)
Definition countedTime (w : list Attempt) : Z :=
  (timeTotal w + 5000 * timelessCount w)%Z.

(** The tiers of the estimator on a window, the averages being compared
    through the sums: an average is below a bound exactly when the sum is
    below the bound times the number of attempts. *)
Definition hardTier (w : list Attempt) : Prop :=
  (4 * windowSize w <= 5 * correctCount w /\
   countedTime w < 5000 * windowSize w /\
   hesitationTotal w < 2 * windowSize w)%Z.

Definition easyTier (w : list Attempt) : Prop :=
  (2 * correctCount w < windowSize w \/
   3 * windowSize w < hesitationTotal w \/
   8000 * windowSize w < countedTime w)%Z.

(** The first two conditions of the specification's [hard] with the plain
    average of the times: accuracy at least 0.8 and average time below 5000,
    average hesitations below 2. *)
Definition hardAsWorded (w : list Attempt) : Prop :=
  (4 * windowSize w <= 5 * correctCount w /\
   timeTotal w < 5000 * windowSize w /\
   hesitationTotal w < 2 * windowSize w)%Z.

(** Three correct attempts without hesitation whose time is zero. *)
Definition history_zero_times : list Attempt := repeat (attemptOn "cat" "cat" true 0 0) 3.

(** Three correct attempts: one without a time, one of 2000 ms, one of
    zero ms. *)
Definition history_mixed_times : list Attempt :=
  [ {| word := "cat"; input := "cat"; correct := true;
       timeSpent := None; hesitations := Some 0%Z |};
    attemptOn "cat" "cat" true 2000 0;
    attemptOn "cat" "cat" true 0 0 ].

(** The scenario of five attempts on the word cat, typed cat, bat, cat, kat
    and cat, whatever their times and hesitations. *)
Definition catHistory (ms hes : nat -> option Z) : list Attempt :=
  [ {| word := "cat"; input := "cat"; correct := true;
       timeSpent := ms 0%nat; hesitations := hes 0%nat |};
    {| word := "cat"; input := "bat"; correct := false;
       timeSpent := ms 1%nat; hesitations := hes 1%nat |};
    {| word := "cat"; input := "cat"; correct := true;
       timeSpent := ms 2%nat; hesitations := hes 2%nat |};
    {| word := "cat"; input := "kat"; correct := false;
       timeSpent := ms 3%nat; hesitations := hes 3%nat |};
    {| word := "cat"; input := "cat"; correct := true;
       timeSpent := ms 4%nat; hesitations := hes 4%nat |} ].


(** Letter counts, said directly.  The positions of an attempt run up to
    the longer of the target and the typed string; at a position the target
    letter [c] is an error when the typed character differs from it, and is
    ok when the typed character is the same. *)
Definition positions (target typed : string) : list nat :=
  seq 0 (Nat.max (String.length target) (String.length typed)).

Definition errorAt (target typed : string) (c : ascii) (i : nat) : bool :=
  match char_at target i with
  | Some t => Ascii.eqb t c && negb (same_char (Some t) (char_at typed i))
  | None => false
  end.

Definition okAt (target typed : string) (c : ascii) (i : nat) : bool :=
  match char_at target i with
  | Some t => Ascii.eqb t c && same_char (Some t) (char_at typed i)
  | None => false
  end.

Definition errorsIn (item : Attempt) (c : ascii) : Z :=
  let target := toLowerCase (word item) in
  let typed := toLowerCase (input item) in
  Z.of_nat (List.length (filter (errorAt target typed c) (positions target typed))).

Definition oksIn (item : Attempt) (c : ascii) : Z :=
  let target := toLowerCase (word item) in
  let typed := toLowerCase (input item) in
  Z.of_nat (List.length (filter (okAt target typed c) (positions target typed))).

Definition sumZ (l : list Z) : Z := fold_right Z.add 0%Z l.

Definition errorCount (all : list Attempt) (c : ascii) : Z :=
  sumZ (map (fun item => errorsIn item c) all).

Definition okCount (all : list Attempt) (c : ascii) : Z :=
  sumZ (map (fun item => oksIn item c) all).

(** The weight of the attempt at [index] in a history of [n] attempts: 2
    among the last three, 1 before. *)
Definition recencyWeight (n index : nat) : Z :=
  if (n - 3 <=? index)%nat then 2%Z else 1%Z.

(** The error score of a letter: over the incorrect attempts, the weight of
    the attempt for each of its positions where the letter is an error. *)
Definition letterScore (history : list Attempt) (c : ascii) : Z :=
  sumZ (map (fun ii =>
               if correct (snd ii) then 0%Z
               else (recencyWeight (List.length history) (fst ii) * errorsIn (snd ii) c)%Z)
            (combine (seq 0 (List.length history)) history)).

(** The letter a typed once correctly and once as b. *)
Definition history_a_once_right_once_wrong : list Attempt :=
  [attemptOn "a" "a" true 1000 0; attemptOn "a" "b" false 1000 0].

(** Adding [w] to the count of [k], as [o[k] = (o[k] || 0) + w] does. *)
Definition bump (o : object Z) (k : ascii) (w : Z) : object Z :=
  set o k (get_or_0 o k + w)%Z.

Definition positive_values (o : object Z) : Prop :=
  forall k v, get o k = Some v -> (0 < v)%Z.

(** One turn of the loop over the positions of an attempt. *)
Definition countStep (target typed : string) (c : LetterCounts) (i : nat) : LetterCounts :=
  match char_at target i with
  | Some t => countPosition t (char_at typed i) c
  | None => c
  end.

Definition scoreStep (weight : Z) (target typed : string) (scores : object Z) (i : nat)
  : object Z :=
  match char_at target i with
  | Some c =>
      if same_char (Some c) (char_at typed i) then scores
      else bump scores c weight
  | None => scores
  end.

Definition scoreItem (historyLength : Z) (letterScores : object Z) (ii : nat * Attempt)
  : object Z :=
  if correct (snd ii) then letterScores
  else scoreAttempt
         (if (historyLength - 3 <=? Z.of_nat (fst ii))%Z then 2%Z else 1%Z)
         (toLowerCase (word (snd ii))) (toLowerCase (input (snd ii))) letterScores.

(** A word is used when some used word is the same up to case. *)
Definition usedIgnoringCase (usedWords : option (list string)) (w : string) : Prop :=
  exists u, In u (match usedWords with Some l => l | None => [] end) /\
            toLowerCase u = toLowerCase w.

Definition unusedWords (usedWords : option (list string)) (pool : list string)
  : list string :=
  filter (fun w => negb (has (used_set usedWords) w)) pool.

Definition chosenDifficulty (typingHistory : list Attempt)
    (requestedDifficulty : option Tier) : Tier :=
  match requestedDifficulty with
  | Some d => d
  | None => calculateAdaptiveDifficulty typingHistory
  end.

(** The candidates narrowed to the words that contain a letter. *)
Definition narrowed (pool : list string) (letter : ascii) : list string :=
  filter (fun w => includes w letter) pool.

(** The pool of step 3 of the specification, with both of its fallbacks:
    the unused words of the tier, or else the unused words of the bank, or
    else the whole bank. *)
Definition step3Pool (usedWords : option (list string)) (difficulty : Tier)
  : list string :=
  match unusedWords usedWords (TYPING_WORDS difficulty) with
  | [] =>
      match unusedWords usedWords ALL_TYPING_WORDS with
      | [] => ALL_TYPING_WORDS
      | pool => pool
      end
  | pool => pool
  end.

(** A uniformly random pick from a pool, for the number [r] that
    [Math.random] draws: the unit interval is cut into as many equal parts
    as the pool has entries (a word listed twice has two), and the pick is
    the entry of the part that holds [r].  The product of [r] and the
    length is rounded to binary64, which moves the border between two parts
    by a relative distance of [2^-53] at most: [inPart] is the part without
    such a margin below its upper border, [nearPart] the part with the
    margin added below its lower border. *)
Definition inPart (r : number) (n k : nat) : Prop :=
  (inject_Z (Z.of_nat k) <= r * inject_Z (Z.of_nat n) /\
   r * inject_Z (Z.of_nat n) * (1 + Binary64.pow2 (-53)) < inject_Z (Z.of_nat k + 1))%Q.




(** The end of [chooseNextWordWithDifficulty]: the loop over the letters and
    the pick. *)
Definition selectFrom (r : number) (letters : list ascii) (pool : list string)
  : option string :=
  match firstSubset letters pool with
  | Some subset => pickRandom r subset
  | None => pickRandom r pool
  end.

(** Letters in descending order of a score. *)
Definition descending (key : ascii -> Z) (letters : list ascii) : Prop :=
  StronglySorted (fun a b => (key b <= key a)%Z) letters.

(** An incorrect attempt on cat typed bat, with every word of the bank used. *)
Definition history_cat_as_bat : list Attempt := [attemptOn "cat" "bat" false 2000 0].

(** The same percentage computed with the primitive binary64 numbers, to
    compare the rounding of [Binary64.fl] with. *)
Definition rational_of_float (f : float) : option Q :=
  match Prim2SF f with
  | S754_zero _ => Some 0%Q
  | S754_finite s m e =>
      Some ((if s then -1 else 1) * inject_Z (Zpos m) * Binary64.pow2 e)%Q
  | _ => None
  end.

Definition float_of_nat (n : nat) : float :=
  PrimFloat.of_uint63 (Uint63.of_Z (Z.of_nat n)).

Definition floatPercent (c t : nat) : float :=
  PrimFloat.mul (PrimFloat.div (float_of_nat c) (float_of_nat t)) (float_of_nat 100).

Definition samePercent (ct : nat * nat) : bool :=
  match rational_of_float (floatPercent (fst ct) (snd ct)) with
  | Some x => Qeq_bool x (mul (div (of_nat (fst ct)) (of_nat (snd ct))) 100)
  | None => false
  end.

(** The pairs [(c, t)] with [c <= t] and [1 <= t <= n]. *)
Definition countPairs (n : nat) : list (nat * nat) :=
  flat_map (fun t => map (fun c => (c, S t)) (seq 0 (S (S t)))) (seq 0 n).

(** ** Invariants of the analysis *)

(** An object has each of its properties once. *)
Definition unique_keys {V} (o : object V) : Prop := NoDup (map fst o).

(** What the loop over the attempts keeps true of its three objects: the
    counts are positive, and every letter [u] recorded as mistaken for [t]
    differs from [t] and was counted no more often than [t] was an error. *)
Definition counts_invariant (c : LetterCounts) : Prop :=
  unique_keys (letterErrorCounts c) /\
  unique_keys (letterOkCounts c) /\
  unique_keys (confusionMap c) /\
  positive_values (letterErrorCounts c) /\
  positive_values (letterOkCounts c) /\
  forall t inner, get (confusionMap c) t = Some inner ->
    unique_keys inner /\
    forall u v, get inner u = Some v ->
      u <> t /\ (0 < v <= get_or_0 (letterErrorCounts c) t)%Z.

(** The patterns of the result that are about one target letter. *)
Definition patternsAbout (target : ascii) (patterns : list ConfusionPattern)
  : list ConfusionPattern :=
  filter (fun p => Ascii.eqb (with_ p) target) patterns.

(** A string of ASCII characters. *)
Definition asciiText (s : string) : Prop :=
  Forall (fun c => (nat_of_ascii c < 128)%nat) (list_ascii_of_string s).

(** The typed word begins with the target word, up to case. *)
Definition extendsWord (item : Attempt) : Prop :=
  exists extra, toLowerCase (input item) = (toLowerCase (word item) ++ extra)%string.

(** * Properties

    ** Rounding to binary64 *)

Module Binary64Facts.

Import Binary64.
Local Open Scope Q_scope.

Lemma pow2_pos k : 0 < pow2 k.
Proof. unfold pow2. apply Qpower_0_lt. reflexivity. Qed.

Lemma pow2_add j k : pow2 (j + k) == pow2 j * pow2 k.
Proof. unfold pow2. apply Qpower_plus. discriminate. Qed.

Lemma pow2_succ k : pow2 (k + 1) == 2 * pow2 k.
Proof. rewrite pow2_add. unfold pow2 at 2. simpl. ring. Qed.

Lemma pow2_inject (n : Z) : (0 <= n)%Z -> inject_Z (2 ^ n) == pow2 n.
Proof. intros Hn. unfold pow2. now rewrite Zpower_Qpower. Qed.

Lemma rne_cases (s : Q) :
  (rne s = Qfloor s /\ s - inject_Z (Qfloor s) <= 1 # 2) \/
  (rne s = (Qfloor s + 1)%Z /\ 1 # 2 <= s - inject_Z (Qfloor s)).
Proof.
  unfold rne. set (q := Qfloor s).
  destruct (Qcompare (s - inject_Z q) (1 # 2)) eqn:E.
  - apply Qeq_alt in E. destruct (Z.even q); [left | right]; split; auto; lra.
  - apply Qlt_alt in E. left. split; auto. lra.
  - apply Qgt_alt in E. right. split; auto. lra.
Qed.

Lemma rne_error (s : Q) : - (1 # 2) <= inject_Z (rne s) - s <= 1 # 2.
Proof.
  pose proof (Qfloor_le s) as Hl. pose proof (Qlt_floor s) as Hu.
  rewrite inject_Z_plus in Hu. change (inject_Z 1) with 1 in Hu.
  destruct (rne_cases s) as [[-> H] | [-> H]].
  - lra.
  - rewrite inject_Z_plus. change (inject_Z 1) with 1. lra.
Qed.

Lemma rne_le_int (s : Q) (N : Z) : s <= inject_Z N -> (rne s <= N)%Z.
Proof.
  intros H. pose proof (Qfloor_le s) as Hl.
  assert (Hq : (Qfloor s <= N)%Z) by (rewrite Zle_Qle; lra).
  destruct (rne_cases s) as [[-> _] | [-> Hh]]; [assumption|].
  destruct (Z.eq_dec (Qfloor s) N) as [E | E]; [|lia].
  rewrite E in Hh. lra.
Qed.

Lemma rne_ge_int (s : Q) (N : Z) : inject_Z N <= s -> (N <= rne s)%Z.
Proof.
  intros H. pose proof (Qlt_floor s) as Hu.
  assert (Hq : (N < Qfloor s + 1)%Z) by (rewrite Zlt_Qlt; lra).
  destruct (rne_cases s) as [[-> _] | [-> _]]; lia.
Qed.

Lemma pow2_lt_inv j k : pow2 j < pow2 k -> (j < k)%Z.
Proof. intros H. apply (Qpower_lt_compat_l_inv 2); [exact H | reflexivity]. Qed.

Lemma log2_bracket (X P R A B D : Q) :
  0 < R -> 0 < D -> X * R == P -> D * B == A ->
  A <= P < 2 * A -> B <= R < 2 * B ->
  (D <= X -> X < 2 * D) /\ (X < D -> D <= 2 * X).
Proof.
  intros HR HD HX HA [Ha1 Ha2] [Hb1 Hb2]. split; intros E.
  - destruct (Qlt_le_dec X (2 * D)) as [|C]; [assumption|exfalso].
    assert (2 * D * R <= X * R) by (apply Qmult_le_compat_r; lra).
    assert (2 * D * B <= 2 * D * R) by (apply Qmult_le_l; lra).
    lra.
  - destruct (Qlt_le_dec (2 * X) D) as [C|]; [exfalso|assumption].
    assert (2 * X * R <= D * R) by (apply Qmult_le_compat_r; lra).
    assert (D * R < D * (2 * B)) by (apply Qmult_lt_l; lra).
    lra.
Qed.

Lemma floor_log2_spec (x : Q) :
  0 < x -> pow2 (floor_log2 x) <= x < pow2 (floor_log2 x + 1).
Proof.
  intros Hx. unfold floor_log2.
  destruct x as [p q]. simpl Qnum. simpl Qden.
  assert (Hp : (0 < p)%Z) by (unfold Qlt in Hx; simpl in Hx; lia).
  set (a := Z.log2 p). set (b := Z.log2 (Zpos q)).
  destruct (Z.log2_spec p Hp) as [Ha1 Ha2]. fold a in Ha1, Ha2.
  destruct (Z.log2_spec (Zpos q) eq_refl) as [Hb1 Hb2]. fold b in Hb1, Hb2.
  assert (Ha0 : (0 <= a)%Z) by apply Z.log2_nonneg.
  assert (Hb0 : (0 <= b)%Z) by apply Z.log2_nonneg.
  rewrite Zle_Qle, pow2_inject in Ha1, Hb1 by assumption.
  rewrite Zlt_Qlt, pow2_inject in Ha2, Hb2 by lia.
  unfold Z.succ in Ha2, Hb2. rewrite pow2_succ in Ha2, Hb2.
  assert (HD : pow2 (a - b) * pow2 b == pow2 a).
  { rewrite <- pow2_add. now replace (a - b + b)%Z with a by ring. }
  assert (Hxq : (p # q) * inject_Z (Zpos q) == inject_Z p).
  { rewrite (Qmake_Qdiv p q). field. discriminate. }
  destruct (log2_bracket (p # q) (inject_Z p) (inject_Z (Zpos q))
              (pow2 a) (pow2 b) (pow2 (a - b)))
    as [Hup Hdown]; auto using pow2_pos; try reflexivity.
  destruct (Qle_bool (pow2 (a - b)) (p # q)) eqn:E.
  - apply Qle_bool_iff in E. split; [exact E|].
    rewrite pow2_succ. auto.
  - assert (E' : p # q < pow2 (a - b)).
    { destruct (Qlt_le_dec (p # q) (pow2 (a - b))) as [|C]; [assumption|].
      apply Qle_bool_iff in C. congruence. }
    replace (a - b - 1 + 1)%Z with (a - b)%Z by ring. split; [|exact E'].
    specialize (Hdown E').
    assert (HD2 : pow2 (a - b) == 2 * pow2 (a - b - 1)).
    { rewrite <- pow2_succ. now replace (a - b - 1 + 1)%Z with (a - b)%Z by ring. }
    rewrite HD2 in Hdown. lra.
Qed.

(** The scaled value lies in the significand range [2^52, 2^53). *)
Lemma scaled_range (x : Q) :
  0 < x ->
  let s := x * pow2 (52 - floor_log2 x) in pow2 52 <= s < pow2 53.
Proof.
  intros Hx s. destruct (floor_log2_spec x Hx) as [H1 H2].
  rewrite pow2_succ in H2.
  assert (HE : pow2 (floor_log2 x) * pow2 (52 - floor_log2 x) == pow2 52).
  { rewrite <- pow2_add. now replace (floor_log2 x + (52 - floor_log2 x))%Z with 52%Z by ring. }
  pose proof (pow2_pos (52 - floor_log2 x)) as HK.
  change (pow2 53) with (2 * pow2 52). subst s.
  set (E := pow2 (floor_log2 x)) in *. set (K := pow2 (52 - floor_log2 x)) in *.
  clearbody E K.
  split.
  - rewrite <- HE. apply Qmult_le_compat_r; lra.
  - apply Qlt_le_trans with (2 * E * K); [apply Qmult_lt_compat_r; lra|].
    rewrite <- HE. lra.
Qed.

Lemma fl_pos_unscale (x : Q) (m : Q) :
  m * pow2 (floor_log2 x - 52) * pow2 (52 - floor_log2 x) == m.
Proof.
  rewrite <- Qmult_assoc, <- pow2_add.
  replace (floor_log2 x - 52 + (52 - floor_log2 x))%Z with 0%Z by ring.
  unfold pow2. simpl. ring.
Qed.

Lemma fl_pos_positive (x : Q) : 0 < x -> 0 < fl_pos x.
Proof.
  intros Hx. unfold fl_pos.
  destruct (scaled_range x Hx) as [H1 _].
  rewrite <- (pow2_inject 52) in H1 by lia.
  apply rne_ge_int in H1.
  apply Qmult_lt_0_compat; [|apply pow2_pos].
  change 0 with (inject_Z 0). rewrite <- Zlt_Qlt. lia.
Qed.

(** Rounding never crosses an integer below [2^53] from below. *)
Lemma fl_pos_le_int (x : Q) (N : Z) :
  0 < x -> x <= inject_Z N -> (N < 2 ^ 53)%Z -> fl_pos x <= inject_Z N.
Proof.
  intros Hx HN Hb. unfold fl_pos.
  destruct (floor_log2_spec x Hx) as [He _].
  set (e := floor_log2 x) in *.
  assert (He52 : (e < 53)%Z).
  { apply pow2_lt_inv. apply Qle_lt_trans with x; [assumption|].
    apply Qle_lt_trans with (inject_Z N); [assumption|].
    rewrite <- pow2_inject by lia. now rewrite <- Zlt_Qlt. }
  pose proof (pow2_pos (52 - e)) as HK. pose proof (pow2_pos (e - 52)) as HK'.
  assert (Hs : x * pow2 (52 - e) <= inject_Z (N * 2 ^ (52 - e))).
  { rewrite inject_Z_mult, pow2_inject by lia. apply Qmult_le_compat_r; lra. }
  apply rne_le_int in Hs. rewrite Zle_Qle, inject_Z_mult, pow2_inject in Hs by lia.
  apply Qmult_le_compat_r with (z := pow2 (e - 52)) in Hs; [|lra].
  assert (HKK : pow2 (52 - e) * pow2 (e - 52) == 1).
  { rewrite <- pow2_add. now replace (52 - e + (e - 52))%Z with 0%Z by ring. }
  rewrite <- Qmult_assoc, HKK, Qmult_1_r in Hs. exact Hs.
Qed.

(** The relative error of one rounding is at most [2^-53]. *)
Lemma fl_pos_error (x : Q) :
  0 < x -> - (x * pow2 (-53)) <= fl_pos x - x <= x * pow2 (-53).
Proof.
  intros Hx. unfold fl_pos.
  destruct (floor_log2_spec x Hx) as [He _].
  pose proof (rne_error (x * pow2 (52 - floor_log2 x))) as [E1 E2].
  pose proof (fl_pos_unscale x x) as Hu.
  set (e := floor_log2 x) in *.
  pose proof (pow2_pos (e - 52)) as HK'.
  assert (Hh : (1 # 2) * pow2 (e - 52) == pow2 e * pow2 (-53)).
  { replace (e - 52)%Z with (e + -53 + 1)%Z by ring.
    rewrite pow2_succ, pow2_add. ring. }
  pose proof (pow2_pos (-53)) as Hp53.
  assert (Hx53 : pow2 e * pow2 (-53) <= x * pow2 (-53))
    by (apply Qmult_le_compat_r; lra).
  set (m := inject_Z (rne (x * pow2 (52 - e)))) in *.
  assert (G1 : (m - x * pow2 (52 - e)) * pow2 (e - 52) <= (1 # 2) * pow2 (e - 52))
    by (apply Qmult_le_compat_r; lra).
  assert (G2 : - (1 # 2) * pow2 (e - 52) <= (m - x * pow2 (52 - e)) * pow2 (e - 52))
    by (apply Qmult_le_compat_r; lra).
  assert (Hd : (m - x * pow2 (52 - e)) * pow2 (e - 52) == m * pow2 (e - 52) - x).
  { rewrite <- Hu at 2. ring. }
  rewrite Hd in G1, G2. clear Hd Hu E1 E2.
  set (F := m * pow2 (e - 52)) in *. clearbody F.
  set (T := (1 # 2) * pow2 (e - 52)) in *.
  assert (G2' : - T <= F - x) by (subst T; lra).
  clearbody T. lra.
Qed.

(** A value at least one part in [2^53] below an integer rounds strictly below it. *)
Lemma fl_pos_lt_int (x : Q) (N : Z) :
  0 < x -> x <= inject_Z N * (1 - pow2 (-53)) -> (N < 2 ^ 53)%Z ->
  fl_pos x < inject_Z N.
Proof.
  intros Hx HN Hb. unfold fl_pos.
  destruct (floor_log2_spec x Hx) as [He _].
  destruct (scaled_range x Hx) as [Hs1 _].
  pose proof (rne_error (x * pow2 (52 - floor_log2 x))) as [_ E2].
  set (e := floor_log2 x) in *.
  pose proof (pow2_pos (-53)) as Hu.
  assert (Hu1 : pow2 (-53) < 1) by reflexivity.
  assert (HNpos : 0 < inject_Z N).
  { destruct (Qlt_le_dec 0 (inject_Z N)) as [|C]; [assumption|exfalso].
    assert (inject_Z N * (1 - pow2 (-53)) <= 0 * (1 - pow2 (-53)))
      by (apply Qmult_le_compat_r; lra).
    lra. }
  assert (HxN : x <= inject_Z N).
  { assert (0 <= inject_Z N * pow2 (-53)) by (apply Qmult_le_0_compat; lra). lra. }
  assert (He52 : (e < 53)%Z).
  { apply pow2_lt_inv. apply Qle_lt_trans with x; [assumption|].
    apply Qle_lt_trans with (inject_Z N); [assumption|].
    rewrite <- pow2_inject by lia. now rewrite <- Zlt_Qlt. }
  pose proof (pow2_pos (52 - e)) as HK. pose proof (pow2_pos (e - 52)) as HK'.
  assert (HKK : pow2 (52 - e) * pow2 (e - 52) == 1).
  { rewrite <- pow2_add. now replace (52 - e + (e - 52))%Z with 0%Z by ring. }
  assert (Hhalf : pow2 52 * pow2 (-53) == 1 # 2) by reflexivity.
  assert (HsN : x * pow2 (52 - e) <=
                inject_Z N * pow2 (52 - e) - inject_Z N * pow2 (52 - e) * pow2 (-53)).
  { apply Qmult_le_compat_r with (z := pow2 (52 - e)) in HN; [|lra].
    setoid_replace (inject_Z N * pow2 (52 - e) - inject_Z N * pow2 (52 - e) * pow2 (-53))
      with (inject_Z N * (1 - pow2 (-53)) * pow2 (52 - e)) by ring.
    exact HN. }
  assert (HNK : pow2 52 < inject_Z N * pow2 (52 - e)).
  { assert (0 < inject_Z N * pow2 (52 - e) * pow2 (-53)).
    { apply Qmult_lt_0_compat; [apply Qmult_lt_0_compat|]; lra. }
    lra. }
  assert (Hgap : 1 # 2 < inject_Z N * pow2 (52 - e) * pow2 (-53)).
  { rewrite <- Hhalf. apply Qmult_lt_compat_r; lra. }
  assert (Hm : inject_Z (rne (x * pow2 (52 - e))) < inject_Z (N * 2 ^ (52 - e))).
  { rewrite inject_Z_mult, pow2_inject by lia. lra. }
  rewrite <- Zlt_Qlt in Hm.
  assert (Hm' : (rne (x * pow2 (52 - e)) + 1 <= N * 2 ^ (52 - e))%Z) by lia.
  rewrite Zle_Qle, inject_Z_plus, inject_Z_mult, pow2_inject in Hm' by lia.
  change (inject_Z 1) with 1 in Hm'.
  apply Qmult_le_compat_r with (z := pow2 (e - 52)) in Hm'; [|lra].
  rewrite <- (Qmult_assoc (inject_Z N)), HKK, Qmult_1_r in Hm'.
  rewrite Qmult_plus_distr_l in Hm'. lra.
Qed.

Lemma fl_Qeq (x y : Q) : x == y -> fl x = fl y.
Proof. intros H. unfold fl. now rewrite (Qred_complete x y H). Qed.

Lemma fl_zero (x : Q) : x == 0 -> fl x = 0.
Proof. intros H. now rewrite (fl_Qeq x 0 H). Qed.

(** On a positive argument [fl] is [fl_pos] taken at the reduced fraction. *)
Lemma fl_positive_form (x : Q) :
  0 < x -> Qred x == x /\ 0 < Qred x /\ fl x == fl_pos (Qred x).
Proof.
  intros Hx. pose proof (Qred_correct x) as Hr.
  assert (Hy : 0 < Qred x) by now rewrite Hr.
  repeat split; auto.
  unfold fl. destruct (Qred x) as [n d] eqn:E. simpl Qnum.
  unfold Qlt in Hy. simpl in Hy.
  destruct n; try lia. apply Qred_correct.
Qed.

Lemma fl_nonneg (x : Q) : 0 <= x -> 0 <= fl x.
Proof.
  intros Hx. destruct (Qle_lt_or_eq _ _ Hx) as [H | H].
  - destruct (fl_positive_form x H) as (_ & Hy & ->).
    apply Qlt_le_weak. now apply fl_pos_positive.
  - rewrite (fl_zero x); [apply Qle_refl | now symmetry].
Qed.

Lemma fl_le_int (x : Q) (N : Z) :
  0 <= x -> x <= inject_Z N -> (N < 2 ^ 53)%Z -> fl x <= inject_Z N.
Proof.
  intros Hx HN Hb. destruct (Qle_lt_or_eq _ _ Hx) as [H | H].
  - destruct (fl_positive_form x H) as (Hr & Hy & ->).
    apply fl_pos_le_int; auto. now rewrite Hr.
  - rewrite (fl_zero x); [lra | now symmetry].
Qed.

Lemma fl_lt_int (x : Q) (N : Z) :
  0 <= x -> x <= inject_Z N * (1 - pow2 (-53)) -> (0 < N < 2 ^ 53)%Z ->
  fl x < inject_Z N.
Proof.
  intros Hx HN [Hn Hb]. destruct (Qle_lt_or_eq _ _ Hx) as [H | H].
  - destruct (fl_positive_form x H) as (Hr & Hy & ->).
    apply fl_pos_lt_int; auto. now rewrite Hr.
  - rewrite (fl_zero x); [|now symmetry].
    change 0 with (inject_Z 0). now rewrite <- Zlt_Qlt.
Qed.

Lemma fl_error (x : Q) :
  0 <= x -> - (x * pow2 (-53)) <= fl x - x <= x * pow2 (-53).
Proof.
  intros Hx. destruct (Qle_lt_or_eq _ _ Hx) as [H | H].
  - destruct (fl_positive_form x H) as (Hr & Hy & ->).
    pose proof (fl_pos_error (Qred x) Hy) as E.
    set (F := fl_pos (Qred x)) in *. clearbody F. rewrite Hr in E. exact E.
  - rewrite (fl_zero x); [|now symmetry]. rewrite <- H.
    split; apply Qle_lteq; right; ring.
Qed.

Lemma rne_mono (s s' : Q) : s <= s' -> (rne s <= rne s')%Z.
Proof.
  intros H. pose proof (Qfloor_resp_le s s' H) as Hf.
  destruct (Z.eq_dec (Qfloor s) (Qfloor s')) as [E | E].
  - unfold rne. rewrite <- E.
    destruct (Qcompare (s - inject_Z (Qfloor s)) (1 # 2)) eqn:C1;
      destruct (Qcompare (s' - inject_Z (Qfloor s)) (1 # 2)) eqn:C2;
      try (destruct (Z.even (Qfloor s))); try lia;
      repeat match goal with
             | C : Qcompare _ _ = Eq |- _ => apply Qeq_alt in C
             | C : Qcompare _ _ = Lt |- _ => apply Qlt_alt in C
             | C : Qcompare _ _ = Gt |- _ => apply Qgt_alt in C
             end;
      exfalso; lra.
  - destruct (rne_cases s) as [[-> _] | [-> _]];
      destruct (rne_cases s') as [[-> _] | [-> _]]; lia.
Qed.

Lemma rne_int (s : Q) (z : Z) : s == inject_Z z -> rne s = z.
Proof.
  intros H. apply Z.le_antisymm.
  - apply rne_le_int. rewrite H. apply Qle_refl.
  - apply rne_ge_int. rewrite H. apply Qle_refl.
Qed.

Lemma pow2_le j k : (j <= k)%Z -> pow2 j <= pow2 k.
Proof. intros H. apply Qpower_le_compat_l; [exact H | discriminate]. Qed.

Lemma floor_log2_mono (x y : Q) :
  0 < x -> x <= y -> (floor_log2 x <= floor_log2 y)%Z.
Proof.
  intros Hx Hxy.
  destruct (floor_log2_spec x Hx) as [H1 _].
  destruct (floor_log2_spec y) as [_ H2]; [lra|].
  assert (H : pow2 (floor_log2 x) < pow2 (floor_log2 y + 1)) by lra.
  apply pow2_lt_inv in H. lia.
Qed.

Lemma fl_pos_mono (x y : Q) : 0 < x -> x <= y -> fl_pos x <= fl_pos y.
Proof.
  intros Hx Hxy. assert (Hy : 0 < y) by lra.
  pose proof (floor_log2_mono x y Hx Hxy) as He.
  unfold fl_pos.
  destruct (scaled_range x Hx) as [_ Hsx].
  destruct (scaled_range y Hy) as [Hsy _].
  set (ex := floor_log2 x) in *. set (ey := floor_log2 y) in *.
  destruct (Z.eq_dec ex ey) as [E | E].
  - rewrite <- E. pose proof (pow2_pos (52 - ex)) as HK.
    pose proof (pow2_pos (ex - 52)) as HK'.
    apply Qmult_le_compat_r; [|lra].
    rewrite <- Zle_Qle. apply rne_mono. apply Qmult_le_compat_r; lra.
  - assert (Hmx : (rne (x * pow2 (52 - ex)) <= 2 ^ 53)%Z).
    { apply rne_le_int. rewrite pow2_inject by lia. lra. }
    assert (Hmy : (2 ^ 52 <= rne (y * pow2 (52 - ey)))%Z).
    { apply rne_ge_int. rewrite pow2_inject by lia. lra. }
    rewrite Zle_Qle, pow2_inject in Hmx, Hmy by lia.
    pose proof (pow2_pos (ex - 52)) as HKx. pose proof (pow2_pos (ey - 52)) as HKy.
    apply Qle_trans with (pow2 53 * pow2 (ex - 52));
      [apply Qmult_le_compat_r; lra|].
    apply Qle_trans with (pow2 52 * pow2 (ey - 52));
      [|apply Qmult_le_compat_r; lra].
    rewrite <- !pow2_add. apply pow2_le. lia.
Qed.

(** Rounding is monotone on the non-negative rationals. *)
Lemma fl_mono (x y : Q) : 0 <= x -> x <= y -> fl x <= fl y.
Proof.
  intros Hx Hxy. destruct (Qle_lt_or_eq _ _ Hx) as [H | H].
  - destruct (fl_positive_form x H) as (Hrx & Hpx & ->).
    destruct (fl_positive_form y) as (Hry & Hpy & ->); [lra|].
    apply fl_pos_mono; auto. now rewrite Hrx, Hry.
  - rewrite (fl_zero x); [|now symmetry]. apply fl_nonneg. lra.
Qed.

(** Integers below [2^53] are binary64 numbers. *)
Lemma fl_exact_int (z : Z) : (0 <= z < 2 ^ 53)%Z -> fl (inject_Z z) == inject_Z z.
Proof.
  intros [H0 H1].
  assert (Hz : 0 <= inject_Z z) by (change 0 with (inject_Z 0); now rewrite <- Zle_Qle).
  apply Qle_antisym.
  - apply fl_le_int; auto. apply Qle_refl.
  - destruct (Qle_lt_or_eq _ _ Hz) as [H | H].
    + destruct (fl_positive_form _ H) as (Hr & Hy & ->).
      set (y := Qred (inject_Z z)) in *.
      unfold fl_pos.
      destruct (floor_log2_spec y Hy) as [He _].
      set (e := floor_log2 y) in *.
      assert (He52 : (e < 53)%Z).
      { apply pow2_lt_inv. apply Qle_lt_trans with y; [assumption|].
        rewrite Hr. rewrite <- pow2_inject by lia. now rewrite <- Zlt_Qlt. }
      pose proof (pow2_pos (52 - e)) as HK. pose proof (pow2_pos (e - 52)) as HK'.
      assert (HKK : pow2 (52 - e) * pow2 (e - 52) == 1).
      { rewrite <- pow2_add. now replace (52 - e + (e - 52))%Z with 0%Z by ring. }
      assert (Hs : inject_Z (z * 2 ^ (52 - e)) <= y * pow2 (52 - e)).
      { rewrite inject_Z_mult, pow2_inject by lia. rewrite Hr. apply Qle_refl. }
      apply rne_ge_int in Hs.
      rewrite Zle_Qle, inject_Z_mult, pow2_inject in Hs by lia.
      apply Qmult_le_compat_r with (z := pow2 (e - 52)) in Hs; [|lra].
      rewrite <- Qmult_assoc, HKK, Qmult_1_r in Hs. exact Hs.
    + apply Qle_trans with 0; [|now apply fl_nonneg].
      rewrite <- H. apply Qle_refl.
Qed.

End Binary64Facts.

(** ** Numbers of the engine *)

Section NumberFacts.

Import Binary64 Binary64Facts.
Local Open Scope Q_scope.

Lemma inject_Z_minus (a b : Z) : inject_Z (a - b) == inject_Z a - inject_Z b.
Proof. unfold Z.sub. rewrite inject_Z_plus, inject_Z_opp. reflexivity. Qed.

Lemma fl_pos_lt (x : Q) : 0 < x -> 0 < fl x.
Proof.
  intros H. destruct (fl_positive_form x H) as (_ & Hy & ->).
  now apply fl_pos_positive.
Qed.

Lemma of_nat_nonneg (n : nat) : 0 <= of_nat n.
Proof.
  apply fl_nonneg. change 0 with (inject_Z 0). rewrite <- Zle_Qle. lia.
Qed.

Lemma of_nat_pos (n : nat) : (0 < n)%nat -> 0 < of_nat n.
Proof.
  intros H. apply fl_pos_lt. change 0 with (inject_Z 0). rewrite <- Zlt_Qlt. lia.
Qed.

Lemma of_nat_mono (m n : nat) : (m <= n)%nat -> of_nat m <= of_nat n.
Proof.
  intros H. apply fl_mono.
  - change 0 with (inject_Z 0). rewrite <- Zle_Qle. lia.
  - rewrite <- Zle_Qle. lia.
Qed.

Lemma of_nat_le (n : nat) :
  (Z.of_nat n < 2 ^ 53)%Z -> of_nat n <= inject_Z (Z.of_nat n).
Proof.
  intros H. apply fl_le_int; auto.
  - change 0 with (inject_Z 0). rewrite <- Zle_Qle. lia.
  - apply Qle_refl.
Qed.

Lemma of_nat_exact (n : nat) :
  (Z.of_nat n < 2 ^ 53)%Z -> of_nat n == inject_Z (Z.of_nat n).
Proof. intros H. apply fl_exact_int. lia. Qed.

Lemma Math_round_range (x : Q) (a b : Z) :
  inject_Z a <= x -> x <= inject_Z b -> (a <= Math_round x <= b)%Z.
Proof.
  intros Ha Hb. unfold Math_round.
  pose proof (Qfloor_le (x + (1 # 2))) as Hl.
  pose proof (Qlt_floor (x + (1 # 2))) as Hu.
  rewrite inject_Z_plus in Hu. change (inject_Z 1) with 1 in Hu.
  split.
  - assert (H : (a < Qfloor (x + (1 # 2)) + 1)%Z); [|lia].
    rewrite Zlt_Qlt, inject_Z_plus. change (inject_Z 1) with 1. lra.
  - assert (H : (Qfloor (x + (1 # 2)) < b + 1)%Z); [|lia].
    rewrite Zlt_Qlt, inject_Z_plus. change (inject_Z 1) with 1. lra.
Qed.

(** [Math.round] of a number strictly within one half of the integer [n]. *)
Lemma Math_round_near (x : Q) (n : Z) :
  inject_Z n - (1 # 2) <= x -> x < inject_Z n + (1 # 2) -> Math_round x = n.
Proof.
  intros Ha Hb. unfold Math_round.
  pose proof (Qfloor_le (x + (1 # 2))) as Hl.
  pose proof (Qlt_floor (x + (1 # 2))) as Hu.
  rewrite inject_Z_plus in Hu. change (inject_Z 1) with 1 in Hu.
  assert (H1 : (n < Qfloor (x + (1 # 2)) + 1)%Z).
  { rewrite Zlt_Qlt, inject_Z_plus. change (inject_Z 1) with 1. lra. }
  assert (H2 : (Qfloor (x + (1 # 2)) < n + 1)%Z).
  { rewrite Zlt_Qlt, inject_Z_plus. change (inject_Z 1) with 1. lra. }
  lia.
Qed.

(** A ratio of two counts, the first at most the second, stays in [0, 1]
    after rounding, and its percentage in [0, 100]. *)
Lemma ratio_range (c t : nat) :
  (c <= t)%nat -> (0 < t)%nat ->
  0 <= div (of_nat c) (of_nat t) <= 1.
Proof.
  intros Hc Ht. unfold div.
  pose proof (of_nat_nonneg c) as H0. pose proof (of_nat_pos t Ht) as H1.
  pose proof (of_nat_mono c t Hc) as H2.
  assert (Hq0 : 0 <= of_nat c / of_nat t).
  { apply Qle_shift_div_l; [assumption | lra]. }
  assert (Hq1 : of_nat c / of_nat t <= 1).
  { apply Qle_shift_div_r; [assumption | lra]. }
  split; [now apply fl_nonneg|].
  change 1 with (inject_Z 1). apply fl_le_int; auto. reflexivity.
Qed.

Lemma percent_range (c t : nat) :
  (c <= t)%nat -> (0 < t)%nat ->
  0 <= mul (div (of_nat c) (of_nat t)) 100 <= 100.
Proof.
  intros Hc Ht. destruct (ratio_range c t Hc Ht) as [H0 H1].
  unfold mul. set (d := div (of_nat c) (of_nat t)) in *. clearbody d.
  split; [apply fl_nonneg; lra|].
  change 100 with (inject_Z 100) at 2. apply fl_le_int; [lra | | reflexivity].
  change (inject_Z 100) with 100. lra.
Qed.


(** The two roundings of [(c / t) * 100] move it by less than [2^-45]. *)
Lemma percent_close (c t : nat) :
  (c <= t)%nat -> (0 < t)%nat -> (Z.of_nat t < 2 ^ 53)%Z ->
  let X := 100 * inject_Z (Z.of_nat c) / inject_Z (Z.of_nat t) in
  let v := mul (div (of_nat c) (of_nat t)) 100 in
  - pow2 (-45) <= v - X <= pow2 (-45).
Proof.
  intros Hc Ht Hb X v.
  assert (HT : 0 < inject_Z (Z.of_nat t)).
  { change 0 with (inject_Z 0). rewrite <- Zlt_Qlt. lia. }
  assert (HC : 0 <= inject_Z (Z.of_nat c)).
  { change 0 with (inject_Z 0). rewrite <- Zle_Qle. lia. }
  assert (HCT : inject_Z (Z.of_nat c) <= inject_Z (Z.of_nat t)).
  { rewrite <- Zle_Qle. lia. }
  set (x := inject_Z (Z.of_nat c) / inject_Z (Z.of_nat t)).
  assert (Hx0 : 0 <= x) by (apply Qle_shift_div_l; [assumption | lra]).
  assert (Hx1 : x <= 1) by (apply Qle_shift_div_r; [assumption | lra]).
  assert (Hd : div (of_nat c) (of_nat t) = fl x).
  { unfold div. apply fl_Qeq. unfold x.
    rewrite (of_nat_exact c), (of_nat_exact t) by lia. reflexivity. }
  assert (HX : X == 100 * x) by (unfold X, x; field; lra).
  pose proof (fl_error x Hx0) as [E1 E2].
  pose proof (fl_nonneg x Hx0) as Hd0.
  assert (E3 := fl_error (fl x * 100)).
  destruct E3 as [E3 E4]; [lra|].
  subst v. unfold mul. rewrite Hd.
  set (d := fl x) in *. set (w := fl (d * 100)) in *. clearbody w d.
  change (pow2 (-53)) with (1 # 9007199254740992) in *.
  change (pow2 (-45)) with (1 # 35184372088832).
  rewrite HX. clearbody x. lra.
Qed.

(** Between the exact percentage and the halves of the integers there is a
    gap of [1 / (2 t)], wider than the rounding error. *)
Lemma percent_round (c t : nat) :
  (c <= t)%nat -> (0 < t)%nat -> (Z.of_nat t < 2 ^ 32)%Z ->
  let acc := Math_round (mul (div (of_nat c) (of_nat t)) 100) in
  (roundedPercent c t - 1 <= acc <= roundedPercent c t)%Z /\
  (~ halfwayPercent c t -> acc = roundedPercent c t).
Proof.
  intros Hc Ht Hb acc.
  pose proof (percent_close c t Hc Ht) as Hclose.
  destruct Hclose as [D1 D2]; [lia|].
  unfold roundedPercent. destruct (Nat.ltb_spec 0 t) as [_ | ?]; [|lia].
  set (C := inject_Z (Z.of_nat c)) in *. set (T := inject_Z (Z.of_nat t)) in *.
  set (X := 100 * C / T) in *.
  set (n := Qfloor (X + (1 # 2))).
  pose proof (Qfloor_le (X + (1 # 2))) as Hl.
  pose proof (Qlt_floor (X + (1 # 2))) as Hu.
  fold n in Hl, Hu. rewrite inject_Z_plus in Hu. change (inject_Z 1) with 1 in Hu.
  subst acc. set (v := mul (div (of_nat c) (of_nat t)) 100) in *.
  change (pow2 (-45)) with (1 # 35184372088832) in D1, D2.
  assert (HT : 0 < T).
  { unfold T. change 0 with (inject_Z 0). rewrite <- Zlt_Qlt. lia. }
  assert (HT32 : T < 4294967296).
  { unfold T. change 4294967296 with (inject_Z (2 ^ 32)). now rewrite <- Zlt_Qlt. }
  assert (HXT : X * T == 100 * C) by (unfold X; field; lra).
  (* the two integer inequalities around the exact percentage *)
  assert (Hlo : ((2 * n - 1) * Z.of_nat t <= 200 * Z.of_nat c)%Z).
  { rewrite Zle_Qle. rewrite !inject_Z_mult, inject_Z_minus, inject_Z_mult. fold C T.
    change (inject_Z 2) with 2. change (inject_Z 1) with 1. change (inject_Z 200) with 200.
    assert ((inject_Z n - (1 # 2)) * T <= X * T) by (apply Qmult_le_compat_r; lra).
    lra. }
  assert (Hhi : (200 * Z.of_nat c + 1 <= (2 * n + 1) * Z.of_nat t)%Z).
  { assert (H : (200 * Z.of_nat c < (2 * n + 1) * Z.of_nat t)%Z); [|lia].
    rewrite Zlt_Qlt. rewrite !inject_Z_mult, inject_Z_plus, inject_Z_mult. fold C T.
    change (inject_Z 2) with 2. change (inject_Z 1) with 1. change (inject_Z 200) with 200.
    assert (X * T < (inject_Z n + (1 # 2)) * T) by (apply Qmult_lt_compat_r; lra).
    lra. }
  assert (Hhi' : 2 * X * T + 1 <= (2 * inject_Z n + 1) * T).
  { rewrite Zle_Qle in Hhi.
    rewrite inject_Z_plus, !inject_Z_mult, inject_Z_plus, inject_Z_mult in Hhi.
    fold C T in Hhi.
    change (inject_Z 2) with 2 in Hhi. change (inject_Z 1) with 1 in Hhi.
    change (inject_Z 200) with 200 in Hhi. lra. }
  (* the upper side never lets the result exceed [n] *)
  assert (Hupper : v < inject_Z n + (1 # 2)).
  { destruct (Qlt_le_dec v (inject_Z n + (1 # 2))) as [|Cx]; [assumption|exfalso].
    assert ((inject_Z n + (1 # 2) - (1 # 35184372088832)) * T <= X * T)
      by (apply Qmult_le_compat_r; lra).
    lra. }
  split.
  - assert (Hlower : inject_Z (n - 1) - (1 # 2) <= v).
    { rewrite inject_Z_minus. change (inject_Z 1) with 1. lra. }
    destruct (Qlt_le_dec v (inject_Z n - (1 # 2))) as [Cx | Cx].
    + rewrite (Math_round_near v (n - 1)); [lia | assumption |].
      rewrite inject_Z_minus. change (inject_Z 1) with 1. lra.
    + rewrite (Math_round_near v n); [lia | assumption | assumption].
  - intros Hnh.
    assert (Hlo1 : ((2 * n - 1) * Z.of_nat t + 1 <= 200 * Z.of_nat c)%Z).
    { assert (H : ((2 * n - 1) * Z.of_nat t <> 200 * Z.of_nat c)%Z); [|lia].
      intros E. apply Hnh. exists (n - 1)%Z. rewrite <- E. ring. }
    rewrite Zle_Qle in Hlo1.
    rewrite inject_Z_plus, !inject_Z_mult, inject_Z_minus, inject_Z_mult in Hlo1.
    fold C T in Hlo1.
    change (inject_Z 2) with 2 in Hlo1. change (inject_Z 1) with 1 in Hlo1.
    change (inject_Z 200) with 200 in Hlo1.
    apply Math_round_near; [|assumption].
    destruct (Qlt_le_dec v (inject_Z n - (1 # 2))) as [Cx|]; [exfalso|assumption].
    assert (X * T <= (inject_Z n - (1 # 2) + (1 # 35184372088832)) * T)
      by (apply Qmult_le_compat_r; lra).
    lra.
Qed.

End NumberFacts.

(** ** Overall accuracy *)

Section Accuracy.

Import Binary64 Binary64Facts.

Lemma correctWords_le (all : list Attempt) : (correctWords all <= List.length all)%nat.
Proof. unfold correctWords. apply filter_length_le. Qed.

Lemma accuracyPercent_range (all : list Attempt) : (0 <= accuracyPercent all <= 100)%Z.
Proof.
  unfold accuracyPercent. destruct (Nat.ltb_spec 0 (List.length all)) as [Ht | _]; [|lia].
  destruct (percent_range (correctWords all) (List.length all)) as [H0 H1];
    auto using correctWords_le.
  apply Math_round_range; assumption.
Qed.

(** The rounded product of the model is the one of the primitive binary64
    numbers, for all the lists of at most 64 attempts. *)
Lemma percent_agrees_with_primitive_floats :
  forallb samePercent (countPairs 64) = true.
Proof. vm_compute. reflexivity. Qed.

(** The primitive binary64 product [(23 / 40) * 100] is
    [8092405580431359 * 2^-47], below 57.5. *)
Lemma floatPercent_23_of_40 :
  Prim2SF (floatPercent 23 40) = S754_finite false 8092405580431359 (-47) /\
  (inject_Z 8092405580431359 * Binary64.pow2 (-47) < 115 # 2)%Q.
Proof. split; vm_compute; reflexivity. Qed.

(** C5 (as the code has it).  The overall accuracy is [Math.round] of the
    binary64 product [(correct / total) * 100].  It is 0 for the empty list
    and always an integer between 0 and 100.  For a list of fewer than
    [2^32] attempts it is the exactly rounded percentage
    [round(100 * correct / total)] whenever that percentage is not halfway
    between two integers, and that integer or the one below it when it is. *)
Theorem overallAccuracy_rounds_binary64_percentage (r : number) (all : list Attempt) :
  let acc := overallAccuracy (analyzeResultsLocally r all) in
  let c := correctWords all in
  let t := List.length all in
  (all = [] -> acc = 0%Z) /\
  (0 <= acc <= 100)%Z /\
  ((0 < t)%nat -> acc = Math_round (mul (div (of_nat c) (of_nat t)) 100)) /\
  ((Z.of_nat t < 2 ^ 32)%Z ->
   (roundedPercent c t - 1 <= acc <= roundedPercent c t)%Z /\
   (~ halfwayPercent c t -> acc = roundedPercent c t)).
Proof.
  intros acc c t. subst acc. cbn [overallAccuracy analyzeResultsLocally].
  repeat split.
  - intros ->. reflexivity.
  - apply accuracyPercent_range.
  - apply accuracyPercent_range.
  - intros Ht. unfold accuracyPercent. fold t.
    destruct (Nat.ltb_spec 0 t); [reflexivity | lia].
  - unfold accuracyPercent. fold t c.
    destruct (Nat.ltb_spec 0 t) as [Ht | Ht].
    + apply (percent_round c t); auto. apply correctWords_le.
    + unfold roundedPercent. destruct (Nat.ltb_spec 0 t); lia.
  - unfold accuracyPercent. fold t c.
    destruct (Nat.ltb_spec 0 t) as [Ht | Ht].
    + apply (percent_round c t); auto. apply correctWords_le.
    + unfold roundedPercent. destruct (Nat.ltb_spec 0 t); lia.
  - intros Hnh. unfold accuracyPercent. fold t c.
    destruct (Nat.ltb_spec 0 t) as [Ht | Ht].
    + apply (percent_round c t); auto. apply correctWords_le.
    + unfold roundedPercent. destruct (Nat.ltb_spec 0 t); [lia | reflexivity].
Qed.

(** The theorem at three correct attempts out of five: 60 percent. *)
Lemma overallAccuracy_three_of_five :
  overallAccuracy
    (analyzeResultsLocally 0
       (repeat (attemptOn "cat" "cat" true 2000 0) 3 ++
        repeat (attemptOn "cat" "bat" false 2000 0) 2)) = 60%Z.
Proof.
  destruct (overallAccuracy_rounds_binary64_percentage 0
              (repeat (attemptOn "cat" "cat" true 2000 0) 3 ++
               repeat (attemptOn "cat" "bat" false 2000 0) 2))
    as (_ & _ & _ & H).
  destruct H as [_ H]; [vm_compute; reflexivity|].
  rewrite H; [vm_compute; reflexivity|].
  intros [k Hk]. change (200 * 3 = (2 * k + 1) * 5)%Z in Hk. lia.
Defined.

(** C5 (as the specification has it) fails at 23 correct attempts out of
    40: the exact percentage is 57.5, which every rounding to the nearest
    integer takes to 58, but the binary64 quotient 23/40 lies below 0.575,
    its product with 100 is 57.49999999999999, and the code answers 57. *)
Lemma overallAccuracy_23_of_40 :
  overallAccuracy (analyzeResultsLocally 0 history_23_of_40) = 57%Z /\
  roundedPercent (correctWords history_23_of_40) (List.length history_23_of_40) = 58%Z /\
  overallAccuracy (analyzeResultsLocally 0 history_23_of_40) <>
  roundedPercent (correctWords history_23_of_40) (List.length history_23_of_40).
Proof. vm_compute. repeat split; discriminate. Qed.

End Accuracy.

(** ** Emotional state *)

Section Emotion.

Local Open Scope Q_scope.

Lemma ltb_iff (a b : number) : ltb a b = true <-> a < b.
Proof.
  unfold ltb. rewrite negb_true_iff. split.
  - intros H. destruct (Qlt_le_dec a b) as [|C]; [assumption|].
    apply Qle_bool_iff in C. congruence.
  - intros H. destruct (Qle_bool b a) eqn:E; [|reflexivity].
    apply Qle_bool_iff in E. exfalso. exact (Qlt_not_le _ _ H E).
Qed.

Lemma leb_iff (a b : number) : leb a b = true <-> a <= b.
Proof. apply Qle_bool_iff. Qed.

Lemma ltb_false_iff (a b : number) : ltb a b = false <-> ~ (a < b).
Proof. rewrite <- ltb_iff. destruct (ltb a b); split; congruence. Qed.





End Emotion.

(** ** Difficulty estimation *)

Section Difficulty.

Local Open Scope Q_scope.

Lemma slice_last_length {A} (n : nat) (l : list A) :
  List.length (slice_last n l) = Nat.min n (List.length l).
Proof. unfold slice_last. rewrite length_skipn. lia. Qed.

Lemma slice_last_suffix {A} (n : nat) (l : list A) :
  l = firstn (List.length l - n) l ++ slice_last n l.
Proof. unfold slice_last. symmetry. apply firstn_skipn. Qed.

(** On a window of at most five attempts the binary64 quotient compares
    with 0.8 and 0.5 as the exact fraction does. *)
Lemma small_ratio_thresholds (c n : nat) :
  (c <= n)%nat -> (1 <= n <= 5)%nat ->
  leb lit_0_8 (div (of_nat c) (of_nat n)) = (4 * n <=? 5 * c)%nat /\
  ltb (div (of_nat c) (of_nat n)) lit_0_5 = (2 * c <? n)%nat.
Proof.
  intros Hc Hn.
  assert (Hn' : n = 1%nat \/ n = 2%nat \/ n = 3%nat \/ n = 4%nat \/ n = 5%nat) by lia.
  assert (Hc' : c = 0%nat \/ c = 1%nat \/ c = 2%nat \/ c = 3%nat \/ c = 4%nat \/ c = 5%nat)
    by lia.
  destruct Hn' as [-> | [-> | [-> | [-> | ->]]]];
    destruct Hc' as [-> | [-> | [-> | [-> | [-> | ->]]]]];
    try lia; vm_compute; split; reflexivity.
Qed.

Lemma hardCondition_iff (w : list Attempt) :
  hardCondition w <->
  leb lit_0_8 (windowAccuracy w) && ltb (windowAvgTime w) 5000 &&
  ltb (windowAvgHesitations w) 2 = true.
Proof.
  unfold hardCondition. rewrite !andb_true_iff, leb_iff, !ltb_iff.
  split.
  - intros (A & B & C). split; [split|]; assumption.
  - intros [[A B] C]. split; [|split]; assumption.
Qed.

Lemma easyCondition_iff (w : list Attempt) :
  easyCondition w <->
  ltb (windowAccuracy w) lit_0_5 || ltb 3 (windowAvgHesitations w) ||
  ltb 8000 (windowAvgTime w) = true.
Proof.
  unfold easyCondition. rewrite !orb_true_iff, !ltb_iff.
  split.
  - intros [A | [B | C]]; [left; left | left; right | right]; assumption.
  - intros [[A | B] | C]; [left | right; left | right; right]; assumption.
Qed.

Lemma calculateAdaptiveDifficulty_long (h : list Attempt) :
  (3 <= List.length h)%nat ->
  calculateAdaptiveDifficulty h =
  let w := slice_last 5 h in
  if leb lit_0_8 (windowAccuracy w) && ltb (windowAvgTime w) 5000 &&
     ltb (windowAvgHesitations w) 2 then hard
  else if ltb (windowAccuracy w) lit_0_5 || ltb 3 (windowAvgHesitations w) ||
          ltb 8000 (windowAvgTime w) then easy
  else medium.
Proof.
  intros H. unfold calculateAdaptiveDifficulty.
  destruct (Nat.ltb_spec (List.length h) 3); [lia | reflexivity].
Qed.

Lemma difficulty_by_conditions (h : list Attempt) :
  (3 <= List.length h)%nat ->
  let w := slice_last 5 h in
  (calculateAdaptiveDifficulty h = hard <-> hardCondition w) /\
  (~ hardCondition w -> easyCondition w -> calculateAdaptiveDifficulty h = easy) /\
  (~ hardCondition w -> ~ easyCondition w -> calculateAdaptiveDifficulty h = medium).
Proof.
  intros H w. rewrite (calculateAdaptiveDifficulty_long _ H). fold w. cbv zeta.
  rewrite (hardCondition_iff w), (easyCondition_iff w).
  repeat split.
  - destruct (_ && _ && _); [reflexivity|].
    destruct (_ || _ || _); discriminate.
  - intros ->. reflexivity.
  - intros H1 H2. destruct (_ && _ && _); [congruence|]. now rewrite H2.
  - intros H1 H2. destruct (_ && _ && _); [congruence|].
    destruct (_ || _ || _); congruence.
Qed.

(** *** The averages of a window in whole numbers *)

Import Binary64 Binary64Facts.

Lemma add_exact (a b : number) (x y : Z) :
  a == inject_Z x -> b == inject_Z y -> (0 <= x + y < 2 ^ 53)%Z ->
  add a b == inject_Z (x + y).
Proof.
  intros Ha Hb H. unfold add.
  rewrite (fl_Qeq (a + b) (inject_Z (x + y))).
  - apply fl_exact_int. exact H.
  - rewrite Ha, Hb, inject_Z_plus. reflexivity.
Qed.

Lemma total_bounds (g : Attempt -> Z) (B : Z) (w : list Attempt) :
  (forall a, In a w -> (0 <= g a <= B)%Z) ->
  (0 <= fold_right Z.add 0%Z (map g w) <= B * Z.of_nat (List.length w))%Z.
Proof.
  induction w as [|a w IH]; intros H; [simpl; lia|].
  specialize (IH (fun b Hb => H b (or_intror Hb))).
  pose proof (H a (or_introl eq_refl)) as Ha.
  cbn [map fold_right List.length]. rewrite Nat2Z.inj_succ. lia.
Qed.

(** A sum of whole numbers computed by [reduce] is exact as long as it stays
    below [2^53]. *)
Lemma sum_by_exact (f : Attempt -> number) (g : Attempt -> Z) (w : list Attempt) :
  (forall a, In a w -> f a == inject_Z (g a) /\ (0 <= g a)%Z) ->
  forall (acc : number) (A : Z),
    acc == inject_Z A -> (0 <= A)%Z ->
    (A + fold_right Z.add 0%Z (map g w) < 2 ^ 53)%Z ->
    fold_left (fun sum r => add sum (f r)) w acc ==
    inject_Z (A + fold_right Z.add 0%Z (map g w)).
Proof.
  induction w as [|a w IH]; intros H acc A Hacc HA Hb.
  - simpl. now rewrite Z.add_0_r.
  - destruct (H a (or_introl eq_refl)) as [Hf Hg].
    assert (Hnn : (0 <= fold_right Z.add 0%Z (map g w))%Z).
    { apply (total_bounds g (fold_right Z.max 0%Z (map g w)) w).
      intros b Hin. split; [apply (H b (or_intror Hin))|].
      clear - Hin. induction w as [|c w IHw]; [contradiction|].
      simpl. destruct Hin as [-> | Hin]; [lia|]. specialize (IHw Hin). lia. }
    cbn [map fold_right] in Hb |- *. cbn [fold_left].
    rewrite (IH (fun b Hin => H b (or_intror Hin)) (add acc (f a)) (A + g a)%Z).
    + now rewrite Z.add_assoc.
    + apply add_exact; [exact Hacc | exact Hf | lia].
    + lia.
    + lia.
Qed.

Lemma of_Z_exact (z : Z) : (0 <= z < 2 ^ 53)%Z -> of_Z z == inject_Z z.
Proof. intros H. unfold of_Z. now apply fl_exact_int. Qed.

Lemma timeSpent_or_exact (a : Attempt) :
  (0 <= recordedTime a < 2 ^ 53)%Z ->
  timeSpent_or 5000 a ==
  inject_Z (recordedTime a + (if lacksTime a then 5000 else 0)).
Proof.
  unfold timeSpent_or, recordedTime, lacksTime. intros H.
  destruct (timeSpent a) as [z|].
  - destruct (Z.eqb_spec z 0) as [-> | Hz].
    + apply of_Z_exact. lia.
    + rewrite Z.add_0_r. now apply of_Z_exact.
  - apply of_Z_exact. lia.
Qed.

Lemma hesitations_or_0_exact (a : Attempt) :
  (0 <= recordedHesitations a < 2 ^ 53)%Z ->
  hesitations_or_0 a == inject_Z (recordedHesitations a).
Proof.
  unfold hesitations_or_0, recordedHesitations. intros H.
  destruct (hesitations a) as [z|]; apply of_Z_exact; lia.
Qed.

Lemma countedTime_sum (w : list Attempt) :
  fold_right Z.add 0%Z
    (map (fun a => recordedTime a + (if lacksTime a then 5000 else 0))%Z w) =
  countedTime w.
Proof.
  unfold countedTime, timeTotal, timelessCount.
  induction w as [|a w IH]; [reflexivity|].
  cbn [map fold_right filter]. rewrite IH.
  destruct (lacksTime a); cbn [List.length]; rewrite ?Nat2Z.inj_succ; lia.
Qed.

Lemma windowAvgTime_exact (w : list Attempt) :
  (forall a, In a w -> plausible a) -> (List.length w <= 5)%nat ->
  windowAvgTime w = fl (inject_Z (countedTime w) / inject_Z (windowSize w)).
Proof.
  intros Hp Hn. unfold windowAvgTime, div, windowSize. apply fl_Qeq.
  assert (Hb : (0 <= fold_right Z.add 0%Z
                       (map (fun a => recordedTime a + (if lacksTime a then 5000 else 0)) w)
                  <= (2 ^ 40 + 5000) * Z.of_nat (List.length w))%Z).
  { apply total_bounds. intros a Ha. destruct (Hp a Ha) as [Ht _].
    destruct (lacksTime a); lia. }
  assert (Hs : sum_by (timeSpent_or 5000) w == inject_Z (countedTime w)).
  { rewrite <- countedTime_sum. unfold sum_by.
    rewrite (sum_by_exact (timeSpent_or 5000)
               (fun a => recordedTime a + (if lacksTime a then 5000 else 0))%Z w)
      with (A := 0%Z).
    - reflexivity.
    - intros a Ha. destruct (Hp a Ha) as [Ht _]. split.
      + apply timeSpent_or_exact. lia.
      + destruct (lacksTime a); lia.
    - reflexivity.
    - lia.
    - lia. }
  rewrite Hs, (of_nat_exact (List.length w)) by lia. reflexivity.
Qed.

Lemma windowAvgHesitations_exact (w : list Attempt) :
  (forall a, In a w -> plausible a) -> (List.length w <= 5)%nat ->
  windowAvgHesitations w =
  fl (inject_Z (hesitationTotal w) / inject_Z (windowSize w)).
Proof.
  intros Hp Hn. unfold windowAvgHesitations, div, windowSize, hesitationTotal.
  apply fl_Qeq.
  assert (Hb : (0 <= fold_right Z.add 0%Z (map recordedHesitations w)
                  <= 2 ^ 40 * Z.of_nat (List.length w))%Z).
  { apply total_bounds. intros a Ha. exact (proj2 (Hp a Ha)). }
  assert (Hs : sum_by hesitations_or_0 w ==
               inject_Z (fold_right Z.add 0%Z (map recordedHesitations w))).
  { unfold sum_by.
    rewrite (sum_by_exact hesitations_or_0 recordedHesitations w) with (A := 0%Z).
    - reflexivity.
    - intros a Ha. destruct (Hp a Ha) as [_ Hh]. split; [|lia].
      apply hesitations_or_0_exact. lia.
    - reflexivity.
    - lia.
    - lia. }
  rewrite Hs, (of_nat_exact (List.length w)) by lia. reflexivity.
Qed.

(** An average of at most five whole numbers is below a whole bound exactly
    when the sum is below the bound times their number, and above it
    exactly when the sum is above: rounding the quotient to binary64 does
    not cross a whole number. *)
Lemma average_below (T n K : Z) :
  (0 <= T)%Z -> (1 <= n <= 5)%Z -> (0 < K <= 2 ^ 40)%Z ->
  ltb (fl (inject_Z T / inject_Z n)) (inject_Z K) = (T <? K * n)%Z.
Proof.
  intros HT Hn HK.
  assert (Hu : pow2 (-53) == 1 # 9007199254740992) by reflexivity.
  assert (Ht : 0 <= inject_Z T) by (change 0 with (inject_Z 0); rewrite <- Zle_Qle; lia).
  assert (Hn0 : 0 < inject_Z n) by (change 0 with (inject_Z 0); rewrite <- Zlt_Qlt; lia).
  assert (HP : inject_Z (K * n) == inject_Z K * inject_Z n)
    by (rewrite inject_Z_mult; reflexivity).
  assert (HPb : inject_Z (K * n) <= inject_Z (5 * 2 ^ 40)) by (rewrite <- Zle_Qle; nia).
  assert (Hq0 : 0 <= inject_Z T / inject_Z n).
  { apply Qle_shift_div_l; [exact Hn0|]. lra. }
  destruct (Z.ltb_spec T (K * n)) as [Hlt | Hge].
  - apply ltb_iff. apply fl_lt_int; [exact Hq0 | | lia].
    apply Qle_shift_div_r; [exact Hn0|].
    assert (H1 : inject_Z T <= inject_Z (K * n) - 1).
    { change 1 with (inject_Z 1). rewrite <- inject_Z_minus, <- Zle_Qle. lia. }
    setoid_replace (inject_Z K * (1 - pow2 (-53)) * inject_Z n)
      with (inject_Z (K * n) * (1 - pow2 (-53))) by (rewrite HP; ring).
    set (P := inject_Z (K * n)) in *. set (t := inject_Z T) in *.
    set (u := pow2 (-53)) in *. clearbody P t u.
    change (inject_Z (5 * 2 ^ 40)) with 5497558138880 in HPb. nra.
  - apply ltb_false_iff. intros Hlt.
    assert (H1 : inject_Z K <= inject_Z T / inject_Z n).
    { apply Qle_shift_div_l; [exact Hn0|]. rewrite <- HP, <- Zle_Qle. lia. }
    assert (HK0 : 0 <= inject_Z K)
      by (change 0 with (inject_Z 0); rewrite <- Zle_Qle; lia).
    pose proof (fl_mono _ _ HK0 H1) as Hm.
    rewrite (fl_exact_int K) in Hm by lia.
    exact (Qlt_not_le _ _ Hlt Hm).
Qed.

Lemma average_above (T n K : Z) :
  (0 <= T)%Z -> (1 <= n <= 5)%Z -> (0 < K <= 2 ^ 40)%Z ->
  ltb (inject_Z K) (fl (inject_Z T / inject_Z n)) = (K * n <? T)%Z.
Proof.
  intros HT Hn HK.
  assert (Hu : pow2 (-53) == 1 # 9007199254740992) by reflexivity.
  assert (Ht : 0 <= inject_Z T) by (change 0 with (inject_Z 0); rewrite <- Zle_Qle; lia).
  assert (Hn0 : 0 < inject_Z n) by (change 0 with (inject_Z 0); rewrite <- Zlt_Qlt; lia).
  assert (Hn5 : inject_Z n <= 5) by (change 5 with (inject_Z 5); rewrite <- Zle_Qle; lia).
  assert (HP : inject_Z (K * n) == inject_Z K * inject_Z n)
    by (rewrite inject_Z_mult; reflexivity).
  assert (HK0 : 0 <= inject_Z K)
    by (change 0 with (inject_Z 0); rewrite <- Zle_Qle; lia).
  assert (HKb : inject_Z K <= 1099511627776)
    by (change 1099511627776 with (inject_Z (2 ^ 40)); rewrite <- Zle_Qle; lia).
  assert (Hq0 : 0 <= inject_Z T / inject_Z n).
  { apply Qle_shift_div_l; [exact Hn0|]. lra. }
  destruct (Z.ltb_spec (K * n) T) as [Hlt | Hge].
  - apply ltb_iff.
    assert (H1 : inject_Z (K * n) + 1 <= inject_Z T).
    { change 1 with (inject_Z 1). rewrite <- inject_Z_plus, <- Zle_Qle. lia. }
    assert (H2 : inject_Z K + (1 # 5) <= inject_Z T / inject_Z n).
    { apply Qle_shift_div_l; [exact Hn0|].
      setoid_replace ((inject_Z K + (1 # 5)) * inject_Z n)
        with (inject_Z (K * n) + (1 # 5) * inject_Z n) by (rewrite HP; ring).
      lra. }
    assert (Hy0 : 0 <= inject_Z K + (1 # 5)) by lra.
    pose proof (fl_mono _ _ Hy0 H2) as Hm.
    pose proof (fl_error _ Hy0) as [He _].
    set (k := inject_Z K) in *. set (u := pow2 (-53)) in *.
    set (fy := fl (k + (1 # 5))) in *. set (fx := fl (inject_Z T / inject_Z n)) in *.
    clearbody k u fy fx. nra.
  - apply ltb_false_iff. intros Hlt.
    assert (H1 : inject_Z T / inject_Z n <= inject_Z K).
    { apply Qle_shift_div_r; [exact Hn0|]. rewrite <- HP, <- Zle_Qle. lia. }
    pose proof (fl_le_int _ K Hq0 H1) as Hm.
    assert (Hb : (K < 2 ^ 53)%Z) by lia.
    exact (Qlt_not_le _ _ Hlt (Hm Hb)).
Qed.

(** A window in which no attempt has a time. *)
Lemma sum_by_constant (f : Attempt -> number) (v : number) (w : list Attempt) :
  (forall a, In a w -> f a = v) ->
  sum_by f w = fold_left (fun sum _ => add sum v) w 0.
Proof.
  unfold sum_by. generalize 0. induction w as [|a w IH]; intros acc H; [reflexivity|].
  simpl. rewrite (H a) by now left. apply IH. intros b Hb. apply H. now right.
Qed.

Lemma timeSpent_or_missing (dflt : Z) (a : Attempt) :
  timeSpent a = None \/ timeSpent a = Some 0%Z -> timeSpent_or dflt a = of_Z dflt.
Proof. unfold timeSpent_or. intros [-> | ->]; reflexivity. Qed.

Lemma window_tests (w : list Attempt) :
  (forall a, In a w -> plausible a) -> (1 <= List.length w <= 5)%nat ->
  leb lit_0_8 (windowAccuracy w) = (4 * windowSize w <=? 5 * correctCount w)%Z /\
  ltb (windowAccuracy w) lit_0_5 = (2 * correctCount w <? windowSize w)%Z /\
  ltb (windowAvgTime w) 5000 = (countedTime w <? 5000 * windowSize w)%Z /\
  ltb 8000 (windowAvgTime w) = (8000 * windowSize w <? countedTime w)%Z /\
  ltb (windowAvgHesitations w) 2 = (hesitationTotal w <? 2 * windowSize w)%Z /\
  ltb 3 (windowAvgHesitations w) = (3 * windowSize w <? hesitationTotal w)%Z.
Proof.
  intros Hp Hn.
  destruct (small_ratio_thresholds (List.length (filter correct w)) (List.length w))
    as [T1 T2]; [apply filter_length_le | exact Hn |].
  fold (windowAccuracy w) in T1, T2.
  assert (HT : (0 <= countedTime w)%Z).
  { rewrite <- countedTime_sum. apply (total_bounds _ (2 ^ 40 + 5000) w).
    intros a Ha. destruct (Hp a Ha) as [Ht _]. destruct (lacksTime a); lia. }
  assert (HH : (0 <= hesitationTotal w)%Z).
  { apply (total_bounds recordedHesitations (2 ^ 40) w).
    intros a Ha. exact (proj2 (Hp a Ha)). }
  assert (Hs : (1 <= windowSize w <= 5)%Z) by (unfold windowSize; lia).
  rewrite (windowAvgTime_exact w Hp) by lia.
  rewrite (windowAvgHesitations_exact w Hp) by lia.
  split; [|split; [|split; [|split; [|split]]]].
  - rewrite T1. unfold windowSize, correctCount.
    destruct (Nat.leb_spec (4 * List.length w) (5 * List.length (filter correct w)));
      destruct (Z.leb_spec (4 * Z.of_nat (List.length w))
                  (5 * Z.of_nat (List.length (filter correct w)))); (reflexivity || lia).
  - rewrite T2. unfold windowSize, correctCount.
    destruct (Nat.ltb_spec (2 * List.length (filter correct w)) (List.length w));
      destruct (Z.ltb_spec (2 * Z.of_nat (List.length (filter correct w)))
                  (Z.of_nat (List.length w))); (reflexivity || lia).
  - exact (average_below (countedTime w) (windowSize w) 5000 HT Hs ltac:(lia)).
  - exact (average_above (countedTime w) (windowSize w) 8000 HT Hs ltac:(lia)).
  - exact (average_below (hesitationTotal w) (windowSize w) 2 HH Hs ltac:(lia)).
  - exact (average_above (hesitationTotal w) (windowSize w) 3 HH Hs ltac:(lia)).
Qed.

Lemma difficulty_by_totals (h : list Attempt) :
  (3 <= List.length h)%nat ->
  let w := slice_last 5 h in
  (forall a, In a w -> plausible a) ->
  (calculateAdaptiveDifficulty h = hard <-> hardTier w) /\
  (calculateAdaptiveDifficulty h = easy <-> ~ hardTier w /\ easyTier w) /\
  (calculateAdaptiveDifficulty h = medium <-> ~ hardTier w /\ ~ easyTier w).
Proof.
  intros H w Hp. rewrite (calculateAdaptiveDifficulty_long _ H). fold w. cbv zeta.
  assert (Hn : (1 <= List.length w <= 5)%nat).
  { unfold w. rewrite slice_last_length. lia. }
  destruct (window_tests w Hp Hn) as (-> & -> & -> & -> & -> & ->).
  unfold hardTier, easyTier.
  destruct (Z.leb_spec (4 * windowSize w) (5 * correctCount w));
    destruct (Z.ltb_spec (countedTime w) (5000 * windowSize w));
    destruct (Z.ltb_spec (hesitationTotal w) (2 * windowSize w));
    destruct (Z.ltb_spec (2 * correctCount w) (windowSize w));
    destruct (Z.ltb_spec (3 * windowSize w) (hesitationTotal w));
    destruct (Z.ltb_spec (8000 * windowSize w) (countedTime w));
    cbn [andb orb];
    (split; [|split]);
    (split; [intros Hd; first [discriminate Hd | lia] | intros Hd; first [reflexivity | exfalso; lia]]).
Qed.

Lemma conditions_by_totals (w : list Attempt) :
  (forall a, In a w -> plausible a) -> (1 <= List.length w <= 5)%nat ->
  (hardCondition w <-> hardTier w) /\ (easyCondition w <-> easyTier w).
Proof.
  intros Hp Hn. rewrite hardCondition_iff, easyCondition_iff.
  destruct (window_tests w Hp Hn) as (-> & -> & -> & -> & -> & ->).
  unfold hardTier, easyTier.
  rewrite !andb_true_iff, !orb_true_iff, Z.leb_le, !Z.ltb_lt. tauto.
Qed.

(** C2 (as the code has it).  Fewer than three attempts give [medium].
    Otherwise the window is the last [min 5 length] attempts, and the
    result is [hard] exactly when the accuracy is at least 0.8, the average
    time below 5000 and the average hesitations below 2; [easy] exactly
    when that fails and the accuracy is below 0.5 or the average
    hesitations above 3 or the average time above 8000; [medium] exactly
    otherwise.  The averages are those of the window with one difference
    from the plain ones: an attempt without a time (none, or zero) counts
    as 5000 in the average time.  For times and hesitations that are whole
    numbers up to [2^40] the conditions on the binary64 averages are the
    conditions on the sums of the window. *)
Theorem calculateAdaptiveDifficulty_tiers (typingHistory : list Attempt) :
  let last5 := slice_last 5 typingHistory in
  let n := List.length typingHistory in
  ((n < 3)%nat -> calculateAdaptiveDifficulty typingHistory = medium) /\
  ((3 <= n)%nat ->
   List.length last5 = Nat.min 5 n /\
   typingHistory = firstn (n - 5) typingHistory ++ last5 /\
   (calculateAdaptiveDifficulty typingHistory = hard <-> hardCondition last5) /\
   (~ hardCondition last5 -> easyCondition last5 ->
    calculateAdaptiveDifficulty typingHistory = easy) /\
   (~ hardCondition last5 -> ~ easyCondition last5 ->
    calculateAdaptiveDifficulty typingHistory = medium) /\
   ((forall a, In a last5 -> plausible a) ->
    (hardCondition last5 <-> hardTier last5) /\
    (easyCondition last5 <-> easyTier last5) /\
    (calculateAdaptiveDifficulty typingHistory = hard <-> hardTier last5) /\
    (calculateAdaptiveDifficulty typingHistory = easy <->
     ~ hardTier last5 /\ easyTier last5) /\
    (calculateAdaptiveDifficulty typingHistory = medium <->
     ~ hardTier last5 /\ ~ easyTier last5))).
Proof.
  intros last5 n. split.
  - intros H. unfold calculateAdaptiveDifficulty. fold n.
    destruct (Nat.ltb_spec n 3); [reflexivity | lia].
  - intros H.
    assert (Hlen : List.length last5 = Nat.min 5 n) by apply slice_last_length.
    destruct (difficulty_by_conditions typingHistory H) as (Thard & Teasy & Tmed).
    fold last5 in Thard, Teasy, Tmed.
    split; [exact Hlen|]. split; [apply slice_last_suffix|].
    split; [exact Thard|]. split; [exact Teasy|]. split; [exact Tmed|].
    intros Hp.
    destruct (conditions_by_totals last5 Hp) as [Ch Ce]; [lia|].
    split; [exact Ch|]. split; [exact Ce|].
    exact (difficulty_by_totals typingHistory H Hp).
Qed.

Lemma calculateAdaptiveDifficulty_five_fast_correct :
  calculateAdaptiveDifficulty (repeat (attemptOn "cat" "cat" true 2000 0) 5) = hard.
Proof.
  destruct (calculateAdaptiveDifficulty_tiers (repeat (attemptOn "cat" "cat" true 2000 0) 5))
    as [_ H].
  destruct H as (_ & _ & _ & _ & _ & H); [simpl; lia|].
  destruct H as (_ & _ & Hhard & _).
  - intros a Ha. apply repeat_spec in Ha. subst a.
    unfold plausible. vm_compute. repeat split; discriminate.
  - apply Hhard. unfold hardTier. vm_compute. repeat split; congruence.
Defined.

(** C2 (as the specification has it) takes the plain average of the times.
    Three correct attempts without hesitation and with a time of zero have
    accuracy 1 and plain averages 0 and 0, which is [hard] as the claim is
    worded; the estimator counts each of the times as 5000 and returns
    [medium]. *)
Lemma calculateAdaptiveDifficulty_zero_times :
  hardAsWorded (slice_last 5 history_zero_times) /\
  calculateAdaptiveDifficulty history_zero_times = medium /\
  calculateAdaptiveDifficulty history_zero_times <> hard.
Proof.
  split; [|split].
  - unfold hardAsWorded. vm_compute. repeat split; congruence.
  - vm_compute. reflexivity.
  - vm_compute. discriminate.
Qed.

(** C10.  An attempt without a time (none, or zero) contributes 5000 to
    the average time of the window, not 0: for every window, the average is
    the binary64 quotient of the plain sum of the times plus 5000 for each
    such attempt, by the number of attempts, and [hard] requires that sum to
    be below 5000 times the number of attempts.  When no attempt of the
    window has a time, the average time is exactly 5000: the result is never
    [hard], and the condition on the time (above 8000) never makes it
    [easy]. *)
Theorem missing_timeSpent_counts_as_5000 (typingHistory : list Attempt) :
  let last5 := slice_last 5 typingHistory in
  (3 <= List.length typingHistory)%nat ->
  ((forall a, In a last5 -> plausible a) ->
   windowAvgTime last5 ==
     Binary64.fl (inject_Z (timeTotal last5 + 5000 * timelessCount last5) /
                  inject_Z (windowSize last5)) /\
   (calculateAdaptiveDifficulty typingHistory = hard ->
    (timeTotal last5 + 5000 * timelessCount last5 < 5000 * windowSize last5)%Z) /\
   ((8000 * windowSize last5 < timeTotal last5 + 5000 * timelessCount last5)%Z ->
    calculateAdaptiveDifficulty typingHistory = easy)) /\
  ((forall a, In a last5 -> lacksTime a = true) ->
   windowAvgTime last5 == 5000 /\
   calculateAdaptiveDifficulty typingHistory <> hard /\
   ~ (8000 < windowAvgTime last5) /\
   (calculateAdaptiveDifficulty typingHistory = easy ->
    windowAccuracy last5 < lit_0_5 \/ 3 < windowAvgHesitations last5)).
Proof.
  intros last5 Hn.
  assert (Hlen : List.length last5 = Nat.min 5 (List.length typingHistory))
    by apply slice_last_length.
  split.
  - intros Hp. fold (countedTime last5).
    destruct (difficulty_by_totals typingHistory Hn Hp) as (Thard & Teasy & _).
    fold last5 in Thard, Teasy. split; [|split].
    + rewrite (windowAvgTime_exact last5 Hp) by lia. reflexivity.
    + intros E. apply Thard in E. exact (proj1 (proj2 E)).
    + intros E. apply Teasy. unfold hardTier, easyTier.
      unfold windowSize in *. split; [lia | right; right; exact E].
  - intros Hmiss.
    assert (Hmiss' : forall a, In a last5 -> timeSpent a = None \/ timeSpent a = Some 0%Z).
    { intros a Ha. specialize (Hmiss a Ha). unfold lacksTime in Hmiss.
      destruct (timeSpent a) as [z|]; [right | now left].
      apply Z.eqb_eq in Hmiss. now subst. }
    assert (Havg : windowAvgTime last5 == 5000).
    { unfold windowAvgTime.
      rewrite (sum_by_constant (timeSpent_or 5000) (of_Z 5000)).
      - assert (Hb : (3 <= List.length last5 <= 5)%nat) by lia.
        clear Hlen Hmiss Hmiss'.
        destruct last5 as [|a1 [|a2 [|a3 [|a4 [|a5 [|a6 w]]]]]];
          cbn [List.length] in Hb;
          first [exfalso; lia | vm_compute; reflexivity].
      - intros a Ha. apply timeSpent_or_missing. now apply Hmiss'. }
    destruct (difficulty_by_conditions typingHistory Hn) as (Thard & Teasy & Tmed).
    fold last5 in Thard, Teasy, Tmed.
    assert (Hnothard : ~ hardCondition last5).
    { intros (_ & Ht & _). rewrite Havg in Ht. discriminate. }
    assert (Hnot8000 : ~ (8000 < windowAvgTime last5)).
    { rewrite Havg. discriminate. }
    split; [exact Havg|]. split; [|split; [exact Hnot8000|]].
    + intros E. apply Hnothard. now apply Thard.
    + intros E.
      destruct (Qlt_le_dec (windowAccuracy last5) lit_0_5) as [|C1]; [now left|].
      destruct (Qlt_le_dec 3 (windowAvgHesitations last5)) as [|C2]; [now right|].
      exfalso. rewrite Tmed in E; [discriminate | assumption |].
      intros [C | [C | C]]; [| | contradiction].
      * exact (Qlt_not_le _ _ C C1).
      * exact (Qlt_not_le _ _ C C2).
Qed.

(** One attempt without a time, one of 2000 ms and one of zero ms average
    (5000 + 2000 + 5000) / 3 = 4000. *)
Lemma missing_timeSpent_mixed_window :
  windowAvgTime (slice_last 5 history_mixed_times) == 4000.
Proof.
  destruct (missing_timeSpent_counts_as_5000 history_mixed_times) as [H _].
  - simpl. lia.
  - destruct H as (E & _).
    + intros a Ha. vm_compute in Ha.
      destruct Ha as [<- | [<- | [<- | []]]];
        unfold plausible; vm_compute; repeat split; discriminate.
    + rewrite E. vm_compute. reflexivity.
Defined.

End Difficulty.

(** ** Random picks *)

Section RandomPicks.

Import Binary64 Binary64Facts.
Local Open Scope Q_scope.

(** [Math.floor(Math.random() * n)] is an index below [n]. *)
Lemma random_index_in_range (r : number) (n : nat) :
  is_random r -> (0 < n)%nat -> (Z.of_nat n < 2 ^ 53)%Z ->
  (Z.to_nat (Math_floor (mul r (of_nat n))) < n)%nat.
Proof.
  intros [Hr0 Hr1] Hn Hb.
  pose proof (of_nat_nonneg n) as H0. pose proof (of_nat_le n Hb) as H1.
  pose proof (pow2_pos (-53)) as Hu.
  assert (Hu1 : pow2 (-53) < 1) by reflexivity.
  assert (Hprod0 : 0 <= r * of_nat n) by (apply Qmult_le_0_compat; assumption).
  assert (Hprod1 : r * of_nat n <= inject_Z (Z.of_nat n) * (1 - pow2 (-53))).
  { apply Qle_trans with ((1 - pow2 (-53)) * of_nat n).
    - apply Qmult_le_compat_r; assumption.
    - rewrite (Qmult_comm (inject_Z _)). apply Qmult_le_l; [lra | assumption]. }
  pose proof (fl_lt_int (r * of_nat n) (Z.of_nat n) Hprod0 Hprod1) as Hlt.
  pose proof (fl_nonneg _ Hprod0) as Hge.
  unfold Math_floor, mul. set (v := fl (r * of_nat n)) in *.
  pose proof (Qfloor_le v) as Hfl.
  assert (Hf0 : (0 <= Qfloor v)%Z).
  { change 0%Z with (Qfloor 0). now apply Qfloor_resp_le. }
  assert (Hf1 : (Qfloor v < Z.of_nat n)%Z).
  { rewrite Zlt_Qlt. apply Qle_lt_trans with v; [assumption|]. apply Hlt. lia. }
  lia.
Qed.

Lemma pickRandom_In {A} (r : number) (arr : list A) :
  is_random r -> arr <> [] -> (Z.of_nat (List.length arr) < 2 ^ 53)%Z ->
  exists x, pickRandom r arr = Some x /\ In x arr.
Proof.
  intros Hr Hne Hb. unfold pickRandom.
  assert (Hn : (0 < List.length arr)%nat) by (destruct arr; [congruence | simpl; lia]).
  pose proof (random_index_in_range r _ Hr Hn Hb) as Hi.
  destruct (nth_error arr _) as [x|] eqn:E.
  - exists x. split; [reflexivity|]. eapply nth_error_In; eauto.
  - apply nth_error_None in E. lia.
Qed.

(** Every element of the array is the pick for some random number. *)
Lemma pickRandom_reaches {A} (arr : list A) (i : nat) :
  (i < List.length arr)%nat -> (Z.of_nat (List.length arr) < 2 ^ 52)%Z ->
  exists r, is_random r /\ pickRandom r arr = nth_error arr i.
Proof.
  intros Hi Hb. set (n := List.length arr) in *.
  set (I := inject_Z (Z.of_nat i)). set (N := inject_Z (Z.of_nat n)).
  assert (HI0 : 0 <= I).
  { unfold I. change 0 with (inject_Z 0). rewrite <- Zle_Qle. lia. }
  assert (HIN : I + 1 <= N).
  { unfold I, N. change 1 with (inject_Z 1). rewrite <- inject_Z_plus, <- Zle_Qle. lia. }
  assert (HN52 : N <= 4503599627370496).
  { unfold N. change 4503599627370496 with (inject_Z (2 ^ 52)). rewrite <- Zle_Qle. lia. }
  assert (HI52 : I + 1 <= 4503599627370496) by lra.
  exists ((2 * I + 1) / (2 * N)). split.
  - unfold is_random. change (pow2 (-53)) with (1 # 9007199254740992). split.
    + apply Qle_shift_div_l; lra.
    + apply Qle_shift_div_r; [lra|].
      assert (E : (1 - (1 # 9007199254740992)) * (2 * N) ==
                  2 * N - N * (1 # 4503599627370496)) by ring.
      rewrite E. lra.
  - unfold pickRandom. f_equal. fold n.
    assert (Hx : (2 * I + 1) / (2 * N) * of_nat n == I + (1 # 2)).
    { rewrite (of_nat_exact n) by lia. fold N. field. lra. }
    unfold mul. rewrite (fl_Qeq _ _ Hx).
    assert (Hpos : 0 <= I + (1 # 2)) by lra.
    pose proof (fl_error (I + (1 # 2)) Hpos) as [E1 E2].
    change (pow2 (-53)) with (1 # 9007199254740992) in E1, E2.
    set (v := fl (I + (1 # 2))) in *. unfold Math_floor.
    pose proof (Qfloor_le v) as Hl. pose proof (Qlt_floor v) as Hu.
    rewrite inject_Z_plus in Hu. change (inject_Z 1) with 1 in Hu.
    assert (H1 : (Z.of_nat i < Qfloor v + 1)%Z).
    { rewrite Zlt_Qlt, inject_Z_plus. change (inject_Z 1) with 1. fold I. lra. }
    assert (H2 : (Qfloor v < Z.of_nat i + 1)%Z).
    { rewrite Zlt_Qlt, inject_Z_plus. change (inject_Z 1) with 1. fold I. lra. }
    lia.
Qed.



(** No part is empty: the draw [k / n] lies in the part of entry [k]. *)
Lemma inPart_inhabited (n k : nat) :
  (k < n)%nat -> (Z.of_nat n < 2 ^ 53)%Z ->
  exists r, is_random r /\ inPart r n k.
Proof.
  intros Hk Hb.
  assert (Hu : pow2 (-53) == 1 # 9007199254740992) by reflexivity.
  assert (Hn0 : 0 < inject_Z (Z.of_nat n))
    by (change 0 with (inject_Z 0); rewrite <- Zlt_Qlt; lia).
  assert (Hk0 : 0 <= inject_Z (Z.of_nat k))
    by (change 0 with (inject_Z 0); rewrite <- Zle_Qle; lia).
  assert (Hkn : inject_Z (Z.of_nat k) + 1 <= inject_Z (Z.of_nat n)).
  { change 1 with (inject_Z 1). rewrite <- inject_Z_plus, <- Zle_Qle. lia. }
  assert (Hnb : inject_Z (Z.of_nat n) <= 9007199254740992).
  { change 9007199254740992 with (inject_Z (2 ^ 53)). rewrite <- Zle_Qle. lia. }
  exists (inject_Z (Z.of_nat k) / inject_Z (Z.of_nat n)).
  assert (E : inject_Z (Z.of_nat k) / inject_Z (Z.of_nat n) * inject_Z (Z.of_nat n)
              == inject_Z (Z.of_nat k)).
  { field. intros H. rewrite H in Hn0. discriminate Hn0. }
  split; [split|split].
  - apply Qle_shift_div_l; [exact Hn0 | lra].
  - apply Qle_shift_div_r; [exact Hn0|].
    set (a := inject_Z (Z.of_nat k)) in *. set (b := inject_Z (Z.of_nat n)) in *.
    set (u := pow2 (-53)) in *. clearbody a b u. nra.
  - rewrite E. apply Qle_refl.
  - rewrite E, inject_Z_plus. change (inject_Z 1) with 1.
    set (a := inject_Z (Z.of_nat k)) in *. set (b := inject_Z (Z.of_nat n)) in *.
    set (u := pow2 (-53)) in *. clearbody a b u. nra.
Qed.

Lemma getEncouragementMessage_In (r : number) (state : EmotionalState) (acc : Z) :
  is_random r ->
  exists m, getEncouragementMessage r state acc = Some m /\ In m (messages state).
Proof.
  intros Hr. apply (pickRandom_In r (messages state) Hr).
  - destruct state; discriminate.
  - destruct state; reflexivity.
Qed.

End RandomPicks.

(** ** The analysis as a function of the attempts *)

Section Analysis.

(** C9.  Five attempts on cat typed cat, bat, cat, kat, cat: the letter c has
    two errors, it was mistaken for b once and for k once, and the accuracy
    is 60. *)
Theorem cat_scenario (r : number) (ms hes : nat -> option Z) :
  let res := analyzeResultsLocally r (catHistory ms hes) in
  get_or_0 (letterErrorCounts (countLetters (catHistory ms hes))) "c" = 2%Z /\
  In {| confuses := "b"; with_ := "c"; frequency := 1 |} (confusionPatterns res) /\
  In {| confuses := "k"; with_ := "c"; frequency := 1 |} (confusionPatterns res) /\
  overallAccuracy res = 60%Z.
Proof.
  cbv zeta. split; [|split; [|split]].
  - vm_compute. reflexivity.
  - vm_compute. left. reflexivity.
  - vm_compute. right. left. reflexivity.
  - vm_compute. reflexivity.
Qed.

(** The encouragement does vary with the random number. *)
Lemma encouragement_varies :
  encouragement (analyzeResultsLocally 0 (catHistory (fun _ => None) (fun _ => None))) <>
  encouragement (analyzeResultsLocally (1 # 2) (catHistory (fun _ => None) (fun _ => None))).
Proof. vm_compute. discriminate. Qed.

End Analysis.

(** ** Histories that are not arrays *)

Section Malformed.

Import Binary64 Binary64Facts.

Lemma attemptsOf_Given (l : list Attempt) : attemptsOf (map Given l) = Some l.
Proof. induction l as [|a l IH]; [reflexivity|]. simpl. now rewrite IH. Qed.

Lemma attemptsOf_Some (items : list entry) (l : list Attempt) :
  attemptsOf items = Some l -> items = map Given l.
Proof.
  revert l. induction items as [|[|a] items IH]; intros l H; simpl in H.
  - injection H as <-. reflexivity.
  - discriminate.
  - destruct (attemptsOf items) as [l'|]; [|discriminate].
    injection H as <-. simpl. now rewrite (IH l' eq_refl).
Qed.


Lemma slice_last_Given (n : nat) (l : list Attempt) :
  slice_last n (map Given l) = map Given (slice_last n l).
Proof. unfold slice_last. now rewrite length_map, skipn_map. Qed.

(** The comparison of a length with 3 in binary64 is the comparison of the
    whole numbers. *)
Lemma length_below_3 (n : nat) : ltb (of_nat n) 3 = (n <? 3)%nat.
Proof.
  destruct (Nat.ltb_spec n 3) as [H | H].
  - assert (Hn : n = 0%nat \/ n = 1%nat \/ n = 2%nat) by lia.
    destruct Hn as [-> | [-> | ->]]; vm_compute; reflexivity.
  - apply ltb_false_iff. intros Hlt.
    pose proof (of_nat_mono 3 n H) as Hm.
    assert (E : of_nat 3 == 3) by (vm_compute; reflexivity).
    rewrite E in Hm. exact (Qlt_not_le _ _ Hlt Hm).
Qed.

(** On its window the estimator gives what it gives on the history. *)
Lemma calculateAdaptiveDifficulty_window (l : list Attempt) :
  (3 <= List.length l)%nat ->
  calculateAdaptiveDifficulty (slice_last 5 l) = calculateAdaptiveDifficulty l.
Proof.
  intros H. unfold calculateAdaptiveDifficulty.
  rewrite slice_last_length.
  destruct (Nat.ltb_spec (Nat.min 5 (List.length l)) 3); [lia|].
  destruct (Nat.ltb_spec (List.length l) 3); [lia|].
  assert (E : slice_last 5 (slice_last 5 l) = slice_last 5 l).
  { unfold slice_last at 1. rewrite slice_last_length.
    replace (Nat.min 5 (List.length l) - 5)%nat with 0%nat by lia. reflexivity. }
  now rewrite E.
Qed.

Lemma estimateDifficulty_array (l : list Attempt) :
  estimateDifficulty (Array (map Given l)) = Returned (calculateAdaptiveDifficulty l).
Proof.
  unfold estimateDifficulty. cbn [lengthOf andThen below].
  rewrite length_map, length_below_3.
  destruct (Nat.ltb_spec (List.length l) 3) as [H | H].
  - unfold calculateAdaptiveDifficulty.
    destruct (Nat.ltb_spec (List.length l) 3); [reflexivity | lia].
  - rewrite slice_last_Given. unfold readEntries. rewrite attemptsOf_Given.
    cbn [andThen]. now rewrite calculateAdaptiveDifficulty_window.
Qed.





(** On a missing history the estimator throws when it reads the length,
    where the scoring of the selector takes the empty list. *)
Lemma estimator_throws_on_missing_history :
  estimateDifficulty Undefined = Thrown TypeError /\
  estimateDifficulty Null = Thrown TypeError.
Proof. split; reflexivity. Qed.

End Malformed.

(** ** Objects and sorting *)

Section Objects.

Context {V : Type}.

Lemma get_set_same (o : object V) (k : ascii) (v : V) : get (set o k v) k = Some v.
Proof.
  induction o as [|[k' v'] o IH]; simpl.
  - now rewrite Ascii.eqb_refl.
  - destruct (Ascii.eqb k' k) eqn:E; simpl.
    + now rewrite Ascii.eqb_refl.
    + now rewrite E.
Qed.

Lemma get_set_other (o : object V) (k k' : ascii) (v : V) :
  k <> k' -> get (set o k v) k' = get o k'.
Proof.
  intros Hk. induction o as [|[k0 v0] o IH]; simpl.
  - destruct (Ascii.eqb_spec k k'); [contradiction | reflexivity].
  - destruct (Ascii.eqb_spec k0 k) as [-> | Hne]; simpl.
    + destruct (Ascii.eqb_spec k k'); [contradiction | reflexivity].
    + destruct (Ascii.eqb_spec k0 k'); [reflexivity | exact IH].
Qed.

Lemma get_In_fst (o : object V) (k : ascii) :
  In k (map fst o) <-> has_key o k = true.
Proof.
  unfold has_key. induction o as [|[k' v'] o IH]; simpl.
  - split; [tauto | discriminate].
  - destruct (Ascii.eqb_spec k' k) as [-> | Hne].
    + split; auto.
    + rewrite <- IH. split; [intros [E | H]; [contradiction | exact H] | auto].
Qed.

Lemma is_index_key_digits (k : ascii) : is_index_key k = true <-> In k digits.
Proof.
  split.
  - destruct k as [[] [] [] [] [] [] [] []]; vm_compute; intros H;
      try discriminate H; tauto.
  - intros H. simpl in H.
    repeat (destruct H as [<- | H]; [reflexivity|]). contradiction.
Qed.

(** [Object.keys] lists exactly the properties of the object. *)
Lemma keys_spec (o : object V) (k : ascii) :
  In k (keys o) <-> has_key o k = true.
Proof.
  unfold keys. rewrite in_app_iff, !filter_In, <- get_In_fst, negb_true_iff.
  split.
  - intros [[_ H] | [H _]]; exact H.
  - intros H. destruct (is_index_key k) eqn:E.
    + left. split; [now apply is_index_key_digits | exact H].
    + right. split; [exact H | reflexivity].
Qed.

End Objects.

Section Sorting.

Context {A : Type} (key : A -> Z).

Lemma insert_desc_In (x y : A) (l : list A) :
  In y (insert_desc key x l) <-> y = x \/ In y l.
Proof.
  induction l as [|z l IH]; simpl.
  - split; [intros [E | []]; auto | intros [E | []]; auto].
  - destruct (key z <? key x)%Z; simpl.
    + split; [intros [E | H]; auto | intros [E | H]; auto].
    + rewrite IH. split; [intros [E | [E | H]]; auto | intros [E | [E | H]]; auto].
Qed.

Lemma sort_desc_In (y : A) (l : list A) : In y (sort_desc key l) <-> In y l.
Proof.
  unfold sort_desc.
  assert (G : forall acc, In y (fold_left (fun acc x => insert_desc key x acc) l acc)
                          <-> In y acc \/ In y l).
  { induction l as [|x l IH]; intros acc; simpl.
    - split; [auto | intros [H | []]; exact H].
    - rewrite IH, insert_desc_In.
      split; [intros [[E | H] | H]; auto | intros [H | [E | H]]; auto]. }
  rewrite G. simpl. split; [intros [[] | H]; exact H | auto].
Qed.

End Sorting.

(** ** Letter counts *)

Section Counting.

Lemma get_or_0_bump (o : object Z) (k c : ascii) (w : Z) :
  get_or_0 (bump o k w) c = (get_or_0 o c + if Ascii.eqb k c then w else 0)%Z.
Proof.
  unfold bump, get_or_0 at 1. destruct (Ascii.eqb_spec k c) as [-> | Hne].
  - rewrite get_set_same. reflexivity.
  - rewrite get_set_other by assumption. fold (get_or_0 o c). lia.
Qed.

Lemma positive_values_get_or_0 (o : object Z) (k : ascii) :
  positive_values o -> (0 <= get_or_0 o k)%Z.
Proof.
  intros H. unfold get_or_0. destruct (get o k) as [v|] eqn:E; [|lia].
  specialize (H k v E). lia.
Qed.

Lemma positive_values_bump (o : object Z) (k : ascii) (w : Z) :
  positive_values o -> (0 < w)%Z -> positive_values (bump o k w).
Proof.
  intros H Hw k' v. unfold bump. destruct (Ascii.eqb_spec k k') as [-> | Hne].
  - rewrite get_set_same. intros [= <-].
    pose proof (positive_values_get_or_0 o k' H). lia.
  - rewrite get_set_other by assumption. apply H.
Qed.

(** With positive values, a letter is a property exactly when its count is
    positive. *)
Lemma has_key_positive (o : object Z) (k : ascii) :
  positive_values o -> (has_key o k = true <-> (0 < get_or_0 o k)%Z).
Proof.
  intros H. unfold has_key, get_or_0. destruct (get o k) as [v|] eqn:E.
  - split; [intros _; exact (H k v E) | reflexivity].
  - split; [discriminate | lia].
Qed.

(** The loop over the positions of one attempt, for the two count objects. *)
Lemma countPosition_errors (t : ascii) (u : option ascii) (c : LetterCounts) :
  letterErrorCounts (countPosition t u c) =
  if same_char (Some t) u then letterErrorCounts c
  else bump (letterErrorCounts c) t 1.
Proof. unfold countPosition. destruct (same_char (Some t) u); reflexivity. Qed.

Lemma countPosition_oks (t : ascii) (u : option ascii) (c : LetterCounts) :
  letterOkCounts (countPosition t u c) =
  if same_char (Some t) u then bump (letterOkCounts c) t 1
  else letterOkCounts c.
Proof. unfold countPosition. destruct (same_char (Some t) u); reflexivity. Qed.

Lemma countStep_errors (target typed : string) (c : LetterCounts) (i : nat) (l : ascii) :
  get_or_0 (letterErrorCounts (countStep target typed c i)) l =
  (get_or_0 (letterErrorCounts c) l + if errorAt target typed l i then 1 else 0)%Z.
Proof.
  unfold countStep, errorAt. destruct (char_at target i) as [t|]; [|simpl; lia].
  rewrite countPosition_errors.
  destruct (same_char (Some t) (char_at typed i)).
  - rewrite andb_false_r. lia.
  - rewrite get_or_0_bump, andb_true_r. reflexivity.
Qed.

Lemma countStep_oks (target typed : string) (c : LetterCounts) (i : nat) (l : ascii) :
  get_or_0 (letterOkCounts (countStep target typed c i)) l =
  (get_or_0 (letterOkCounts c) l + if okAt target typed l i then 1 else 0)%Z.
Proof.
  unfold countStep, okAt. destruct (char_at target i) as [t|]; [|simpl; lia].
  rewrite countPosition_oks.
  destruct (same_char (Some t) (char_at typed i)).
  - rewrite get_or_0_bump, andb_true_r. reflexivity.
  - rewrite andb_false_r. lia.
Qed.

Lemma countStep_positive (target typed : string) (c : LetterCounts) (i : nat) :
  positive_values (letterErrorCounts c) -> positive_values (letterOkCounts c) ->
  positive_values (letterErrorCounts (countStep target typed c i)) /\
  positive_values (letterOkCounts (countStep target typed c i)).
Proof.
  intros He Ho. unfold countStep. destruct (char_at target i) as [t|]; [|auto].
  rewrite countPosition_errors, countPosition_oks.
  destruct (same_char (Some t) (char_at typed i)); split; auto;
    apply positive_values_bump; auto; lia.
Qed.

Lemma count_filter_step {A} (f : A -> bool) (x : A) (l : list A) :
  Z.of_nat (List.length (filter f (x :: l))) =
  ((if f x then 1 else 0) + Z.of_nat (List.length (filter f l)))%Z.
Proof. cbn [filter]. destruct (f x); cbn [List.length]; lia. Qed.

Lemma countAttempt_spec (c : LetterCounts) (item : Attempt) (l : ascii) :
  get_or_0 (letterErrorCounts (countAttempt c item)) l =
    (get_or_0 (letterErrorCounts c) l + errorsIn item l)%Z /\
  get_or_0 (letterOkCounts (countAttempt c item)) l =
    (get_or_0 (letterOkCounts c) l + oksIn item l)%Z.
Proof.
  unfold countAttempt, errorsIn, oksIn, positions.
  set (target := toLowerCase (word item)). set (typed := toLowerCase (input item)).
  change (fun (c0 : LetterCounts) (i : nat) =>
            match char_at target i with
            | Some t => countPosition t (char_at typed i) c0
            | None => c0
            end) with (countStep target typed).
  generalize (seq 0 (Nat.max (String.length target) (String.length typed))).
  intros ps. revert c. induction ps as [|i ps IH]; intros c.
  - simpl. lia.
  - cbn [fold_left]. destruct (IH (countStep target typed c i)) as [IH1 IH2].
    rewrite IH1, IH2, countStep_errors, countStep_oks, !count_filter_step. lia.
Qed.

Lemma countAttempt_positive (c : LetterCounts) (item : Attempt) :
  positive_values (letterErrorCounts c) -> positive_values (letterOkCounts c) ->
  positive_values (letterErrorCounts (countAttempt c item)) /\
  positive_values (letterOkCounts (countAttempt c item)).
Proof.
  unfold countAttempt.
  set (target := toLowerCase (word item)). set (typed := toLowerCase (input item)).
  change (fun (c0 : LetterCounts) (i : nat) =>
            match char_at target i with
            | Some t => countPosition t (char_at typed i) c0
            | None => c0
            end) with (countStep target typed).
  generalize (seq 0 (Nat.max (String.length target) (String.length typed))).
  intros ps. revert c. induction ps as [|i ps IH]; intros c He Ho.
  - simpl. auto.
  - cbn [fold_left]. destruct (countStep_positive target typed c i He Ho).
    now apply IH.
Qed.

Lemma fold_countAttempt_spec (all : list Attempt) (c : LetterCounts) (l : ascii) :
  get_or_0 (letterErrorCounts (fold_left countAttempt all c)) l =
    (get_or_0 (letterErrorCounts c) l + errorCount all l)%Z /\
  get_or_0 (letterOkCounts (fold_left countAttempt all c)) l =
    (get_or_0 (letterOkCounts c) l + okCount all l)%Z.
Proof.
  revert c. induction all as [|item all IH]; intros c.
  - unfold errorCount, okCount. simpl. lia.
  - cbn [fold_left]. destruct (IH (countAttempt c item)) as [IH1 IH2].
    destruct (countAttempt_spec c item l) as [H1 H2].
    rewrite IH1, IH2, H1, H2. unfold errorCount, okCount. simpl. lia.
Qed.

(** The objects filled by the analysis hold, for every letter, the number of
    its errors and the number of times it was typed correctly. *)
Lemma countLetters_spec (all : list Attempt) (l : ascii) :
  get_or_0 (letterErrorCounts (countLetters all)) l = errorCount all l /\
  get_or_0 (letterOkCounts (countLetters all)) l = okCount all l.
Proof.
  unfold countLetters. destruct (fold_countAttempt_spec all noCounts l) as [H1 H2].
  rewrite H1, H2. split; reflexivity.
Qed.

Lemma countLetters_positive (all : list Attempt) :
  positive_values (letterErrorCounts (countLetters all)) /\
  positive_values (letterOkCounts (countLetters all)).
Proof.
  unfold countLetters.
  assert (G : forall c,
             positive_values (letterErrorCounts c) -> positive_values (letterOkCounts c) ->
             positive_values (letterErrorCounts (fold_left countAttempt all c)) /\
             positive_values (letterOkCounts (fold_left countAttempt all c))).
  { induction all as [|item all IH]; intros c He Ho; [simpl; auto|].
    cbn [fold_left]. destruct (countAttempt_positive c item He Ho). now apply IH. }
  apply G; intros k v; discriminate.
Qed.

End Counting.

(** ** Problematic letters and strengths *)

Section Letters.

(** C8.  A letter is problematic exactly when it has an error, and is a
    strength exactly when it was typed correctly at least once and at least
    as often as it was an error.  A letter with as many errors as correct
    occurrences, not zero, is in both lists; a letter that is in one list
    only has different counts. *)
Theorem problematic_and_strengths (r : number) (all : list Attempt) (l : ascii) :
  let res := analyzeResultsLocally r all in
  let err := errorCount all l in
  let ok := okCount all l in
  (In l (problematicLetters res) <-> (0 < err)%Z) /\
  (In l (strengths res) <-> (0 < ok)%Z /\ (err <= ok)%Z) /\
  (ok = err -> (0 < ok)%Z -> In l (strengths res) /\ In l (problematicLetters res)) /\
  (In l (problematicLetters res) -> ~ In l (strengths res) -> ok <> err) /\
  (In l (strengths res) -> ~ In l (problematicLetters res) -> ok <> err).
Proof.
  intros res err ok.
  destruct (countLetters_spec all l) as [He Ho].
  destruct (countLetters_positive all) as [Pe Po].
  assert (HP : In l (problematicLetters res) <-> (0 < err)%Z).
  { subst res. cbn [problematicLetters analyzeResultsLocally].
    rewrite sort_desc_In, keys_spec, (has_key_positive _ _ Pe), He. reflexivity. }
  assert (HS : In l (strengths res) <-> (0 < ok)%Z /\ (err <= ok)%Z).
  { subst res. cbn [strengths analyzeResultsLocally].
    rewrite sort_desc_In, filter_In, keys_spec, (has_key_positive _ _ Po), He, Ho.
    rewrite Z.leb_le. reflexivity. }
  split; [exact HP|]. split; [exact HS|]. split; [|split].
  - intros E Hpos. rewrite HP, HS. lia.
  - rewrite HP, HS. lia.
  - rewrite HP, HS. lia.
Qed.

Lemma problematic_and_strengths_equal_counts :
  In "a"%char (strengths (analyzeResultsLocally 0 history_a_once_right_once_wrong)) /\
  In "a"%char (problematicLetters (analyzeResultsLocally 0 history_a_once_right_once_wrong)).
Proof.
  apply (problematic_and_strengths 0 history_a_once_right_once_wrong "a"%char);
    vm_compute; reflexivity.
Defined.

End Letters.

(** ** Problem letter scores *)

Section Scores.

Lemma fold_left_pointwise {A B} (f g : A -> B -> A) (l : list B) (a : A) :
  (forall x y, f x y = g x y) -> fold_left f l a = fold_left g l a.
Proof.
  intros H. revert a. induction l as [|y l IH]; intros a; [reflexivity|].
  simpl. rewrite H. apply IH.
Qed.

Lemma scoreAttempt_fold (w : Z) (target typed : string) (o : object Z) :
  scoreAttempt w target typed o =
  fold_left (scoreStep w target typed) (positions target typed) o.
Proof.
  unfold scoreAttempt, positions. apply fold_left_pointwise.
  intros scores i. unfold scoreStep, bump.
  destruct (char_at target i); reflexivity.
Qed.

Lemma scoreStep_spec (w : Z) (target typed : string) (o : object Z) (i : nat) (c : ascii) :
  get_or_0 (scoreStep w target typed o i) c =
  (get_or_0 o c + if errorAt target typed c i then w else 0)%Z.
Proof.
  unfold scoreStep, errorAt. destruct (char_at target i) as [t|]; [|simpl; lia].
  destruct (same_char (Some t) (char_at typed i)).
  - rewrite andb_false_r. lia.
  - rewrite get_or_0_bump, andb_true_r. reflexivity.
Qed.

Lemma scoreStep_positive (w : Z) (target typed : string) (o : object Z) (i : nat) :
  (0 < w)%Z -> positive_values o -> positive_values (scoreStep w target typed o i).
Proof.
  intros Hw H. unfold scoreStep. destruct (char_at target i) as [t|]; [|exact H].
  destruct (same_char (Some t) (char_at typed i)); [exact H|].
  now apply positive_values_bump.
Qed.

Lemma scoreAttempt_spec (w : Z) (item : Attempt) (o : object Z) (c : ascii) :
  get_or_0 (scoreAttempt w (toLowerCase (word item)) (toLowerCase (input item)) o) c =
  (get_or_0 o c + w * errorsIn item c)%Z.
Proof.
  rewrite scoreAttempt_fold. unfold errorsIn.
  generalize (positions (toLowerCase (word item)) (toLowerCase (input item))).
  intros ps. revert o. induction ps as [|i ps IH]; intros o.
  - simpl. lia.
  - cbn [fold_left]. rewrite IH, scoreStep_spec, count_filter_step.
    destruct (errorAt _ _ c i); lia.
Qed.

Lemma scoreAttempt_positive (w : Z) (target typed : string) (o : object Z) :
  (0 < w)%Z -> positive_values o -> positive_values (scoreAttempt w target typed o).
Proof.
  intros Hw. rewrite scoreAttempt_fold. generalize (positions target typed).
  intros ps. revert o. induction ps as [|i ps IH]; intros o H; [exact H|].
  cbn [fold_left]. apply IH. now apply scoreStep_positive.
Qed.

Lemma getProblemLetterScores_fold (h : list Attempt) :
  getProblemLetterScores h =
  fold_left (scoreItem (Z.of_nat (List.length h)))
            (combine (seq 0 (List.length h)) h) [].
Proof. reflexivity. Qed.

Lemma scoreItem_spec (n : nat) (o : object Z) (ii : nat * Attempt) (c : ascii) :
  get_or_0 (scoreItem (Z.of_nat n) o ii) c =
  (get_or_0 o c +
   if correct (snd ii) then 0
   else recencyWeight n (fst ii) * errorsIn (snd ii) c)%Z.
Proof.
  unfold scoreItem. destruct (correct (snd ii)); [lia|].
  rewrite scoreAttempt_spec. unfold recencyWeight.
  destruct (Z.leb_spec (Z.of_nat n - 3) (Z.of_nat (fst ii)));
    destruct (Nat.leb_spec (n - 3) (fst ii)); lia.
Qed.

Lemma scoreItem_positive (n : Z) (o : object Z) (ii : nat * Attempt) :
  positive_values o -> positive_values (scoreItem n o ii).
Proof.
  intros H. unfold scoreItem. destruct (correct (snd ii)); [exact H|].
  apply scoreAttempt_positive; [|exact H].
  destruct (n - 3 <=? Z.of_nat (fst ii))%Z; lia.
Qed.

(** The scores that the code accumulates are the scores of the rule. *)
Lemma getProblemLetterScores_spec (h : list Attempt) (c : ascii) :
  get_or_0 (getProblemLetterScores h) c = letterScore h c.
Proof.
  rewrite getProblemLetterScores_fold. unfold letterScore.
  generalize (combine (seq 0 (List.length h)) h). generalize (List.length h).
  intros n iis.
  assert (G : forall o,
             get_or_0 (fold_left (scoreItem (Z.of_nat n)) iis o) c =
             (get_or_0 o c +
              sumZ (map (fun ii => if correct (snd ii) then 0
                                   else recencyWeight n (fst ii) * errorsIn (snd ii) c)
                        iis))%Z).
  { induction iis as [|ii iis IH]; intros o.
    - simpl. lia.
    - cbn [fold_left map sumZ fold_right]. rewrite IH, scoreItem_spec.
      unfold sumZ. lia. }
  rewrite G. reflexivity.
Qed.

Lemma getProblemLetterScores_positive (h : list Attempt) :
  positive_values (getProblemLetterScores h).
Proof.
  rewrite getProblemLetterScores_fold.
  generalize (combine (seq 0 (List.length h)) h). generalize (Z.of_nat (List.length h)).
  intros n iis.
  assert (G : forall o, positive_values o ->
                        positive_values (fold_left (scoreItem n) iis o)).
  { induction iis as [|ii iis IH]; intros o H; [exact H|].
    cbn [fold_left]. apply IH. now apply scoreItem_positive. }
  apply G. intros k v. discriminate.
Qed.

End Scores.

(** ** Ranking of the letters *)

Section Ranking.

Context {A : Type} (key : A -> Z).

Lemma insert_desc_sorted (x : A) (l : list A) :
  StronglySorted (fun a b => (key b <= key a)%Z) l -> StronglySorted (fun a b => (key b <= key a)%Z) (insert_desc key x l).
Proof.
  intros H. induction H as [|y l Hl IH Hy]; simpl.
  - constructor; constructor.
  - destruct (Z.ltb_spec (key y) (key x)) as [C | C].
    + constructor; [constructor; assumption|].
      constructor; [lia|].
      rewrite Forall_forall in *. intros z Hz. specialize (Hy z Hz).
      cbv beta in *. lia.
    + constructor; [exact IH|].
      rewrite Forall_forall in *. intros z Hz.
      apply insert_desc_In in Hz. destruct Hz as [-> | Hz]; [exact C | now apply Hy].
Qed.

Lemma insert_desc_perm (x : A) (l : list A) : Permutation (x :: l) (insert_desc key x l).
Proof.
  induction l as [|y l IH]; simpl; [reflexivity|].
  destruct (key y <? key x)%Z; [reflexivity|].
  rewrite perm_swap. now constructor.
Qed.

Lemma sort_desc_sorted (l : list A) : StronglySorted (fun a b => (key b <= key a)%Z) (sort_desc key l).
Proof.
  unfold sort_desc.
  assert (G : forall acc, StronglySorted (fun a b => (key b <= key a)%Z) acc ->
                          StronglySorted (fun a b => (key b <= key a)%Z)
                            (fold_left (fun acc x => insert_desc key x acc) l acc)).
  { induction l as [|x l IH]; intros acc H; [exact H|].
    simpl. apply IH. now apply insert_desc_sorted. }
  apply G. constructor.
Qed.

Lemma sort_desc_perm (l : list A) : Permutation l (sort_desc key l).
Proof.
  unfold sort_desc.
  assert (G : forall acc, Permutation (acc ++ l)
                            (fold_left (fun acc x => insert_desc key x acc) l acc)).
  { induction l as [|x l IH]; intros acc; simpl.
    - now rewrite app_nil_r.
    - rewrite <- IH. rewrite <- insert_desc_perm. symmetry. apply Permutation_middle. }
  apply (G []).
Qed.

End Ranking.

(** The problem letters are the letters with a positive score, by
    descending score. *)
Lemma focusLetters_spec (h : list Attempt) :
  let focus := focusLetters (getProblemLetterScores h) in
  (forall c, In c focus <-> (0 < letterScore h c)%Z) /\
  descending (letterScore h) focus.
Proof.
  cbv zeta. unfold focusLetters. split.
  - intros c. rewrite sort_desc_In, keys_spec,
      (has_key_positive _ _ (getProblemLetterScores_positive h)),
      getProblemLetterScores_spec. reflexivity.
  - unfold descending.
    pose proof (sort_desc_sorted (get_or_0 (getProblemLetterScores h))
                  (keys (getProblemLetterScores h))) as H.
    eapply StronglySorted_ind with (P := StronglySorted _); [| |exact H].
    + constructor.
    + intros a l Hl IH Ha. constructor; [exact IH|].
      rewrite Forall_forall in *. intros x Hx. specialize (Ha x Hx). cbv beta in Ha.
      now rewrite !getProblemLetterScores_spec in Ha.
Qed.

(** ** Word selection *)

Section Selection.

Import Binary64.

Lemma bank_words_lowercase (w : string) :
  In w ALL_TYPING_WORDS -> toLowerCase w = w.
Proof.
  assert (H : forallb (fun w => String.eqb (toLowerCase w) w) ALL_TYPING_WORDS = true)
    by (vm_compute; reflexivity).
  rewrite forallb_forall in H. intros Hw. now apply String.eqb_eq, H.
Qed.

Lemma tier_words_in_bank (d : Tier) (w : string) :
  In w (TYPING_WORDS d) -> In w ALL_TYPING_WORDS.
Proof.
  assert (H : forallb (fun w => existsb (String.eqb w) ALL_TYPING_WORDS) (TYPING_WORDS d)
              = true) by (destruct d; vm_compute; reflexivity).
  rewrite forallb_forall in H. intros Hw. specialize (H w Hw).
  apply existsb_exists in H. destruct H as (x & Hx & E).
  apply String.eqb_eq in E. now subst.
Qed.

Lemma bank_small : (Z.of_nat (List.length ALL_TYPING_WORDS) < 2 ^ 53)%Z.
Proof. vm_compute. reflexivity. Qed.

Lemma tier_small (d : Tier) : (Z.of_nat (List.length (TYPING_WORDS d)) < 2 ^ 53)%Z.
Proof. destruct d; vm_compute; reflexivity. Qed.

Lemma filter_small {A} (f : A -> bool) (l : list A) :
  (Z.of_nat (List.length l) < 2 ^ 53)%Z ->
  (Z.of_nat (List.length (filter f l)) < 2 ^ 53)%Z.
Proof. intros H. pose proof (filter_length_le f l). lia. Qed.

(** [used.has(w)] for a word of the bank is use up to case. *)
Lemma has_used_iff (usedWords : option (list string)) (w : string) :
  toLowerCase w = w ->
  (has (used_set usedWords) w = true <-> usedIgnoringCase usedWords w).
Proof.
  intros Hw. unfold has, used_set, usedIgnoringCase. rewrite existsb_exists. split.
  - intros (x & Hx & E). apply in_map_iff in Hx. destruct Hx as (u & <- & Hu).
    apply String.eqb_eq in E. exists u. split; [exact Hu | congruence].
  - intros (u & Hu & E). exists (toLowerCase u). split.
    + now apply in_map.
    + apply String.eqb_eq. congruence.
Qed.

Lemma unusedWords_In (usedWords : option (list string)) (pool : list string) (w : string) :
  In w (unusedWords usedWords pool) <->
  In w pool /\ has (used_set usedWords) w = false.
Proof. unfold unusedWords. rewrite filter_In, negb_true_iff. reflexivity. Qed.

Lemma candidatePool_unused (usedWords : option (list string)) (d : Tier) :
  candidatePool (used_set usedWords) d =
  match unusedWords usedWords (TYPING_WORDS d) with
  | [] => unusedWords usedWords ALL_TYPING_WORDS
  | pool => pool
  end.
Proof.
  unfold candidatePool, unusedWords.
  destruct (filter _ (TYPING_WORDS d)); reflexivity.
Qed.

Lemma chooseNextWordWithDifficulty_unfold (r : number) (h : list Attempt)
    (usedWords : option (list string)) (req : option Tier) :
  chooseNextWordWithDifficulty r h usedWords req =
  match candidatePool (used_set usedWords) (chosenDifficulty h req) with
  | [] => pickRandom r ALL_TYPING_WORDS
  | pool => selectFrom r (slice_first 3 (focusLetters (getProblemLetterScores h))) pool
  end.
Proof.
  unfold chooseNextWordWithDifficulty, chosenDifficulty, selectFrom.
  destruct (candidatePool _ _); reflexivity.
Qed.


Lemma firstSubset_sub (letters : list ascii) (pool subset : list string) :
  firstSubset letters pool = Some subset ->
  subset <> [] /\ exists letter, subset = narrowed pool letter.
Proof.
  induction letters as [|letter rest IH]; [discriminate|].
  cbn [firstSubset]. fold (narrowed pool letter).
  destruct (narrowed pool letter) as [|x xs] eqn:E; [exact IH|].
  intros [= <-]. split; [discriminate|]. exists letter. now rewrite E.
Qed.

Lemma selectFrom_In (r : number) (letters : list ascii) (pool : list string) :
  is_random r -> pool <> [] -> (Z.of_nat (List.length pool) < 2 ^ 53)%Z ->
  exists w, selectFrom r letters pool = Some w /\ In w pool.
Proof.
  intros Hr Hne Hb. unfold selectFrom.
  destruct (firstSubset letters pool) as [subset|] eqn:E.
  - destruct (firstSubset_sub _ _ _ E) as (Hs & letter & ->).
    destruct (pickRandom_In r (narrowed pool letter) Hr Hs) as (w & Hw & Hin).
    + now apply filter_small.
    + exists w. split; [exact Hw|]. unfold narrowed in Hin.
      now apply filter_In in Hin.
  - now apply pickRandom_In.
Qed.


Lemma random_one_64th : is_random (1 # 64).
Proof. split; vm_compute; discriminate. Qed.

(** The whole bank: every word of the three tiers, once. *)
Lemma ALL_TYPING_WORDS_deduplicated :
  NoDup ALL_TYPING_WORDS /\
  forall w, In w ALL_TYPING_WORDS <-> exists d, In w (TYPING_WORDS d).
Proof.
  split.
  - assert (H : nodup string_dec ALL_TYPING_WORDS = ALL_TYPING_WORDS)
      by (vm_compute; reflexivity).
    rewrite <- H. apply NoDup_nodup.
  - intros w. split.
    + assert (H : forallb
                    (fun w => existsb (String.eqb w)
                                (TYPING_WORDS easy ++ TYPING_WORDS medium ++ TYPING_WORDS hard))
                    ALL_TYPING_WORDS = true) by (vm_compute; reflexivity).
      rewrite forallb_forall in H. intros Hw. specialize (H w Hw).
      apply existsb_exists in H. destruct H as (x & Hx & E).
      apply String.eqb_eq in E. subst x.
      rewrite !in_app_iff in Hx. destruct Hx as [Hx | [Hx | Hx]]; eauto.
    + intros [d Hd]. now apply (tier_words_in_bank d).
Qed.

(** C3.  The selector returns a word.  It is an unused word of the tier
    when there is one; otherwise an unused word of the deduplicated bank
    when there is one; otherwise a word of the bank.  So it is never a word
    that is used, up to case, unless every word of the bank is. *)
Theorem selected_word_avoids_used_words (r : number) (typingHistory : list Attempt)
    (usedWords : option (list string)) (requestedDifficulty : option Tier) :
  is_random r ->
  let difficulty := chosenDifficulty typingHistory requestedDifficulty in
  let tierPool := unusedWords usedWords (TYPING_WORDS difficulty) in
  let bankPool := unusedWords usedWords ALL_TYPING_WORDS in
  exists w,
    chooseNextWordWithDifficulty r typingHistory usedWords requestedDifficulty = Some w /\
    (tierPool <> [] -> In w tierPool) /\
    (tierPool = [] -> bankPool <> [] -> In w bankPool) /\
    (tierPool = [] -> bankPool = [] -> In w ALL_TYPING_WORDS) /\
    ((exists b, In b ALL_TYPING_WORDS /\ ~ usedIgnoringCase usedWords b) ->
     ~ usedIgnoringCase usedWords w).
Proof.
  intros Hr difficulty tierPool bankPool.
  rewrite chooseNextWordWithDifficulty_unfold, candidatePool_unused.
  fold difficulty tierPool bankPool.
  assert (Hnotused : forall pool w,
             (forall x, In x pool -> In x ALL_TYPING_WORDS) ->
             In w (unusedWords usedWords pool) -> ~ usedIgnoringCase usedWords w).
  { intros pool w Hsub Hw. apply unusedWords_In in Hw. destruct Hw as [Hin Hhas].
    intros Hu. apply has_used_iff in Hu; [congruence|].
    apply bank_words_lowercase. now apply Hsub. }
  assert (Hbank : (exists b, In b ALL_TYPING_WORDS /\ ~ usedIgnoringCase usedWords b) ->
                  bankPool <> []).
  { intros (b & Hb & Hnu) E.
    assert (Hin : In b bankPool).
    { apply unusedWords_In. split; [exact Hb|].
      destruct (has (used_set usedWords) b) eqn:Hh; [|reflexivity].
      exfalso. apply Hnu. apply has_used_iff; [now apply bank_words_lowercase | exact Hh]. }
    rewrite E in Hin. contradiction. }
  destruct tierPool as [|t ts] eqn:Et.
  - destruct bankPool as [|b bs] eqn:Eb.
    + destruct (pickRandom_In r ALL_TYPING_WORDS Hr) as (w & Hw & Hin);
        [discriminate | apply bank_small |].
      exists w. split; [exact Hw|]. split; [congruence|]. split; [congruence|].
      split; [auto|]. intros Hex. exfalso. now apply (Hbank Hex).
    + destruct (selectFrom_In r
                  (slice_first 3 (focusLetters (getProblemLetterScores typingHistory)))
                  (b :: bs) Hr) as (w & Hw & Hin); [discriminate | |].
      { rewrite <- Eb. apply filter_small, bank_small. }
      exists w. split; [exact Hw|]. split; [congruence|]. split; [auto|].
      split; [congruence|]. intros _.
      apply (Hnotused ALL_TYPING_WORDS); [auto|]. fold bankPool. now rewrite Eb.
  - destruct (selectFrom_In r
                (slice_first 3 (focusLetters (getProblemLetterScores typingHistory)))
                (t :: ts) Hr) as (w & Hw & Hin); [discriminate | |].
    { rewrite <- Et. apply filter_small, tier_small. }
    exists w. split; [exact Hw|]. split; [auto|]. split; [congruence|].
    split; [congruence|]. intros _.
    apply (Hnotused (TYPING_WORDS difficulty)); [apply tier_words_in_bank|].
    fold tierPool. now rewrite Et.
Qed.

Lemma selected_word_after_cat :
  exists w,
    chooseNextWordWithDifficulty (1 # 64) history_cat_as_bat (Some ["CAT"%string])
      (Some easy) = Some w /\
    ~ usedIgnoringCase (Some ["CAT"%string]) w.
Proof.
  destruct (selected_word_avoids_used_words (1 # 64) history_cat_as_bat
              (Some ["CAT"%string]) (Some easy) random_one_64th)
    as (w & Hw & _ & _ & _ & Hun).
  exists w. split; [exact Hw|]. apply Hun. exists "dog"%string. split.
  - vm_compute. right. left. reflexivity.
  - intros (u & [<- | []] & E). discriminate E.
Defined.




End Selection.

(** * Further properties of the engine

    ** Objects keep their keys apart *)

Section UniqueKeys.

Context {V : Type}.

Lemma set_keys (o : object V) (k : ascii) (v : V) :
  map fst (set o k v) = if has_key o k then map fst o else map fst o ++ [k].
Proof.
  unfold has_key. induction o as [|[k' v'] o IH]; simpl; [reflexivity|].
  destruct (Ascii.eqb_spec k' k) as [-> | Hne]; simpl; [reflexivity|].
  rewrite IH. destruct (get o k); reflexivity.
Qed.

Lemma unique_keys_set (o : object V) (k : ascii) (v : V) :
  unique_keys o -> unique_keys (set o k v).
Proof.
  unfold unique_keys. intros H. rewrite set_keys.
  destruct (has_key o k) eqn:E; [exact H|].
  apply NoDup_app; [exact H | repeat constructor; intros [] |].
  intros a Ha [<- | []]. apply get_In_fst in Ha. congruence.
Qed.

Lemma keys_NoDup (o : object V) : unique_keys o -> NoDup (keys o).
Proof.
  intros H. unfold keys. apply NoDup_app.
  - apply NoDup_filter. unfold digits.
    repeat (constructor; [simpl; intuition discriminate|]). constructor.
  - apply NoDup_filter. exact H.
  - intros a Ha Hb. apply filter_In in Ha, Hb. destruct Ha as [Ha _], Hb as [_ Hb].
    apply is_index_key_digits in Ha. rewrite Ha in Hb. discriminate.
Qed.

Lemma entries_In (o : object V) (k : ascii) (v : V) :
  In (k, v) (entries o) -> get o k = Some v.
Proof.
  unfold entries. rewrite in_flat_map. intros (k' & _ & H).
  destruct (get o k') as [v'|] eqn:E; [|contradiction].
  destruct H as [[= <- <-] | []]. exact E.
Qed.

End UniqueKeys.

Lemma unique_keys_bump (o : object Z) (k : ascii) (w : Z) :
  unique_keys o -> unique_keys (bump o k w).
Proof. apply unique_keys_set. Qed.

(** ** What the counting loop keeps true *)

Section CountsInvariant.

Lemma same_char_false_neq (t uc : ascii) :
  same_char (Some t) (Some uc) = false -> uc <> t.
Proof.
  simpl. intros H ->. now rewrite Ascii.eqb_refl in H.
Qed.

Lemma countPosition_invariant (t : ascii) (u : option ascii) (c : LetterCounts) :
  counts_invariant c -> counts_invariant (countPosition t u c).
Proof.
  intros (Ue & Uo & Uc & Pe & Po & Hc). unfold countPosition.
  destruct (same_char (Some t) u) eqn:E; unfold counts_invariant; cbn [letterErrorCounts letterOkCounts confusionMap].
  - split; [exact Ue|]. split; [now apply unique_keys_set|]. split; [exact Uc|].
    split; [exact Pe|]. split; [|exact Hc].
    apply (positive_values_bump _ _ 1 Po). lia.
  - fold (bump (letterErrorCounts c) t 1).
    assert (Pe' : positive_values (bump (letterErrorCounts c) t 1))
      by (apply positive_values_bump; [exact Pe | lia]).
    assert (Hmono : forall t', (get_or_0 (letterErrorCounts c) t' <=
                                get_or_0 (bump (letterErrorCounts c) t 1) t')%Z).
    { intros t'. rewrite get_or_0_bump. destruct (Ascii.eqb t t'); lia. }
    split; [now apply unique_keys_bump|]. split; [exact Uo|].
    destruct u as [uc|].
    + pose proof (same_char_false_neq t uc E) as Hne.
      split; [now apply unique_keys_set|]. split; [exact Pe'|]. split; [exact Po|].
      intros t' inner' Hget.
      destruct (Ascii.eqb_spec t t') as [<- | Htt].
      * rewrite get_set_same in Hget. injection Hget as <-.
        set (inner0 := match get (confusionMap c) t with Some o => o | None => [] end).
        assert (Hinner0 : unique_keys inner0 /\
                          forall u v, get inner0 u = Some v ->
                            u <> t /\ (0 < v <= get_or_0 (letterErrorCounts c) t)%Z).
        { unfold inner0. destruct (get (confusionMap c) t) as [o|] eqn:Eo.
          - exact (Hc t o Eo).
          - split; [constructor | intros u v; discriminate]. }
        destruct Hinner0 as [Ui Hi].
        split; [now apply unique_keys_set|].
        intros u v Hv. rewrite get_or_0_bump, Ascii.eqb_refl.
        destruct (Ascii.eqb_spec uc u) as [<- | Hu].
        -- rewrite get_set_same in Hv. injection Hv as <-.
           split; [exact Hne|].
           unfold get_or_0 at 1 2. destruct (get inner0 uc) as [v0|] eqn:Ev0.
           ++ destruct (Hi uc v0 Ev0) as [_ Hb]. lia.
           ++ pose proof (positive_values_get_or_0 _ t Pe). lia.
        -- rewrite get_set_other in Hv by assumption.
           destruct (Hi u v Hv) as [Hut Hb]. split; [exact Hut | lia].
      * rewrite get_set_other in Hget by assumption.
        destruct (Hc t' inner' Hget) as [Ui Hi]. split; [exact Ui|].
        intros u v Hv. destruct (Hi u v Hv) as [Hut Hb].
        split; [exact Hut|]. specialize (Hmono t'). lia.
    + split; [exact Uc|]. split; [exact Pe'|]. split; [exact Po|].
      intros t' inner' Hget. destruct (Hc t' inner' Hget) as [Ui Hi].
      split; [exact Ui|]. intros u v Hv. destruct (Hi u v Hv) as [Hut Hb].
      split; [exact Hut|]. specialize (Hmono t'). lia.
Qed.

Lemma countAttempt_invariant (c : LetterCounts) (item : Attempt) :
  counts_invariant c -> counts_invariant (countAttempt c item).
Proof.
  unfold countAttempt.
  generalize (seq 0 (Nat.max (String.length (toLowerCase (word item)))
                             (String.length (toLowerCase (input item))))).
  intros ps. revert c. induction ps as [|i ps IH]; intros c H; [exact H|].
  cbn [fold_left]. apply IH.
  destruct (char_at (toLowerCase (word item)) i); [|exact H].
  now apply countPosition_invariant.
Qed.

Lemma countLetters_invariant (all : list Attempt) : counts_invariant (countLetters all).
Proof.
  unfold countLetters.
  assert (G : forall c, counts_invariant c -> counts_invariant (fold_left countAttempt all c)).
  { induction all as [|item all IH]; intros c H; [exact H|].
    cbn [fold_left]. apply IH. now apply countAttempt_invariant. }
  apply G. unfold counts_invariant, noCounts, unique_keys, positive_values. simpl.
  repeat split; try constructor; intros; discriminate.
Qed.

End CountsInvariant.

(** ** Ranked letters and confusion patterns *)

Section RankedLetters.

Lemma descending_ext (k1 k2 : ascii -> Z) (l : list ascii) :
  (forall c, k1 c = k2 c) -> descending k1 l -> descending k2 l.
Proof.
  intros Hk H. unfold descending in *. induction H as [|a l Hl IH Ha]; constructor.
  - exact IH.
  - rewrite Forall_forall in *. intros x Hx. specialize (Ha x Hx). cbv beta in *.
    now rewrite <- !Hk.
Qed.

Lemma firstn_incl {A} (n : nat) (l : list A) (x : A) : In x (firstn n l) -> In x l.
Proof.
  revert l. induction n as [|n IH]; intros [|y l]; simpl; try tauto.
  intros [-> | H]; [now left | right; now apply IH].
Qed.

Lemma problematicLetters_iff (r : number) (all : list Attempt) (c : ascii) :
  In c (problematicLetters (analyzeResultsLocally r all)) <-> (0 < errorCount all c)%Z.
Proof.
  destruct (countLetters_spec all c) as [He _].
  destruct (countLetters_positive all) as [Pe _].
  cbn [problematicLetters analyzeResultsLocally].
  rewrite sort_desc_In, keys_spec, (has_key_positive _ _ Pe), He. reflexivity.
Qed.

(** The problematic letters are listed once each, by descending number of
    errors; the strengths once each, by descending number of correct
    occurrences. *)
Theorem letters_are_ranked (r : number) (all : list Attempt) :
  let res := analyzeResultsLocally r all in
  descending (errorCount all) (problematicLetters res) /\
  NoDup (problematicLetters res) /\
  descending (okCount all) (strengths res) /\
  NoDup (strengths res).
Proof.
  cbv zeta. cbn [problematicLetters strengths analyzeResultsLocally].
  destruct (countLetters_invariant all) as (Ue & Uo & _).
  set (counts := countLetters all) in *.
  split; [|split; [|split]].
  - apply (descending_ext (get_or_0 (letterErrorCounts counts))).
    + intros c. apply countLetters_spec.
    + apply sort_desc_sorted.
  - eapply Permutation_NoDup; [apply sort_desc_perm|]. now apply keys_NoDup.
  - apply (descending_ext (get_or_0 (letterOkCounts counts))).
    + intros c. apply countLetters_spec.
    + apply sort_desc_sorted.
  - eapply Permutation_NoDup; [apply sort_desc_perm|].
    apply NoDup_filter. now apply keys_NoDup.
Qed.

Lemma patternsOf_In (cm : object (object Z)) (target : ascii) (p : ConfusionPattern) :
  In p (patternsOf cm target) ->
  with_ p = target /\ confuses p <> target /\
  exists inner, get cm target = Some inner /\
                get inner (confuses p) = Some (frequency p).
Proof.
  unfold patternsOf. destruct (get cm target) as [inner|] eqn:E; [|contradiction].
  rewrite in_flat_map. intros ([u v] & He & Hp). cbn [fst] in Hp.
  destruct (Ascii.eqb_spec u target) as [-> | Hne]; [contradiction|].
  destruct Hp as [<- | []]. cbn [with_ confuses frequency].
  apply firstn_incl, sort_desc_In, entries_In in He.
  split; [reflexivity|]. split; [exact Hne|].
  exists inner. split; [reflexivity|]. unfold get_or_0. now rewrite He.
Qed.

Lemma flat_map_length_le {A B} (f : A -> list B) (l : list A) :
  (forall x, (List.length (f x) <= 1)%nat) ->
  (List.length (flat_map f l) <= List.length l)%nat.
Proof.
  intros H. induction l as [|x l IH]; simpl; [lia|].
  rewrite length_app. specialize (H x). lia.
Qed.

Lemma patternsOf_length (cm : object (object Z)) (target : ascii) :
  (List.length (patternsOf cm target) <= 2)%nat.
Proof.
  unfold patternsOf. destruct (get cm target) as [inner|]; [|simpl; lia].
  pose proof (firstn_le_length 2 (sort_desc snd (entries inner))) as H.
  unfold slice_first.
  etransitivity; [apply flat_map_length_le | exact H].
  intros e. destruct (Ascii.eqb (fst e) target); simpl; lia.
Qed.

Lemma filter_none {A} (f : A -> bool) (l : list A) :
  (forall x, In x l -> f x = false) -> filter f l = [].
Proof.
  induction l as [|x l IH]; intros H; [reflexivity|].
  simpl. rewrite (H x) by now left. apply IH. intros y Hy. apply H. now right.
Qed.

Lemma patternsAbout_other (cm : object (object Z)) (target : ascii) (ks : list ascii) :
  ~ In target ks -> patternsAbout target (flat_map (patternsOf cm) ks) = [].
Proof.
  intros Hn. apply filter_none. intros p Hp.
  apply in_flat_map in Hp. destruct Hp as (k & Hk & Hp).
  apply patternsOf_In in Hp. destruct Hp as (Hw & _).
  destruct (Ascii.eqb_spec (with_ p) target) as [E | _]; [|reflexivity].
  exfalso. apply Hn. congruence.
Qed.

Lemma patternsAbout_length (cm : object (object Z)) (target : ascii) (ks : list ascii) :
  NoDup ks ->
  (List.length (patternsAbout target (flat_map (patternsOf cm) ks)) <= 2)%nat.
Proof.
  intros Hnd. induction Hnd as [|k ks Hk Hnd IH]; [simpl; lia|].
  cbn [flat_map]. unfold patternsAbout in *. rewrite filter_app, length_app.
  destruct (Ascii.eqb_spec k target) as [-> | Hne].
  - fold (patternsAbout target (flat_map (patternsOf cm) ks)).
    rewrite (patternsAbout_other cm target ks Hk). simpl.
    pose proof (filter_length_le (fun p => Ascii.eqb (with_ p) target)
                  (patternsOf cm target)).
    pose proof (patternsOf_length cm target). lia.
  - rewrite (filter_none _ (patternsOf cm k)); [simpl; exact IH|].
    intros p Hp. apply patternsOf_In in Hp. destruct Hp as (Hw & _).
    destruct (Ascii.eqb_spec (with_ p) target); [congruence | reflexivity].
Qed.

(** Every confusion pattern is about a problematic letter, names a
    different letter as the one typed, and has a frequency between 1 and
    the number of errors of its target letter.  No target letter has more
    than two patterns. *)
Theorem confusion_patterns_are_sound (r : number) (all : list Attempt) :
  let res := analyzeResultsLocally r all in
  (forall p, In p (confusionPatterns res) ->
     In (with_ p) (problematicLetters res) /\
     confuses p <> with_ p /\
     (1 <= frequency p <= errorCount all (with_ p))%Z) /\
  (forall target,
     (List.length (patternsAbout target (confusionPatterns res)) <= 2)%nat).
Proof.
  cbv zeta. split.
  - intros p Hp. cbn [confusionPatterns analyzeResultsLocally] in Hp.
    apply in_flat_map in Hp. destruct Hp as (target & _ & Hp).
    apply patternsOf_In in Hp. destruct Hp as (Hw & Hne & inner & Hget & Hfreq).
    destruct (countLetters_invariant all) as (_ & _ & _ & _ & _ & Hc).
    destruct (Hc target inner Hget) as [_ Hi].
    destruct (Hi _ _ Hfreq) as [_ Hb].
    destruct (countLetters_spec all target) as [He _]. rewrite He in Hb.
    rewrite Hw. split; [|split].
    + apply problematicLetters_iff. lia.
    + exact Hne.
    + lia.
  - intros target. cbn [confusionPatterns analyzeResultsLocally].
    apply patternsAbout_length. apply keys_NoDup.
    now destruct (countLetters_invariant all) as (_ & _ & Uc & _).
Qed.

Lemma confusion_patterns_of_cat :
  In "c"%char (problematicLetters
                 (analyzeResultsLocally 0 (catHistory (fun _ => None) (fun _ => None)))).
Proof.
  apply (confusion_patterns_are_sound 0 (catHistory (fun _ => None) (fun _ => None)))
    with (p := {| confuses := "b"; with_ := "c"; frequency := 1 |}).
  vm_compute. left. reflexivity.
Defined.


Lemma confusionPatterns_target_has_errors (r : number) (all : list Attempt)
    (p : ConfusionPattern) :
  In p (confusionPatterns (analyzeResultsLocally r all)) ->
  (0 < errorCount all (with_ p))%Z.
Proof.
  intros Hp. cbn [confusionPatterns analyzeResultsLocally] in Hp.
  apply in_flat_map in Hp. destruct Hp as (target & _ & Hp).
  apply patternsOf_In in Hp. destruct Hp as (Hw & _ & inner & Hget & Hfreq).
  destruct (countLetters_invariant all) as (_ & _ & _ & _ & _ & Hc).
  destruct (Hc target inner Hget) as [_ Hi].
  destruct (Hi _ _ Hfreq) as [_ Hb].
  destruct (countLetters_spec all target) as [He _]. rewrite He in Hb.
  rewrite Hw. lia.
Qed.

End RankedLetters.

(** ** Attempts that carry no error *)

Section NoError.

Lemma get_Some_lt (s : string) (i : nat) (c : ascii) :
  String.get i s = Some c -> (i < String.length s)%nat.
Proof.
  revert i. induction s as [|a s IH]; intros i H; [discriminate|].
  destruct i as [|i]; simpl in *; [lia|]. apply IH in H. lia.
Qed.

Lemma errorAt_extension (target extra : string) (c : ascii) (i : nat) :
  errorAt target (target ++ extra) c i = false.
Proof.
  unfold errorAt, char_at. destruct (String.get i target) as [t|] eqn:E; [|reflexivity].
  rewrite <- (append_correct1 target extra i) by (eapply get_Some_lt; eauto).
  rewrite E. simpl. rewrite Ascii.eqb_refl. apply andb_false_r.
Qed.

Lemma errorsIn_extension (item : Attempt) (c : ascii) :
  extendsWord item -> errorsIn item c = 0%Z.
Proof.
  intros [extra E]. unfold errorsIn. rewrite E.
  rewrite filter_none; [reflexivity|]. intros i _. apply errorAt_extension.
Qed.

Lemma sumZ_zero {A} (f : A -> Z) (l : list A) :
  (forall x, In x l -> f x = 0%Z) -> sumZ (map f l) = 0%Z.
Proof.
  induction l as [|x l IH]; intros H; [reflexivity|].
  simpl. rewrite (H x) by now left. rewrite IH; [reflexivity|].
  intros y Hy. apply H. now right.
Qed.

Lemma no_member_nil {A} (l : list A) : (forall x, ~ In x l) -> l = [].
Proof. destruct l as [|x l]; [reflexivity|]. intros H. destruct (H x). now left. Qed.

(** For ASCII words and inputs: when every typed word begins with its
    target word, up to case, no letter is blamed, whatever the attempts are
    marked: characters typed beyond the end of the word are not scored.
    The analysis has no problematic letter and no confusion pattern, and
    the selector has no problem letter. *)
Theorem extra_characters_are_not_scored (r : number) (all : list Attempt) :
  (forall item, In item all ->
     asciiText (word item) /\ asciiText (input item) /\ extendsWord item) ->
  let res := analyzeResultsLocally r all in
  problematicLetters res = [] /\
  confusionPatterns res = [] /\
  focusLetters (getProblemLetterScores all) = [].
Proof.
  intros H0 res.
  assert (H : forall item, In item all -> extendsWord item).
  { intros item Hi. exact (proj2 (proj2 (H0 item Hi))). }
  assert (Herr : forall c, errorCount all c = 0%Z).
  { intros c. unfold errorCount. apply sumZ_zero.
    intros item Hi. apply errorsIn_extension. now apply H. }
  split; [|split].
  - apply no_member_nil. intros c Hc. apply problematicLetters_iff in Hc.
    rewrite Herr in Hc. lia.
  - apply no_member_nil. intros p Hp.
    apply confusionPatterns_target_has_errors in Hp. rewrite Herr in Hp. lia.
  - apply no_member_nil. intros c Hc.
    apply (proj1 (focusLetters_spec all)) in Hc.
    unfold letterScore in Hc. rewrite sumZ_zero in Hc; [lia|].
    intros ii Hii. destruct (correct (snd ii)); [reflexivity|].
    rewrite errorsIn_extension; [lia|]. apply H.
    destruct ii as [i item]. eapply in_combine_r; eauto.
Qed.

Lemma extra_characters_cats :
  problematicLetters (analyzeResultsLocally 0 [attemptOn "cat" "CATS" false 2000 0]) = [].
Proof.
  apply (extra_characters_are_not_scored 0 [attemptOn "cat" "CATS" false 2000 0]).
  intros item [<- | []]. split; [|split].
  - unfold asciiText. simpl. repeat constructor; vm_compute; lia.
  - unfold asciiText. simpl. repeat constructor; vm_compute; lia.
  - exists "s"%string. reflexivity.
Defined.

End NoError.

(** ** Recent accuracy *)

Section RecentAccuracy.

Lemma slice_last_all {A} (n : nat) (l : list A) :
  (List.length l <= n)%nat -> slice_last n l = l.
Proof.
  intros H. unfold slice_last.
  replace (List.length l - n)%nat with 0%nat by lia. reflexivity.
Qed.

(** The recent accuracy of the metrics is an integer between 0 and 100, and
    for at most five attempts it is the overall accuracy. *)
Theorem recentAccuracy_of_short_history (r : number) (all : list Attempt) :
  let res := analyzeResultsLocally r all in
  (0 <= recentAccuracy (performanceMetrics res) <= 100)%Z /\
  ((List.length all <= 5)%nat ->
   recentAccuracy (performanceMetrics res) = overallAccuracy res).
Proof.
  cbv zeta. cbn [recentAccuracy performanceMetrics overallAccuracy analyzeResultsLocally].
  split.
  - unfold recentAccuracyOf. set (w := slice_last 5 all).
    destruct (Nat.ltb_spec 0 (List.length w)) as [Hw | _]; [|vm_compute; split; discriminate].
    destruct (percent_range (List.length (filter correct w)) (List.length w)) as [H0 H1];
      [apply filter_length_le | exact Hw |].
    now apply Math_round_range.
  - intros H. unfold recentAccuracyOf, accuracyPercent, correctWords.
    rewrite (slice_last_all 5 all H).
    destruct (0 <? List.length all)%nat; reflexivity.
Qed.

Lemma recentAccuracy_of_cat :
  recentAccuracy
    (performanceMetrics
       (analyzeResultsLocally 0 (catHistory (fun _ => None) (fun _ => None)))) = 60%Z.
Proof.
  destruct (recentAccuracy_of_short_history 0
              (catHistory (fun _ => None) (fun _ => None))) as [_ H].
  rewrite H; [vm_compute; reflexivity | simpl; lia].
Defined.

End RecentAccuracy.

(** ** Problem letters of the selector and of the analysis *)

Section FocusAndProblematic.

Lemma map_snd_combine_seq {A} (l : list A) (start : nat) :
  map snd (combine (seq start (List.length l)) l) = l.
Proof.
  revert start. induction l as [|x l IH]; intros start; [reflexivity|].
  simpl. now rewrite IH.
Qed.

Lemma errorsIn_nonneg (item : Attempt) (c : ascii) : (0 <= errorsIn item c)%Z.
Proof. unfold errorsIn. lia. Qed.

Lemma recencyWeight_range (n i : nat) : (1 <= recencyWeight n i <= 2)%Z.
Proof. unfold recencyWeight. destruct (n - 3 <=? i)%nat; lia. Qed.

Lemma letterScore_bounds (h : list Attempt) (c : ascii) :
  (0 <= letterScore h c <= 2 * errorCount h c)%Z.
Proof.
  unfold letterScore, errorCount.
  assert (E : map (fun item => errorsIn item c) h =
              map (fun ii => errorsIn (snd ii) c) (combine (seq 0 (List.length h)) h)).
  { rewrite <- (map_snd_combine_seq h 0) at 1. now rewrite map_map. }
  rewrite E.
  generalize (combine (seq 0 (List.length h)) h). generalize (List.length h).
  intros n iis. unfold sumZ. induction iis as [|ii iis IH]; cbn [map fold_right]; [lia|].
  pose proof (errorsIn_nonneg (snd ii) c). pose proof (recencyWeight_range n (fst ii)).
  set (e := errorsIn (snd ii) c) in *. set (w := recencyWeight n (fst ii)) in *.
  destruct (correct (snd ii)); nia.
Qed.

(** Every problem letter of the selector is a problematic letter of the
    analysis of the same history, and its score is at most twice its number
    of errors. *)
Theorem focus_letters_are_problematic (r : number) (h : list Attempt) (c : ascii) :
  In c (focusLetters (getProblemLetterScores h)) ->
  In c (problematicLetters (analyzeResultsLocally r h)) /\
  (1 <= letterScore h c <= 2 * errorCount h c)%Z.
Proof.
  intros Hc. apply (proj1 (focusLetters_spec h)) in Hc.
  pose proof (letterScore_bounds h c) as Hb.
  split; [|lia]. apply problematicLetters_iff. lia.
Qed.

Lemma focus_letters_of_cat_as_bat :
  In "c"%char (problematicLetters (analyzeResultsLocally 0 history_cat_as_bat)).
Proof.
  apply (focus_letters_are_problematic 0 history_cat_as_bat "c"%char).
  vm_compute. left. reflexivity.
Defined.

Lemma scores_of_correct_attempts (n : Z) (iis : list (nat * Attempt)) (o : object Z) :
  (forall ii, In ii iis -> correct (snd ii) = true) ->
  fold_left (scoreItem n) iis o = o.
Proof.
  revert o. induction iis as [|ii iis IH]; intros o H; [reflexivity|].
  cbn [fold_left]. unfold scoreItem at 2. rewrite (H ii) by now left.
  apply IH. intros x Hx. apply H. now right.
Qed.

(** A history of correct attempts only gives no problem letter, and the
    selector is then a plain pick: from the unused words of the tier, or
    else from the unused words of the bank, or else from the whole bank. *)
Theorem correct_history_gives_plain_pick (r : number) (h : list Attempt)
    (usedWords : option (list string)) (requestedDifficulty : option Tier) :
  (forall item, In item h -> correct item = true) ->
  getProblemLetterScores h = [] /\
  chooseNextWordWithDifficulty r h usedWords requestedDifficulty =
  pickRandom r (step3Pool usedWords (chosenDifficulty h requestedDifficulty)).
Proof.
  intros H.
  assert (E : getProblemLetterScores h = []).
  { rewrite getProblemLetterScores_fold. apply scores_of_correct_attempts.
    intros [i item] Hi. apply H. eapply in_combine_r; eauto. }
  split; [exact E|].
  rewrite chooseNextWordWithDifficulty_unfold, E, candidatePool_unused.
  unfold step3Pool, selectFrom. cbn [focusLetters keys slice_first firstn].
  destruct (unusedWords usedWords (TYPING_WORDS _)) as [|x xs];
    [destruct (unusedWords usedWords ALL_TYPING_WORDS)|]; reflexivity.
Qed.

Lemma correct_history_pick_example :
  chooseNextWordWithDifficulty (1 # 64) [attemptOn "cat" "cat" true 2000 0]
    (Some ["cat"%string]) (Some easy) = Some "dog"%string.
Proof.
  destruct (correct_history_gives_plain_pick (1 # 64) [attemptOn "cat" "cat" true 2000 0]
              (Some ["cat"%string]) (Some easy)) as [_ E].
  - intros item [<- | []]. reflexivity.
  - rewrite E. vm_compute. reflexivity.
Defined.

End FocusAndProblematic.

(** ** Picks and the typing endpoints *)

Section Endpoints.

Local Open Scope string_scope.

(** [pickRandom] gives [undefined] for the empty array only; for any other
    array it gives one of its elements. *)
Theorem pickRandom_gives_an_element {A} (r : number) (arr : list A) :
  is_random r -> (Z.of_nat (List.length arr) < 2 ^ 53)%Z ->
  (arr = [] -> pickRandom r arr = None) /\
  (arr <> [] -> exists x, pickRandom r arr = Some x /\ In x arr).
Proof.
  intros Hr Hb. split.
  - intros ->. unfold pickRandom. now destruct (Z.to_nat _).
  - intros Hne. now apply pickRandom_In.
Qed.

Lemma pickRandom_of_three :
  exists x, pickRandom (1 # 64) ["a"; "b"; "c"]%string = Some x /\
            In x ["a"; "b"; "c"]%string.
Proof.
  apply (pickRandom_gives_an_element (1 # 64) ["a"; "b"; "c"]%string random_one_64th).
  - vm_compute. reflexivity.
  - discriminate.
Defined.

(** The initial word is a word of the medium tier, whatever the child; a
    request without one of its three identifiers is refused. *)
Theorem initial_word_is_medium (r : number) (sessionId username therapistCode : option string) :
  is_random r ->
  (missing sessionId || missing username || missing therapistCode = true ->
   generateInitialWord r sessionId username therapistCode =
   Failure 400 "Missing required fields") /\
  (missing sessionId || missing username || missing therapistCode = false ->
   exists body w,
     generateInitialWord r sessionId username therapistCode = Success body /\
     InitialWord.word body = Some w /\ In w (TYPING_WORDS medium) /\
     InitialWord.difficulty body = medium).
Proof.
  intros Hr. unfold generateInitialWord. split; intros ->; [reflexivity|].
  destruct (pickRandom_In r (TYPING_WORDS medium) Hr) as (w & Hw & Hin);
    [discriminate | apply tier_small |].
  eexists. exists w. split; [reflexivity|].
  cbn [InitialWord.word InitialWord.difficulty]. split; [exact Hw|].
  split; [exact Hin | reflexivity].
Qed.

Lemma initial_word_example :
  exists body w,
    generateInitialWord (1 # 64) (Some "s1") (Some "ann") (Some "123456")%string
    = Success body /\
    InitialWord.word body = Some w /\ In w (TYPING_WORDS medium) /\
    InitialWord.difficulty body = medium.
Proof.
  apply (initial_word_is_medium (1 # 64) (Some "s1") (Some "ann") (Some "123456")%string
           random_one_64th).
  reflexivity.
Defined.



Lemma tierNamed_tierName (d : Tier) : tierNamed (tierName d) = Some d.
Proof. destruct d; reflexivity. Qed.

(** Without an array of objects the [try] block of the handler throws. *)
Lemma nextWordBody_throws (r : number) (req : NextWord.request) :
  (forall l, NextWord.typingHistory req <> Array (map Given l)) ->
  exists e, nextWordBody r req = Thrown e.
Proof.
  intros H. unfold nextWordBody.
  destruct (match requestedLevel (NextWord.difficultyLevel req) with
            | Some name => Returned name
            | None => _
            end) as [name | e]; cbn [andThen]; [|now exists e].
  destruct (NextWord.typingHistory req) as [| | b | x | units | items | p] eqn:E;
    cbn [andThen]; try (now exists TypeError).
  unfold readEntries. destruct (attemptsOf items) as [l|] eqn:Ea.
  - exfalso. apply (H l). f_equal. now apply attemptsOf_Some.
  - cbn [andThen]. now exists TypeError.
Qed.

Lemma nextWordBody_array (r : number) (req : NextWord.request) (items : list Attempt) :
  NextWord.typingHistory req = Array (map Given items) ->
  nextWordBody r req =
  match servedDifficulty req items with
  | Some d =>
      Returned
        {| NextWord.word :=
             chooseNextWordWithDifficulty r items
               (Some (map (fun item => toLowerCase (word item)) items)) (Some d);
           NextWord.isAdaptive := true;
           NextWord.difficulty := d;
           NextWord.recentAccuracy := Math_round (lastThreeAccuracy items);
           NextWord.aiInsight := aiInsightOf (lastThreeAccuracy items) |}
  | None => Thrown TypeError
  end.
Proof.
  intros Hh. unfold nextWordBody, servedDifficulty. rewrite Hh.
  rewrite estimateDifficulty_array. unfold readEntries. rewrite attemptsOf_Given.
  destruct (requestedLevel (NextWord.difficultyLevel req)) as [name|]; cbn [andThen].
  - destruct (tierNamed name); reflexivity.
  - rewrite tierNamed_tierName. reflexivity.
Qed.



Lemma aiInsightOf_cases (c n : nat) :
  (c <= n <= 3)%nat ->
  aiInsightOf (if (0 <? n)%nat then mul (div (of_nat c) (of_nat n)) 100 else 0%Q) =
  if ((n =? 0) || (2 * c <=? n))%nat then insightEasier
  else if (c =? n)%nat then insightChallenging
  else insightBalanced.
Proof.
  intros H.
  assert (Hn : n = 0%nat \/ n = 1%nat \/ n = 2%nat \/ n = 3%nat) by lia.
  assert (Hc : c = 0%nat \/ c = 1%nat \/ c = 2%nat \/ c = 3%nat) by lia.
  destruct Hn as [-> | [-> | [-> | ->]]]; destruct Hc as [-> | [-> | [-> | ->]]];
    first [exfalso; lia | vm_compute; reflexivity].
Qed.

(** The insight of the answer depends on the last three attempts only: it
    announces a challenging word exactly when all of them are correct, a
    balanced word exactly when two of three are, and an easier word
    otherwise, whatever the difficulty of the word that is served.  A
    request that is answered has a history without [null] entry. *)
Theorem insight_follows_last_three (r : number) (req : NextWord.request)
    (entries : list entry) (body : NextWord.body) :
  generateNextWord r req = Success body ->
  NextWord.typingHistory req = Array entries ->
  exists items,
    entries = map Given items /\
    let recent := slice_last 3 items in
    let n := List.length recent in
    let c := List.length (filter correct recent) in
    (NextWord.aiInsight body = insightChallenging <-> (0 < n)%nat /\ c = n) /\
    (NextWord.aiInsight body = insightBalanced <-> n = 3%nat /\ c = 2%nat) /\
    (NextWord.aiInsight body = insightEasier <-> n = 0%nat \/ (2 * c <= n)%nat).
Proof.
  intros Hs Hh. unfold generateNextWord in Hs.
  destruct (missing _ || missing _ || missing _ || _); [discriminate|].
  destruct (attemptsOf entries) as [items|] eqn:Ea.
  2:{ exfalso. destruct (nextWordBody_throws r req) as (e & He).
      - intros l E. rewrite Hh in E. injection E as ->.
        rewrite attemptsOf_Given in Ea. discriminate Ea.
      - rewrite He in Hs. discriminate Hs. }
  apply attemptsOf_Some in Ea. subst entries. exists items. split; [reflexivity|].
  intros recent n c.
  rewrite (nextWordBody_array r req items Hh) in Hs.
  destruct (servedDifficulty req items) as [d|]; [|discriminate Hs].
  injection Hs as <-. cbn [NextWord.aiInsight].
  assert (Hn : (n <= 3)%nat).
  { unfold n, recent. rewrite slice_last_length. lia. }
  assert (Hc : (c <= n)%nat) by apply filter_length_le.
  unfold lastThreeAccuracy. fold recent. fold n c.
  rewrite (aiInsightOf_cases c n) by lia.
  destruct (Nat.eqb_spec n 0) as [E0 | E0]; cbn [orb].
  - repeat split; try discriminate; try lia; auto.
  - destruct (Nat.leb_spec (2 * c) n) as [E1 | E1].
    + repeat split; try discriminate; try lia; auto.
    + destruct (Nat.eqb_spec c n) as [E2 | E2].
      * repeat split; try discriminate; try lia; auto.
      * repeat split; try discriminate; try lia; auto.
Qed.

Lemma insight_example :
  NextWord.aiInsight
    {| NextWord.word := Some "thick"; NextWord.isAdaptive := true;
       NextWord.difficulty := hard; NextWord.recentAccuracy := 0;
       NextWord.aiInsight := insightEasier |} = insightEasier.
Proof.
  destruct (insight_follows_last_three (1 # 64)
              {| NextWord.sessionId := Some "s1"; NextWord.username := Some "ann";
                 NextWord.therapistCode := Some "123456";
                 NextWord.typingHistory := Array (map Given history_cat_as_bat);
                 NextWord.difficultyLevel := Some "hard" |}
              (map Given history_cat_as_bat)
              {| NextWord.word := Some "thick"; NextWord.isAdaptive := true;
                 NextWord.difficulty := hard; NextWord.recentAccuracy := 0;
                 NextWord.aiInsight := insightEasier |})
    as (items & E & _ & _ & H).
  - vm_compute. reflexivity.
  - reflexivity.
  - apply (f_equal attemptsOf) in E. rewrite !attemptsOf_Given in E.
    injection E as <-. apply H. right. vm_compute. lia.
Defined.




End Endpoints.

(** ** The estimate of the game and the estimate of the server *)

Section ClientEstimate.

Local Open Scope Q_scope.

Lemma slice_last_map {A B} (f : A -> B) (n : nat) (l : list A) :
  slice_last n (map f l) = map f (slice_last n l).
Proof. unfold slice_last. now rewrite length_map, skipn_map. Qed.

Lemma filter_correct_entries (w : list Entry) :
  List.length (filter correct (map attemptOfEntry w)) =
  List.length (filter entryCorrect w).
Proof.
  induction w as [|e w IH]; [reflexivity|].
  simpl. destruct (entryCorrect e); simpl; now rewrite IH.
Qed.

Lemma sum_by_entries (f : Attempt -> number) (g : Entry -> number) (w : list Entry) :
  (forall e, In e w -> f (attemptOfEntry e) = g e) ->
  sum_by f (map attemptOfEntry w) = sumEntries g w.
Proof.
  unfold sum_by, sumEntries. generalize 0.
  induction w as [|e w IH]; intros acc H; [reflexivity|].
  simpl. rewrite (H e) by now left. apply IH. intros x Hx. apply H. now right.
Qed.

Ltac same_estimate :=
  split; [split; intros Hd; exact Hd|];
  split; [intros Hd; first [exact Hd | reflexivity]|];
  split; [intros Hd; first [exact Hd | reflexivity | discriminate Hd]|];
  intros Hd; exfalso; apply Hd; reflexivity.

(** The game and the server agree on [hard]; whenever the game says [easy]
    so does the server; when they differ the server says [easy] and the
    game [medium], and the average time exceeds 8000 (entries with a time
    of zero apart, which the server counts as 5000). *)
Theorem game_and_server_estimates (entries : list Entry) :
  (forall e, In e (slice_last 5 entries) -> entryTimeSpent e <> 0%Z) ->
  let client := calculateDifficulty entries in
  let server := calculateAdaptiveDifficulty (map attemptOfEntry entries) in
  (client = hard <-> server = hard) /\
  (client = easy -> server = easy) /\
  (server = medium -> client = medium) /\
  (client <> server ->
   server = easy /\ client = medium /\
   8000 < windowAvgTime (slice_last 5 (map attemptOfEntry entries))).
Proof.
  intros Hnz client server. subst client server.
  unfold calculateDifficulty, calculateAdaptiveDifficulty.
  rewrite length_map. destruct (List.length entries <? 3)%nat.
  { same_estimate. }
  rewrite slice_last_map. set (w := slice_last 5 entries) in *.
  unfold windowAccuracy, windowAvgTime, windowAvgHesitations.
  rewrite filter_correct_entries, length_map.
  rewrite (sum_by_entries (timeSpent_or 5000) (fun r => of_Z (entryTimeSpent r))).
  2:{ intros e He. unfold timeSpent_or, attemptOfEntry. cbn [timeSpent].
      destruct (Z.eqb_spec (entryTimeSpent e) 0); [now apply Hnz in He | reflexivity]. }
  rewrite (sum_by_entries hesitations_or_0 (fun r => of_Z (entryHesitations r)))
    by reflexivity.
  set (acc := div _ (of_nat (List.length w))).
  set (avgT := div (sumEntries (fun r => of_Z (entryTimeSpent r)) w) _).
  set (avgH := div (sumEntries (fun r => of_Z (entryHesitations r)) w) _).
  destruct (leb lit_0_8 acc && ltb avgT 5000 && ltb avgH 2).
  { same_estimate. }
  destruct (ltb acc lit_0_5 || ltb 3 avgH) eqn:E1.
  { cbn [orb]. same_estimate. }
  destruct (ltb 8000 avgT) eqn:E2; cbn [orb].
  - split; [split; intros Hd; discriminate Hd|].
    split; [intros Hd; discriminate Hd|].
    split; [intros Hd; discriminate Hd|].
    intros _. split; [reflexivity|]. split; [reflexivity|].
    apply ltb_iff. exact E2.
  - same_estimate.
Qed.

Lemma game_and_server_differ_on_slow_entries :
  calculateAdaptiveDifficulty (map attemptOfEntry slowCorrectEntries) = easy /\
  calculateDifficulty slowCorrectEntries = medium /\
  8000 < windowAvgTime (slice_last 5 (map attemptOfEntry slowCorrectEntries)).
Proof.
  apply (game_and_server_estimates slowCorrectEntries).
  - intros e He. vm_compute in He.
    repeat (destruct He as [<- | He]; [discriminate|]). contradiction.
  - vm_compute. discriminate.
Defined.

End ClientEstimate.

(** ** Severity, emotional state and advice *)

Section Verdicts.

Local Open Scope Q_scope.

(** The severity and the emotional state of one analysis never contradict
    each other: a struggling state comes with a severe rating, a challenged
    one with a moderate rating, a confident or excelling one with a mild
    rating; the rating is severe exactly below 60, and the empty history is
    rated severe and struggling. *)
Theorem state_and_severity_agree (r : number) (all : list Attempt) :
  let res := analyzeResultsLocally r all in
  (emotionalState res = struggling -> severity res = severe) /\
  (emotionalState res = challenged -> severity res = moderate) /\
  (emotionalState res = confident \/ emotionalState res = excelling ->
   severity res = mild) /\
  (severity res = severe <-> (overallAccuracy res < 60)%Z) /\
  (all = [] -> severity res = severe /\ emotionalState res = struggling).
Proof.
  cbv zeta. cbn [emotionalState severity overallAccuracy analyzeResultsLocally].
  split; [|split; [|split; [|split]]].
  - unfold emotionalStateOf, baseEmotionalState, severityOf.
    destruct (ltb lit_2_5 _ || ltb 7000 _); [discriminate|].
    destruct (_ <? 60)%Z; [reflexivity|].
    destruct (_ <? 80)%Z; [discriminate|]. destruct (90 <=? _)%Z; discriminate.
  - unfold emotionalStateOf, baseEmotionalState, severityOf.
    destruct (ltb lit_2_5 _ || ltb 7000 _); [discriminate|].
    destruct (_ <? 60)%Z; [discriminate|].
    destruct (_ <? 80)%Z; [reflexivity|]. destruct (90 <=? _)%Z; discriminate.
  - unfold emotionalStateOf, baseEmotionalState, severityOf.
    destruct (ltb lit_2_5 _ || ltb 7000 _); [intros [Hd | Hd]; discriminate Hd|].
    destruct (_ <? 60)%Z; [intros [Hd | Hd]; discriminate Hd|].
    destruct (_ <? 80)%Z; [intros [Hd | Hd]; discriminate Hd|]. reflexivity.
  - unfold severityOf.
    destruct (Z.ltb_spec (accuracyPercent all) 60) as [Ha | Ha].
    + split; [intros _; exact Ha | reflexivity].
    + split; [|lia]. destruct (_ <? 80)%Z; discriminate.
  - intros ->. split; vm_compute; reflexivity.
Qed.

Lemma state_and_severity_of_cat_as_bat :
  severity (analyzeResultsLocally 0 history_cat_as_bat) = severe.
Proof.
  destruct (state_and_severity_agree 0 history_cat_as_bat) as (H & _).
  apply H. vm_compute. reflexivity.
Defined.

Lemma short_percent_improves (c n : nat) :
  (c <= n <= 5)%nat ->
  ltb (inject_Z (if (0 <? n)%nat
                 then Math_round (mul (div (of_nat c) (of_nat n)) 100)
                 else 0%Z))
      (if (0 <? n)%nat then mul (div (of_nat c) (of_nat n)) 100 else 0) =
  ((n =? 3) && (c =? 1))%nat.
Proof.
  intros H.
  assert (Hn : (n = 0 \/ n = 1 \/ n = 2 \/ n = 3 \/ n = 4 \/ n = 5)%nat) by lia.
  assert (Hc : (c = 0 \/ c = 1 \/ c = 2 \/ c = 3 \/ c = 4 \/ c = 5)%nat) by lia.
  destruct Hn as [-> | [-> | [-> | [-> | [-> | ->]]]]];
    destruct Hc as [-> | [-> | [-> | [-> | [-> | ->]]]]];
    first [exfalso; lia | vm_compute; reflexivity].
Qed.

(** In a history of at most five attempts the recent attempts are all the
    attempts, and yet the analysis reports an improvement in one case: one
    correct attempt of three, where the recent accuracy 33.33 is compared
    with the rounded overall accuracy 33. *)
Theorem isImproving_of_short_history (r : number) (all : list Attempt) :
  (List.length all <= 5)%nat ->
  (isImproving (performanceMetrics (analyzeResultsLocally r all)) = true <->
   List.length all = 3%nat /\ correctWords all = 1%nat).
Proof.
  intros Hl. cbn [isImproving performanceMetrics analyzeResultsLocally].
  unfold recentAccuracyOf, accuracyPercent. rewrite (slice_last_all 5 all Hl).
  fold (correctWords all).
  assert (Hc : (correctWords all <= List.length all)%nat) by apply filter_length_le.
  rewrite (short_percent_improves (correctWords all) (List.length all)) by lia.
  rewrite andb_true_iff, !Nat.eqb_eq. reflexivity.
Qed.

Lemma isImproving_one_of_three :
  isImproving
    (performanceMetrics
       (analyzeResultsLocally 0
          [attemptOn "cat" "cat" true 2000 0; attemptOn "dog" "bog" false 2000 0;
           attemptOn "sun" "son" false 2000 0])) = true.
Proof.
  apply isImproving_of_short_history; [simpl; lia|]. split; reflexivity.
Defined.

(** A frustrated state is never left without advice that answers its
    cause: the recommendations then contain the advice on hesitation or the
    advice to take time. *)
Theorem frustration_is_addressed (r : number) (all : list Attempt) :
  let res := analyzeResultsLocally r all in
  emotionalState res = frustrated ->
  In adviceVisualCards (recommendations res) \/ In adviceNoRush (recommendations res).
Proof.
  cbv zeta. cbn [emotionalState recommendations analyzeResultsLocally].
  unfold emotionalStateOf, recommendationsOf.
  set (avgHes := meanHesitations all). set (avgTime := meanTimeSpent all).
  destruct (ltb lit_2_5 avgHes) eqn:E1.
  - intros _. left. apply in_concat.
    exists (when (ltb 2 avgHes) [adviceVisualCards;
              "💝 Practice in shorter, more frequent sessions"%string]).
    split; [right; right; left; reflexivity|].
    assert (E : ltb 2 avgHes = true).
    { apply ltb_iff. apply ltb_iff in E1. unfold lit_2_5 in E1.
      apply Qlt_trans with (2 := E1). reflexivity. }
    rewrite E. left. reflexivity.
  - destruct (ltb 7000 avgTime) eqn:E2.
    + intros _. right. apply in_concat.
      exists [adviceNoRush]. split; [|left; reflexivity].
      right; right; right; right; left. reflexivity.
    + cbn [orb]. unfold baseEmotionalState.
      destruct (_ <? 60)%Z; [discriminate|].
      destruct (_ <? 80)%Z; [discriminate|]. destruct (90 <=? _)%Z; discriminate.
Qed.

Lemma frustration_of_slow_attempt :
  In adviceVisualCards
     (recommendations (analyzeResultsLocally 0 [attemptOn "cat" "cat" true 9000 0])) \/
  In adviceNoRush
     (recommendations (analyzeResultsLocally 0 [attemptOn "cat" "cat" true 9000 0])).
Proof.
  apply (frustration_is_addressed 0 [attemptOn "cat" "cat" true 9000 0]).
  vm_compute. reflexivity.
Defined.

Lemma messages_tell_the_state (s1 s2 : EmotionalState) (m : string) :
  In m (messages s1) -> In m (messages s2) -> s1 = s2.
Proof.
  destruct s1, s2; try reflexivity; cbn [messages In];
    intros [<- | [<- | [<- | []]]] [H | [H | [H | []]]];
    exfalso; revert H; apply String.eqb_neq; vm_compute; reflexivity.
Qed.

(** The encouragement is always one of the three messages of the emotional
    state, and no message belongs to two states: two analyses with the same
    encouragement have the same emotional state. *)
Theorem encouragement_tells_the_state (r1 r2 : number) (h1 h2 : list Attempt) :
  is_random r1 -> is_random r2 ->
  let a1 := analyzeResultsLocally r1 h1 in
  let a2 := analyzeResultsLocally r2 h2 in
  (exists m, encouragement a1 = Some m /\ In m (messages (emotionalState a1))) /\
  (encouragement a1 = encouragement a2 -> emotionalState a1 = emotionalState a2).
Proof.
  intros H1 H2. cbv zeta. cbn [encouragement emotionalState analyzeResultsLocally].
  set (s1 := emotionalStateOf _ _ _). set (s2 := emotionalStateOf _ _ _).
  destruct (getEncouragementMessage_In r1 s1 (accuracyPercent h1) H1) as (m1 & E1 & I1).
  destruct (getEncouragementMessage_In r2 s2 (accuracyPercent h2) H2) as (m2 & E2 & I2).
  split; [exists m1; split; assumption|].
  rewrite E1, E2. intros E. injection E as ->.
  exact (messages_tell_the_state s1 s2 m2 I1 I2).
Qed.

Lemma encouragement_of_cat_as_bat :
  exists m,
    encouragement (analyzeResultsLocally 0 history_cat_as_bat) = Some m /\
    In m (messages struggling).
Proof.
  refine (proj1 (encouragement_tells_the_state 0 0 history_cat_as_bat
                   history_cat_as_bat _ _)); vm_compute; split; discriminate.
Defined.

End Verdicts.

(** ** The dominant emotion *)

Section DominantEmotion.

Local Open Scope string_scope.
Local Open Scope Z_scope.

Lemma dict_get_set_same {V} (o : Dict.t V) (k : string) (v : V) :
  Dict.get (Dict.set o k v) k = Some v.
Proof.
  induction o as [|[k' v'] o IH]; simpl.
  - now rewrite String.eqb_refl.
  - destruct (String.eqb k' k) eqn:E; simpl.
    + now rewrite String.eqb_refl.
    + now rewrite E.
Qed.

Lemma dict_get_set_other {V} (o : Dict.t V) (k k' : string) (v : V) :
  k <> k' -> Dict.get (Dict.set o k v) k' = Dict.get o k'.
Proof.
  intros Hne. induction o as [|[k0 v0] o IH]; simpl.
  - destruct (String.eqb_spec k k'); [contradiction | reflexivity].
  - destruct (String.eqb_spec k0 k) as [-> | Hk]; simpl.
    + destruct (String.eqb_spec k k'); [contradiction | reflexivity].
    + destruct (String.eqb_spec k0 k'); [reflexivity | exact IH].
Qed.

Lemma dict_set_keys {V} (o : Dict.t V) (k : string) (v : V) :
  map fst (Dict.set o k v) =
  if in_dec string_dec k (map fst o) then map fst o else (map fst o ++ [k])%list.
Proof.
  induction o as [|[k0 v0] o IH]; [reflexivity|].
  simpl. destruct (String.eqb_spec k0 k) as [-> | Hk]; simpl.
  - destruct (string_dec k k); [reflexivity | contradiction].
  - rewrite IH. destruct (string_dec k0 k); [contradiction|].
    destruct (in_dec string_dec k (map fst o)); reflexivity.
Qed.

Lemma dict_set_NoDup {V} (o : Dict.t V) (k : string) (v : V) :
  NoDup (map fst o) -> NoDup (map fst (Dict.set o k v)).
Proof.
  intros H. rewrite dict_set_keys.
  destruct (in_dec string_dec k (map fst o)) as [Hin | Hin]; [exact H|].
  apply NoDup_app; [exact H | constructor; [intros [] | constructor] |].
  intros x Hx [<- | []]. contradiction.
Qed.

Lemma dict_In_get {V} (o : Dict.t V) (k : string) (v : V) :
  NoDup (map fst o) -> In (k, v) o -> Dict.get o k = Some v.
Proof.
  induction o as [|[k0 v0] o IH]; intros Hn Hin; [contradiction|].
  simpl in Hn. inversion Hn as [|? ? Hnot Hn']; subst. simpl.
  destruct Hin as [E | Hin].
  - injection E as -> ->. now rewrite String.eqb_refl.
  - destruct (String.eqb_spec k0 k) as [-> | Hk]; [|now apply IH].
    exfalso. apply Hnot. apply in_map_iff. now exists (k, v).
Qed.

Lemma dict_get_keys {V} (o : Dict.t V) (k : string) :
  In k (map fst o) <-> Dict.get o k <> None.
Proof.
  induction o as [|[k0 v0] o IH]; simpl.
  - split; [intros [] | intros H; now apply H].
  - destruct (String.eqb_spec k0 k) as [-> | Hk].
    + split; [discriminate | now left].
    + rewrite <- IH. split; [intros [E | H]; [contradiction | exact H] | now right].
Qed.

Lemma dict_entries_In {V} (o : Dict.t V) (e : string * V) :
  In e (Dict.entries o) <-> In e o.
Proof.
  unfold Dict.entries. rewrite in_app_iff, sort_desc_In, !filter_In.
  destruct (Dict.is_array_index (fst e)); simpl.
  - split; [intros [[H _] | [_ H]]; [exact H | discriminate] | intros H; left; now split].
  - split; [intros [[_ H] | [H _]]; [discriminate | exact H] | intros H; right; now split].
Qed.

(** What the counting loop keeps true, from any object of counts. *)
Lemma countEmotion_invariant (buffer : list string) :
  forall counts : Dict.t Z,
    NoDup (map fst counts) ->
    let counts' := fold_left countEmotion buffer counts in
    NoDup (map fst counts') /\
    (forall k, Dict.get_or_0 counts' k = Dict.get_or_0 counts k + occurrences k buffer) /\
    (forall k, In k (map fst counts') <-> In k (map fst counts) \/ In k buffer).
Proof.
  induction buffer as [|e buffer IH]; intros counts Hn; cbv zeta.
  - simpl. split; [exact Hn|]. split; [intros k; unfold occurrences; simpl; lia|].
    intros k. split; [now left | intros [H | []]; exact H].
  - simpl fold_left.
    destruct (IH (countEmotion counts e)) as (H1 & H2 & H3).
    { now apply dict_set_NoDup. }
    split; [exact H1|]. split.
    + intros k. rewrite H2. unfold occurrences. simpl count_occ.
      unfold countEmotion, Dict.get_or_0 at 1.
      destruct (string_dec e k) as [-> | Hne].
      * rewrite dict_get_set_same. fold (Dict.get_or_0 counts k). lia.
      * rewrite dict_get_set_other by exact Hne. fold (Dict.get_or_0 counts k). lia.
    + intros k. rewrite H3. unfold countEmotion. rewrite dict_set_keys.
      destruct (in_dec string_dec e (map fst counts)) as [Hin | Hin].
      * split.
        -- intros [H | H]; [now left | right; now right].
        -- intros [H | [<- | H]]; [now left | now left | now right].
      * rewrite in_app_iff. split.
        -- intros [[H | [<- | []]] | H];
             [now left | right; now left | right; now right].
        -- intros [H | [<- | H]];
             [left; now left | left; right; now left | now right].
Qed.

Lemma emotionCounts_spec (buffer : list string) (k : string) (v : Z) :
  In (k, v) (emotionCounts buffer) <-> In k buffer /\ v = occurrences k buffer.
Proof.
  destruct (countEmotion_invariant buffer [] (NoDup_nil _)) as (H1 & H2 & H3).
  fold (emotionCounts buffer) in H1, H2, H3. split.
  - intros Hin. split.
    + apply (in_map fst) in Hin. apply H3 in Hin. destruct Hin as [[] | H]. exact H.
    + specialize (H2 k). unfold Dict.get_or_0 at 1 in H2.
      rewrite (dict_In_get _ _ _ H1 Hin) in H2. exact H2.
  - intros [Hin ->]. assert (Hk : In k (map fst (emotionCounts buffer))).
    { apply H3. now right. }
    apply in_map_iff in Hk. destruct Hk as ([k' v'] & E & Hk). simpl in E. subst k'.
    specialize (H2 k). unfold Dict.get_or_0 at 1 in H2.
    rewrite (dict_In_get _ _ _ H1 Hk) in H2. simpl in H2. now rewrite <- H2.
Qed.

Lemma occurrences_nonneg (e : string) (buffer : list string) : 0 <= occurrences e buffer.
Proof. unfold occurrences. lia. Qed.

Lemma occurrences_absent (e : string) (buffer : list string) :
  ~ In e buffer -> occurrences e buffer = 0.
Proof.
  intros H. unfold occurrences.
  now rewrite (proj1 (count_occ_not_In string_dec buffer e) H).
Qed.

(** Without emotions the answer is 404.  Otherwise the answer is an emotion
    of the buffer that no other emotion outnumbers, and the buffer is left
    empty, so that an immediate second request is answered 404. *)
Theorem emotion_is_most_frequent (buffer : list string) :
  apiEmotion [] = (Failure 404 "No emotions recorded for this puzzle yet", []) /\
  (buffer <> [] -> Forall plainKey buffer ->
   exists e,
     apiEmotion buffer = (Success e, []) /\
     In e buffer /\
     (forall e', occurrences e' buffer <= occurrences e buffer) /\
     fst (apiEmotion (snd (apiEmotion buffer))) =
       Failure 404 "No emotions recorded for this puzzle yet").
Proof.
  split; [reflexivity|]. intros Hne _.
  destruct buffer as [|b0 bs]; [congruence|]. set (buffer := b0 :: bs).
  unfold apiEmotion. fold buffer.
  change (match buffer with [] => _ | _ :: _ => ?x end) with x.
  pose proof (sort_desc_sorted snd (Dict.entries (emotionCounts buffer))) as Hs.
  pose proof (fun y => sort_desc_In snd y (Dict.entries (emotionCounts buffer))) as Hi.
  destruct (sort_desc snd (Dict.entries (emotionCounts buffer))) as [|[e v] rest].
  - exfalso.
    assert (Hb : In (b0, occurrences b0 buffer) (emotionCounts buffer)).
    { apply emotionCounts_spec. split; [now left | reflexivity]. }
    apply dict_entries_In in Hb. apply Hi in Hb. exact Hb.
  - exists e. split; [reflexivity|].
    assert (He : In (e, v) (emotionCounts buffer)).
    { apply dict_entries_In. apply Hi. now left. }
    apply emotionCounts_spec in He. destruct He as [He ->].
    split; [exact He|]. split; [|reflexivity].
    intros e'. destruct (in_dec string_dec e' buffer) as [Hin | Hin].
    + assert (H' : In (e', occurrences e' buffer) ((e, occurrences e buffer) :: rest)).
      { apply Hi. apply dict_entries_In. apply emotionCounts_spec. now split. }
      destruct H' as [E | H'].
      * injection E as -> _. lia.
      * inversion Hs as [|? ? _ Hall]; subst.
        rewrite Forall_forall in Hall. exact (Hall _ H').
    + rewrite (occurrences_absent _ _ Hin). apply occurrences_nonneg.
Qed.

Lemma emotion_of_three_predictions :
  exists e,
    apiEmotion ["happy"; "sad"; "happy"] = (Success e, []) /\
    In e ["happy"; "sad"; "happy"].
Proof.
  destruct (emotion_is_most_frequent ["happy"; "sad"; "happy"]) as (_ & H).
  destruct H as (e & H1 & H2 & _).
  - discriminate.
  - repeat constructor; unfold plainKey; vm_compute;
      intros H; repeat (destruct H as [H | H]; [discriminate H|]); exact H.
  - exists e. now split.
Defined.

End DominantEmotion.

(** ** Ties between emotions *)

Section FirstAmongTies.

Local Open Scope Z_scope.

Lemma sort_desc_snoc {A} (key : A -> Z) (l : list A) (a : A) :
  sort_desc key (l ++ [a]) = insert_desc key a (sort_desc key l).
Proof. unfold sort_desc. now rewrite fold_left_app. Qed.

(** The head of the sorted list is the first element of greatest key. *)
Lemma sort_desc_head {A} (key : A -> Z) (l : list A) :
  forall x rest,
    sort_desc key l = x :: rest ->
    exists p q, l = p ++ x :: q /\
                (forall y, In y p -> key y < key x) /\
                (forall y, In y q -> key y <= key x).
Proof.
  induction l as [|a l IH] using rev_ind; intros x rest E; [discriminate|].
  rewrite sort_desc_snoc in E.
  destruct (sort_desc key l) as [|h t] eqn:Es.
  - assert (l = []) as ->.
    { destruct l as [|y l']; [reflexivity|]. exfalso.
      assert (Hy : In y (sort_desc key (y :: l'))) by (apply sort_desc_In; now left).
      rewrite Es in Hy. exact Hy. }
    simpl in E. injection E as <- _. exists [], []. split; [reflexivity|].
    split; intros y [].
  - destruct (IH h t eq_refl) as (p & q & -> & Hp & Hq).
    simpl in E. destruct (Z.ltb_spec (key h) (key a)) as [Hlt | Hge].
    + injection E as <- _. exists (p ++ h :: q), []. split; [reflexivity|].
      split; [|intros y []]. intros y Hy. apply in_app_iff in Hy.
      destruct Hy as [Hy | [<- | Hy]];
        [specialize (Hp y Hy); lia | exact Hlt | specialize (Hq y Hy); lia].
    + injection E as <- _. exists p, (q ++ [a]). split; [now rewrite <- app_assoc|].
      split; [exact Hp|]. intros y Hy. apply in_app_iff in Hy.
      destruct Hy as [Hy | [<- | []]]; [exact (Hq y Hy) | exact Hge].
Qed.

Lemma emotionCounts_snoc (buffer : list string) (x : string) :
  emotionCounts (buffer ++ [x]) = countEmotion (emotionCounts buffer) x.
Proof. unfold emotionCounts. now rewrite fold_left_app. Qed.

Lemma emotionCounts_keys (buffer : list string) (k : string) :
  In k (map fst (emotionCounts buffer)) <-> In k buffer.
Proof.
  destruct (countEmotion_invariant buffer [] (NoDup_nil _)) as (_ & _ & H).
  fold (emotionCounts buffer) in H. rewrite H. split; [intros [[] | Hk]; exact Hk | now right].
Qed.

(** The keys of the counts are in the order in which the emotions were
    first recorded. *)
Lemma emotionCounts_order (buffer : list string) :
  forall p e q,
    map fst (emotionCounts buffer) = p ++ e :: q ->
    exists pre post, buffer = pre ++ e :: post /\ forall e', In e' pre -> In e' p.
Proof.
  induction buffer as [|x buffer IH] using rev_ind; intros p e q E.
  - destruct p; discriminate.
  - rewrite emotionCounts_snoc in E. unfold countEmotion in E.
    rewrite dict_set_keys in E.
    destruct (in_dec string_dec x (map fst (emotionCounts buffer))) as [Hin | Hin].
    + destruct (IH p e q E) as (pre & post & -> & H).
      exists pre, (post ++ [x]). split; [now rewrite <- app_assoc|exact H].
    + destruct q as [|y q'] using rev_ind.
      *
        apply app_inj_tail in E. destruct E as [Ek <-].
        exists buffer, []. split; [reflexivity|].
        intros e' He'. rewrite <- Ek. now apply emotionCounts_keys.
      * clear IHq'. rewrite app_comm_cons, app_assoc in E.
        apply app_inj_tail in E. destruct E as [Ek _].
        destruct (IH p e q' Ek) as (pre & post & -> & H).
        exists pre, (post ++ [x]). split; [now rewrite <- app_assoc|exact H].
Qed.

Lemma filter_all {A} (f : A -> bool) (l : list A) :
  (forall x, In x l -> f x = true) -> filter f l = l.
Proof.
  induction l as [|x l IH]; intros H; [reflexivity|].
  simpl. rewrite (H x) by now left. f_equal. apply IH. intros y Hy. apply H. now right.
Qed.

Lemma dict_entries_plain {V} (o : Dict.t V) :
  (forall k, In k (map fst o) -> Dict.is_array_index k = false) ->
  Dict.entries o = o.
Proof.
  intros H. unfold Dict.entries.
  rewrite (filter_none (fun e => Dict.is_array_index (fst e)) o).
  - simpl. apply filter_all. intros e He. rewrite H; [reflexivity|]. now apply in_map.
  - intros e He. apply H. now apply in_map.
Qed.

(** When no emotion is named like an array index, a tie between the most
    frequent emotions goes to the one that was recorded first: every emotion
    recorded before the first occurrence of the answer is strictly less
    frequent. *)
Theorem dominant_emotion_is_first_among_ties (buffer : list string) :
  buffer <> [] ->
  Forall plainKey buffer ->
  Forall (fun e => Dict.is_array_index e = false) buffer ->
  exists e pre post,
    apiEmotion buffer = (Success e, []) /\
    buffer = pre ++ e :: post /\
    forall e', In e' pre -> occurrences e' buffer < occurrences e buffer.
Proof.
  intros Hne _ Hidx. rewrite Forall_forall in Hidx.
  destruct buffer as [|b0 bs]; [congruence|]. set (buffer := b0 :: bs) in *.
  unfold apiEmotion. fold buffer.
  change (match buffer with [] => _ | _ :: _ => ?x end) with x.
  rewrite dict_entries_plain.
  2:{ intros k Hk. apply Hidx. now apply emotionCounts_keys. }
  pose proof (sort_desc_head snd (emotionCounts buffer)) as Hh.
  pose proof (fun y => sort_desc_In snd y (emotionCounts buffer)) as Hi.
  destruct (sort_desc snd (emotionCounts buffer)) as [|[e v] rest].
  - exfalso.
    assert (Hb : In (b0, occurrences b0 buffer) (emotionCounts buffer)).
    { apply emotionCounts_spec. split; [now left | reflexivity]. }
    apply Hi in Hb. exact Hb.
  - destruct (Hh (e, v) rest eq_refl) as (p & q & Ec & Hp & _).
    assert (Ek : map fst (emotionCounts buffer) = map fst p ++ e :: map fst q).
    { rewrite Ec, map_app. reflexivity. }
    destruct (emotionCounts_order buffer _ _ _ Ek) as (pre & post & Eb & Hpre).
    exists e, pre, post. split; [reflexivity|]. split; [exact Eb|].
    intros e' He'. specialize (Hpre e' He'). apply in_map_iff in Hpre.
    destruct Hpre as ([k' v'] & Ek' & Hin). simpl in Ek'. subst k'.
    assert (H1 : In (e', v') (emotionCounts buffer)).
    { rewrite Ec. apply in_app_iff. now left. }
    assert (H2 : In (e, v) (emotionCounts buffer)).
    { rewrite Ec. apply in_app_iff. right. now left. }
    apply emotionCounts_spec in H1. apply emotionCounts_spec in H2.
    destruct H1 as [_ <-]. destruct H2 as [_ <-]. exact (Hp _ Hin).
Qed.

Lemma dominant_emotion_of_a_tie :
  exists e pre post,
    apiEmotion ["sad"; "happy"; "happy"; "sad"]%string = (Success e, []) /\
    ["sad"; "happy"; "happy"; "sad"]%string = pre ++ e :: post /\
    forall e', In e' pre ->
      occurrences e' ["sad"; "happy"; "happy"; "sad"]%string <
      occurrences e ["sad"; "happy"; "happy"; "sad"]%string.
Proof.
  apply dominant_emotion_is_first_among_ties.
  - discriminate.
  - repeat constructor; unfold plainKey; vm_compute;
      intros H; repeat (destruct H as [H | H]; [discriminate H|]); exact H.
  - repeat constructor.
Defined.

End FirstAmongTies.

(** ** The word bank without duplicates *)

Section Dedupe.

Lemma indexOf_nth (a : list string) (v : string) (i : nat) :
  indexOf a v = Some i -> nth_error a i = Some v.
Proof.
  revert i. induction a as [|x a IH]; intros i H; [discriminate|].
  simpl in H. destruct (String.eqb_spec x v) as [-> | Hne].
  - injection H as <-. reflexivity.
  - destruct (indexOf a v) as [j|]; [|discriminate].
    injection H as <-. simpl. now apply IH.
Qed.

Lemma indexOf_first (a : list string) (v : string) (i j : nat) :
  indexOf a v = Some i -> nth_error a j = Some v -> (i <= j)%nat.
Proof.
  revert i j. induction a as [|x a IH]; intros i j H Hj; [discriminate|].
  simpl in H. destruct (String.eqb_spec x v) as [-> | Hne].
  - injection H as <-. lia.
  - destruct (indexOf a v) as [k|] eqn:Ek; [|discriminate].
    injection H as <-. destruct j as [|j]; [simpl in Hj; congruence|].
    simpl in Hj. specialize (IH k j eq_refl Hj). lia.
Qed.

Lemma indexOf_In (a : list string) (v : string) :
  In v a -> exists i, indexOf a v = Some i.
Proof.
  induction a as [|x a IH]; intros H; [contradiction|].
  simpl. destruct (String.eqb_spec x v) as [-> | Hne]; [now exists 0%nat|].
  destruct H as [H | H]; [contradiction|].
  destruct (IH H) as (i & ->). now exists (S i).
Qed.

Lemma In_combine_seq {A} (l : list A) (start i : nat) (v : A) :
  In (i, v) (combine (seq start (List.length l)) l) <->
  (start <= i)%nat /\ nth_error l (i - start) = Some v.
Proof.
  revert start. induction l as [|x l IH]; intros start; simpl.
  - split; [intros [] | intros [_ H]]. destruct (i - start)%nat; discriminate.
  - rewrite IH. split.
    + intros [E | [Hle Hn]].
      * injection E as <- <-. split; [lia|]. now rewrite Nat.sub_diag.
      * split; [lia|]. replace (i - start)%nat with (S (i - S start)) by lia. exact Hn.
    + intros [Hle Hn]. destruct (Nat.eq_dec start i) as [<- | Hne].
      * rewrite Nat.sub_diag in Hn. simpl in Hn. injection Hn as <-. now left.
      * right. split; [lia|].
        replace (i - start)%nat with (S (i - S start)) in Hn by lia. exact Hn.
Qed.

Lemma NoDup_combine_seq {A} (l : list A) (start : nat) :
  NoDup (combine (seq start (List.length l)) l).
Proof.
  apply (NoDup_map_inv fst).
  assert (E : map fst (combine (seq start (List.length l)) l) = seq start (List.length l)).
  { revert start. induction l as [|x l IH]; intros start; [reflexivity|].
    simpl. now rewrite IH. }
  rewrite E. apply seq_NoDup.
Qed.

(** Whatever the list, removing the duplicates leaves each of its elements
    once, and leaves a list without duplicates as it is; doing it twice
    changes nothing more. *)
Theorem dedupe_keeps_each_element_once (a : list string) :
  NoDup (dedupe a) /\
  (forall w, In w (dedupe a) <-> In w a) /\
  (NoDup a -> dedupe a = a) /\
  dedupe (dedupe a) = dedupe a.
Proof.
  assert (Hnd : forall l, NoDup (dedupe l)).
  { intros l. unfold dedupe. apply NoDup_map_NoDup_ForallPairs.
    - intros [i v] [j w] Hi Hj E. simpl in E. subst w.
      apply filter_In in Hi. apply filter_In in Hj. simpl in Hi, Hj.
      destruct Hi as [_ Hi]. destruct Hj as [_ Hj].
      destruct (indexOf l v) as [k|]; [|discriminate].
      apply Nat.eqb_eq in Hi. apply Nat.eqb_eq in Hj. now subst.
    - apply NoDup_filter. apply NoDup_combine_seq. }
  assert (Hfix : forall l, NoDup l -> dedupe l = l).
  { intros l Hl. unfold dedupe. rewrite filter_all; [apply map_snd_combine_seq|].
    intros [i v] Hin. simpl. apply In_combine_seq in Hin. destruct Hin as [_ Hn].
    rewrite Nat.sub_0_r in Hn.
    destruct (indexOf_In l v) as (j & Ej); [eapply nth_error_In; exact Hn|].
    rewrite Ej. apply Nat.eqb_eq.
    assert (Hj : nth_error l j = Some v) by now apply indexOf_nth.
    apply (proj1 (NoDup_nth_error l) Hl).
    - apply nth_error_Some. congruence.
    - congruence. }
  split; [apply Hnd|]. split; [|split; [apply Hfix | apply Hfix, Hnd]].
  intros w. unfold dedupe. rewrite in_map_iff. split.
  - intros ([i v] & E & Hin). simpl in E. subst v.
    apply filter_In in Hin. destruct Hin as [Hin _].
    apply In_combine_seq in Hin. destruct Hin as [_ Hn].
    eapply nth_error_In. exact Hn.
  - intros Hin. destruct (indexOf_In a w Hin) as (i & Ei).
    exists (i, w). split; [reflexivity|]. apply filter_In. split.
    + apply In_combine_seq. split; [lia|]. rewrite Nat.sub_0_r. now apply indexOf_nth.
    + simpl. rewrite Ei. apply Nat.eqb_refl.
Qed.

Lemma dedupe_of_distinct_words :
  dedupe ["cat"; "dog"]%string = ["cat"; "dog"]%string.
Proof.
  destruct (dedupe_keeps_each_element_once ["cat"; "dog"]%string) as (_ & _ & Hd & _).
  apply Hd.
  repeat constructor; simpl; intros H;
    repeat (destruct H as [H | H]; [discriminate H|]); exact H.
Defined.

End Dedupe.

(** ** The instruction of the robot *)

Section RobotInstruction.

Local Open Scope string_scope.

Lemma startsWith_includes (s pat : string) :
  startsWith s pat = true -> includesText s pat = true.
Proof.
  unfold startsWith, includesText. intros H. destruct s as [|c s].
  - destruct pat; [reflexivity | discriminate].
  - cbn [String.index]. destruct (String.prefix pat (String c s)); [reflexivity | discriminate].
Qed.

Lemma or_startsWith (s pat : string) :
  includesText s pat || startsWith s pat = includesText s pat.
Proof.
  destruct (includesText s pat) eqn:E; [reflexivity|]. simpl.
  destruct (startsWith s pat) eqn:E'; [|reflexivity].
  apply startsWith_includes in E'. congruence.
Qed.

(** The instruction depends only on which of the four fragments occur in
    the path, tested in the order reading, typing, puzzle, phonetics: the
    tests on the beginning of the path and on the whole path decide nothing.
    The greeting is said exactly when no fragment occurs. *)
Theorem instruction_follows_fragments (pathname : string) :
  getInstructionForRoute pathname = instructionByFragments pathname /\
  (getInstructionForRoute pathname = instructionDefault <->
   includesText pathname "/reading-exercise" = false /\
   includesText pathname "/typing-game" = false /\
   includesText pathname "/game/" = false /\
   includesText pathname "/phonetics-game" = false).
Proof.
  assert (E : getInstructionForRoute pathname = instructionByFragments pathname).
  { unfold getInstructionForRoute, instructionByFragments. rewrite !or_startsWith.
    destruct (includesText pathname "/reading-exercise"); [reflexivity|].
    destruct (String.eqb_spec pathname "/typing-game") as [-> | Hne]; [reflexivity|].
    cbn [orb]. rewrite or_startsWith. reflexivity. }
  split; [exact E|]. rewrite E. unfold instructionByFragments.
  destruct (includesText pathname "/reading-exercise").
  { split; [discriminate | intros [H _]; discriminate H]. }
  destruct (includesText pathname "/typing-game").
  { split; [discriminate | intros (_ & H & _); discriminate H]. }
  destruct (includesText pathname "/game/").
  { split; [discriminate | intros (_ & _ & H & _); discriminate H]. }
  destruct (includesText pathname "/phonetics-game").
  { split; [discriminate | intros (_ & _ & _ & H); discriminate H]. }
  split; [intros _; repeat split | reflexivity].
Qed.

Lemma instruction_of_dashboard :
  getInstructionForRoute "/child-dashboard" = instructionDefault.
Proof.
  apply instruction_follows_fragments. repeat split.
Defined.

End RobotInstruction.

(** ** The words of a story *)

Section StoryWords.

Import Reading.

Lemma splitFrom_concat (rest : text) :
  forall m acc, List.concat (splitFrom m acc rest) = rev acc ++ rest.
Proof.
  induction rest as [|c rest IH]; intros m acc.
  - destruct m; simpl; now rewrite ?app_nil_r.
  - simpl. destruct m, (isWhiteSpace c); simpl; rewrite IH; simpl;
      now rewrite <- ?app_assoc.
Qed.

Lemma splitFrom_tokens (rest : text) :
  forall m acc,
    match m with
    | InWord => Forall (fun c => isWhiteSpace c = false) acc
    | InSpace => Forall (fun c => isWhiteSpace c = true) acc
    end ->
    Forall (fun t => spaceRun t \/ plainPiece t) (splitFrom m acc rest).
Proof.
  assert (Hrev : forall (P : N -> Prop) l, Forall P l -> Forall P (rev l)).
  { intros P l H. apply Forall_forall. intros x Hx. apply in_rev in Hx.
    rewrite Forall_forall in H. now apply H. }
  assert (Hword : forall acc, Forall (fun c => isWhiteSpace c = false) acc ->
                              spaceRun (rev acc) \/ plainPiece (rev acc)).
  { intros acc H. destruct acc as [|a acc]; [left; constructor|].
    right. split; [|now apply Hrev].
    simpl. intros E. apply app_eq_nil in E. destruct E as [_ E]. discriminate. }
  induction rest as [|c rest IH]; intros m acc H.
  - destruct m; simpl.
    + constructor; [now apply Hword | constructor].
    + constructor; [left; now apply Hrev|].
      constructor; [left; constructor | constructor].
  - simpl. destruct m, (isWhiteSpace c) eqn:Ec.
    + constructor; [now apply Hword|]. apply IH. constructor; [exact Ec | constructor].
    + apply IH. constructor; assumption.
    + apply IH. constructor; assumption.
    + constructor; [left; now apply Hrev|]. apply IH.
      constructor; [exact Ec | constructor].
Qed.

Lemma trim_spaceRun (t : text) : spaceRun t -> trim t = [].
Proof.
  intros H. unfold trim.
  assert (E : trimStart t = []).
  { induction H as [|c t Hc _ IH]; [reflexivity|]. simpl. now rewrite Hc. }
  rewrite E. reflexivity.
Qed.

Lemma trim_plainPiece (t : text) : plainPiece t -> trim t = t.
Proof.
  intros [Hne H]. unfold trim.
  assert (E : forall l, l <> [] -> Forall (fun c => isWhiteSpace c = false) l ->
                        trimStart l = l).
  { intros l Hl Hf. destruct l as [|c l]; [congruence|].
    inversion Hf as [|? ? Hc _]; subst. simpl. now rewrite Hc. }
  rewrite (E t Hne H). rewrite E.
  - apply rev_involutive.
  - intros Er. apply Hne. rewrite <- (rev_involutive t), Er. reflexivity.
  - apply Forall_forall. intros x Hx. apply in_rev in Hx.
    rewrite Forall_forall in H. now apply H.
Qed.

Lemma numberTokens_words (tokens : list text) (i : Z) :
  List.concat (map word (numberTokens tokens i)) = List.concat tokens.
Proof.
  revert i. induction tokens as [|t tokens IH]; intros i; [reflexivity|].
  simpl. destruct (List.length (trim t) =? 0)%nat; simpl; now rewrite IH.
Qed.

Lemma numberTokens_indices (tokens : list text) (i : Z) :
  map index (wordsOf (numberTokens tokens i)) =
  map (fun j => (i + Z.of_nat j)%Z)
      (seq 0 (List.length (wordsOf (numberTokens tokens i)))).
Proof.
  revert i. induction tokens as [|t tokens IH]; intros i; [reflexivity|].
  simpl. destruct (List.length (trim t) =? 0)%nat; simpl.
  - apply IH.
  - f_equal; [f_equal; lia|]. rewrite IH, <- seq_shift, map_map.
    apply map_ext. intros j. lia.
Qed.

Lemma numberTokens_items (tokens : list text) :
  Forall (fun t => spaceRun t \/ plainPiece t) tokens ->
  forall i it, In it (numberTokens tokens i) ->
    if isSpace it then spaceRun (word it) /\ index it = (-1)%Z
    else plainPiece (word it).
Proof.
  induction 1 as [|t tokens Ht _ IH]; intros i it Hin; [contradiction|].
  simpl in Hin. destruct Ht as [Ht | Ht].
  - rewrite (trim_spaceRun t Ht) in Hin. simpl in Hin.
    destruct Hin as [<- | Hin]; [simpl; now split | exact (IH _ _ Hin)].
  - rewrite (trim_plainPiece t Ht) in Hin. destruct Ht as [Hne Hf].
    destruct t as [|c t]; [congruence|]. simpl in Hin.
    destruct Hin as [<- | Hin]; [simpl; now split | exact (IH _ _ Hin)].
Qed.

(** Splitting a story loses nothing: the items put together give the text
    back.  The words are numbered 0, 1, 2, ... in their order; a word is
    never empty and holds no white space; every other item is a run of
    white space (or empty) and has the index -1. *)
Theorem story_words_round_trip (t : text) :
  let items := splitIntoWords t in
  List.concat (map word items) = t /\
  map index (wordsOf items) =
    map Z.of_nat (seq 0 (List.length (wordsOf items))) /\
  (forall it, In it items ->
     if isSpace it
     then Forall (fun c => isWhiteSpace c = true) (word it) /\ index it = (-1)%Z
     else word it <> [] /\ Forall (fun c => isWhiteSpace c = false) (word it)).
Proof.
  cbv zeta. unfold splitIntoWords. split; [|split].
  - rewrite numberTokens_words. unfold split. now rewrite splitFrom_concat.
  - rewrite numberTokens_indices. apply map_ext. intros j. lia.
  - intros it Hin. apply (numberTokens_items (split t)) with (i := 0%Z); [|exact Hin].
    unfold split. apply splitFrom_tokens. constructor.
Qed.

(** The story "a b": two words around one space. *)
Lemma story_words_of_a_b :
  List.concat (map word (splitIntoWords [97; 32; 98]%N)) = [97; 32; 98]%N.
Proof.
  apply (story_words_round_trip [97; 32; 98]%N).
Defined.

End StoryWords.

